(** * Save manager of the Sonic 1 WASM port: snapshot, codec, storage, restore

    A shallow embedding of [save-manager.js].  The functions of the script keep
    their names ([collectSaveFiles], [restoreSaveFiles], [serialize],
    [deserialize], [saveToIndexedDB], ...).  What the script takes from its host
    (strings, [btoa]/[atob], [JSON], typed arrays, the Emscripten [FS] object,
    [localStorage], IndexedDB) is modelled in the first half of the file.

    Conventions.
    - A JavaScript string is the list of its UTF-16 code units ([list N]).
    - A [throw] is the [Err] case of [result]; [try]/[catch] is a [match].
    - Callbacks ([onSuccess], [onError]) are modelled by the outcome a function
      returns; the console is not modelled. *)

From Stdlib Require Import NArith ZArith List String Ascii Lia Bool.
From stdpp Require Import gmap list.
Import ListNotations.

Local Open Scope N_scope.

(** ** Strings of code units *)

Abbreviation jsstring := (list N).

(** The code units of a literal written in Rocq's 8-bit strings. *)
Definition js (s : string) : jsstring :=
  List.map N_of_ascii (list_ascii_of_string s).

(** ** Completions: a value or a thrown exception *)

Inductive Error : Type :=
  | InvalidCharacterError          (* DOMException of btoa / atob *)
  | SyntaxError                    (* JSON.parse *)
  | RangeError
  | TypeError
  | ErrnoError (errno : N)         (* FS.ErrnoError *)
  | VersionError                   (* IndexedDB open with a lower version *)
  | HostError (name : jsstring)    (* a failure reported by the host store *)
  | MsgError (message : jsstring). (* new Error(message) *)

Inductive result (A : Type) : Type :=
  | OK (a : A)
  | Err (e : Error).
Arguments OK {A} a.
Arguments Err {A} e.

Definition rbind {A B} (r : result A) (k : A -> result B) : result B :=
  match r with
  | OK a => k a
  | Err e => Err e
  end.

Notation "'do' x <- r ; k" := (rbind r (fun x => k))
  (at level 10, x name, r at level 100, k at level 200).

(** ** Base64: [btoa] and [atob] *)

Module Base64.

(** The character of a 6-bit value: A-Z, a-z, 0-9, [+], [/]. *)
Definition b64_char (v : N) : N :=
  if v <? 26 then 65 + v
  else if v <? 52 then 97 + (v - 26)
  else if v <? 62 then 48 + (v - 52)
  else if v =? 62 then 43
  else 47.

Definition b64_value (c : N) : option N :=
  if (65 <=? c) && (c <=? 90) then Some (c - 65)
  else if (97 <=? c) && (c <=? 122) then Some (c - 97 + 26)
  else if (48 <=? c) && (c <=? 57) then Some (c - 48 + 52)
  else if c =? 43 then Some 62
  else if c =? 47 then Some 63
  else None.

Definition pad_char : N := 61.

(** Three bytes give four 6-bit values; a rest of two bytes gives three and
    a rest of one gives two, the missing low bits being zero. *)
Fixpoint sextets (bs : list N) : list N :=
  match bs with
  | a :: b :: c :: rest =>
      N.shiftr a 2
      :: N.lor (N.shiftl (N.land a 3) 4) (N.shiftr b 4)
      :: N.lor (N.shiftl (N.land b 15) 2) (N.shiftr c 6)
      :: N.land c 63
      :: sextets rest
  | [a; b] =>
      [ N.shiftr a 2;
        N.lor (N.shiftl (N.land a 3) 4) (N.shiftr b 4);
        N.shiftl (N.land b 15) 2 ]
  | [a] => [ N.shiftr a 2; N.shiftl (N.land a 3) 4 ]
  | [] => []
  end.

Definition padding (n : nat) : nat := ((3 - n mod 3) mod 3)%nat.

Definition encode (bs : list N) : jsstring :=
  List.map b64_char (sextets bs) ++ repeat pad_char (padding (length bs)).

(** [btoa] throws when a code unit is above U+00FF. *)
Definition btoa (s : jsstring) : result jsstring :=
  if forallb (fun c => c <=? 255) s then OK (encode s)
  else Err InvalidCharacterError.

(** Four 6-bit values give three bytes; at the end of the data twelve bits
    give one byte and eighteen bits give two, the spare bits being dropped. *)
Fixpoint octets (vs : list N) : list N :=
  match vs with
  | a :: b :: c :: d :: rest =>
      N.lor (N.shiftl a 2) (N.shiftr b 4)
      :: N.lor (N.shiftl (N.land b 15) 4) (N.shiftr c 2)
      :: N.lor (N.shiftl (N.land c 3) 6) d
      :: octets rest
  | [a; b; c] =>
      [ N.lor (N.shiftl a 2) (N.shiftr b 4);
        N.lor (N.shiftl (N.land b 15) 4) (N.shiftr c 2) ]
  | [a; b] => [ N.lor (N.shiftl a 2) (N.shiftr b 4) ]
  | _ => []
  end.

Definition is_ascii_whitespace (c : N) : bool :=
  (c =? 9) || (c =? 10) || (c =? 12) || (c =? 13) || (c =? 32).

(** One or two [=] at the end are removed. *)
Definition strip_padding (s : jsstring) : jsstring :=
  match rev s with
  | c1 :: r1 =>
      if c1 =? pad_char then
        match r1 with
        | c2 :: r2 => if c2 =? pad_char then rev r2 else rev r1
        | [] => rev r1
        end
      else s
  | [] => s
  end.

Fixpoint values (s : jsstring) : option (list N) :=
  match s with
  | [] => Some []
  | c :: rest =>
      match b64_value c, values rest with
      | Some v, Some vs => Some (v :: vs)
      | _, _ => None
      end
  end.

(** [atob] is the forgiving-base64 decoding of the HTML standard. *)
Definition atob (s : jsstring) : result jsstring :=
  let data := List.filter (fun c => negb (is_ascii_whitespace c)) s in
  let data :=
    if (length data mod 4 =? 0)%nat then strip_padding data else data in
  if (length data mod 4 =? 1)%nat then Err InvalidCharacterError
  else match values data with
       | None => Err InvalidCharacterError
       | Some vs => OK (octets vs)
       end.

Definition byte_range : list N := List.map N.of_nat (seq 0 256).
Definition sextet_range : list N := List.map N.of_nat (seq 0 64).

End Base64.


(** ** Characters *)

Definition ch (a : ascii) : N := N_of_ascii a.

Definition is_digit (c : N) : bool := (48 <=? c) && (c <=? 57).

Fixpoint uint_chars (u : Decimal.uint) : jsstring :=
  match u with
  | Decimal.Nil => []
  | Decimal.D0 u => 48 :: uint_chars u
  | Decimal.D1 u => 49 :: uint_chars u
  | Decimal.D2 u => 50 :: uint_chars u
  | Decimal.D3 u => 51 :: uint_chars u
  | Decimal.D4 u => 52 :: uint_chars u
  | Decimal.D5 u => 53 :: uint_chars u
  | Decimal.D6 u => 54 :: uint_chars u
  | Decimal.D7 u => 55 :: uint_chars u
  | Decimal.D8 u => 56 :: uint_chars u
  | Decimal.D9 u => 57 :: uint_chars u
  end.

(** The decimal digits of a natural number, ["0"] for zero. *)
Definition digits_of_N (n : N) : jsstring := uint_chars (N.to_uint n).

(** The value of a run of decimal digits. *)
Definition N_of_digits (s : jsstring) : N :=
  fold_left (fun acc c => 10 * acc + (c - 48)) s 0.

(** ** Numbers

    A Number is a binary64 value, [NaN] or an infinity.  A finite value is
    kept as the exact decimal [m * 10^e] it has, in lowest terms ([m] not
    divisible by ten, and zero as [0 * 10^0]).  [binary64] gives the Number
    of a decimal: the nearest value, the one with the even significand when
    two are as near, an infinity from [2^1024] on.  The sign of zero is not
    kept: nothing in the script tells the two zeros apart. *)

Inductive number : Type :=
  | NaN
  | Infinity (negative : bool)
  | Finite (m : Z) (e : Z).

Fixpoint strip_zeros (fuel : nat) (m e : Z) : Z * Z :=
  match fuel with
  | O => (m, e)
  | S fuel' =>
      if (m mod 10 =? 0)%Z then strip_zeros fuel' (m / 10)%Z (e + 1)%Z
      else (m, e)
  end.

Definition decimal (m e : Z) : number :=
  if (m =? 0)%Z then Finite 0 0
  else let (m', e') := strip_zeros (S (Z.to_nat (Z.log2 (Z.abs m)))) m e in
       Finite m' e'.

(** The integer nearest to [p / q], the even one of two that are as near;
    [p] is not negative and [q] is positive. *)
Definition round_half_even (p q : Z) : Z :=
  let d := (p / q)%Z in
  let r := (p mod q)%Z in
  if (2 * r <? q)%Z then d
  else if (q <? 2 * r)%Z then (d + 1)%Z
  else if Z.even d then d else (d + 1)%Z.

(** The Number of the decimal [m * 10^e].  A decimal from [10^309] on is
    above every finite value, and one below [10^-330] rounds to zero; in
    between the value is [p / q], its binary exponent is [l], and its
    significand of 53 bits, or fewer for a subnormal, is rounded. *)
Definition binary64 (m e : Z) : number :=
  if (m =? 0)%Z then Finite 0 0
  else
    let a := Z.abs m in
    let negative := (m <? 0)%Z in
    if (308 <? e)%Z then Infinity negative
    else if (e + Z.log2 a + 1 <? -330)%Z then Finite 0 0
    else
      let p := if (0 <=? e)%Z then (a * 10 ^ e)%Z else a in
      let q := if (0 <=? e)%Z then 1%Z else (10 ^ (- e))%Z in
      let l0 := (Z.log2 p - Z.log2 q)%Z in
      let reaches :=
        if (0 <=? l0)%Z then (q * 2 ^ l0 <=? p)%Z
        else (q <=? p * 2 ^ (- l0))%Z in
      let l := if reaches then l0 else (l0 - 1)%Z in
      let k := Z.max (l - 52) (-1074) in
      let mant :=
        if (0 <=? k)%Z then round_half_even p (q * 2 ^ k)
        else round_half_even (p * 2 ^ (- k)) q in
      if (mant =? 0)%Z then Finite 0 0
      else if (1024 <=? k + Z.log2 mant)%Z then Infinity negative
      else
        let s := if negative then (- mant)%Z else mant in
        if (0 <=? k)%Z then decimal (s * 2 ^ k) 0
        else decimal (s * 5 ^ (- k)) k.

Definition number_of_N (n : N) : number := binary64 (Z.of_N n) 0.

(** The digits [Number::toString] prints for the positive value
    [a * 10^e]: the fewest that read back as the value, and of those the
    nearest to it.  With [kd] digits only the decimal just below the value
    and the one just above can be that. *)
Definition reads_back_as (s e' a e : Z) : bool :=
  match binary64 s e' with
  | Finite m1 e1 => (m1 =? a)%Z && (e1 =? e)%Z
  | _ => false
  end.

Definition digits_try (a e len kd : Z) : option (Z * Z) :=
  let scale := (len - kd)%Z in
  let unit := (10 ^ scale)%Z in
  let lo := (a / unit)%Z in
  let hi := (lo + 1)%Z in
  let e' := (e + scale)%Z in
  let below := (a - lo * unit)%Z in
  let above := (hi * unit - a)%Z in
  match reads_back_as lo e' a e, reads_back_as hi e' a e with
  | true, true =>
      if (below <? above)%Z then Some (lo, e')
      else if (above <? below)%Z then Some (hi, e')
      else if Z.even lo then Some (lo, e') else Some (hi, e')
  | true, false => Some (lo, e')
  | false, true => Some (hi, e')
  | false, false => None
  end.

Fixpoint digits_from (fuel : nat) (a e len kd : Z) : Z * Z :=
  match fuel with
  | O => (a, e)
  | S fuel' =>
      if (len <=? kd)%Z then (a, e)
      else match digits_try a e len kd with
           | Some r => r
           | None => digits_from fuel' a e len (kd + 1)%Z
           end
  end.

Definition shortest_digits (a e : Z) : Z * Z :=
  let len := Z.of_nat (length (digits_of_N (Z.to_N a))) in
  let (s, e') := digits_from 17 a e len 1 in
  match decimal s e' with
  | Finite s' e'' => (s', e'')
  | _ => (s, e')
  end.

(** [Number::toString] with radix ten. *)
Definition Number_toString (x : number) : jsstring :=
  match x with
  | NaN => js "NaN"
  | Infinity false => js "Infinity"
  | Infinity true => js "-Infinity"
  | Finite m e =>
      if (m =? 0)%Z then js "0"
      else
        let sign := if (m <? 0)%Z then js "-" else [] in
        let (m1, e1) := shortest_digits (Z.abs m) e in
        let s := digits_of_N (Z.to_N m1) in
        let k := Z.of_nat (length s) in
        let n := (k + e1)%Z in
        sign ++
        (if (k <=? n)%Z && (n <=? 21)%Z then
           s ++ repeat 48 (Z.to_nat (n - k))
         else if (0 <? n)%Z && (n <=? 21)%Z then
           firstn (Z.to_nat n) s ++ js "." ++ skipn (Z.to_nat n) s
         else if (-6 <? n)%Z && (n <=? 0)%Z then
           js "0." ++ repeat 48 (Z.to_nat (- n)) ++ s
         else
           let x := (n - 1)%Z in
           let xs := (if (x <? 0)%Z then js "-" else js "+")
                     ++ digits_of_N (Z.to_N (Z.abs x)) in
           if (k =? 1)%Z then s ++ js "e" ++ xs
           else firstn 1 s ++ js "." ++ skipn 1 s ++ js "e" ++ xs)
  end.

(** ** Values *)

#[local] Set Warnings "-register-all".

Inductive JSValue : Type :=
  | JNull
  | JBool (b : bool)
  | JNumber (n : number)
  | JString (s : jsstring)
  | JArray (elems : list JSValue)
  | JObject (props : list (jsstring * JSValue)).

(** [typeof v === 'object'] *)
Definition typeof_object (v : JSValue) : bool :=
  match v with
  | JNull | JArray _ | JObject _ => true
  | _ => false
  end.

(** ToBoolean *)
Definition truthy (v : JSValue) : bool :=
  match v with
  | JNull => false
  | JBool b => b
  | JNumber NaN => false
  | JNumber (Finite m _) => negb (m =? 0)%Z
  | JNumber (Infinity _) => true
  | JString s => match s with [] => false | _ => true end
  | JArray _ | JObject _ => true
  end.

(** *** Property keys

    An array index is the canonical decimal string of an integer below
    [2^32 - 1].  The own keys of an object are listed with the array indices
    first, in ascending order, then the other keys in the order of their
    creation; the property list of a [JObject] is kept in that order. *)

Definition array_index (k : jsstring) : option N :=
  match k with
  | [] => None
  | c :: rest =>
      if forallb is_digit k && ((negb (c =? 48)) || match rest with [] => true | _ => false end)
      then let n := N_of_digits k in
           if n <? 4294967295 then Some n else None
      else None
  end.

Definition string_eqb (a b : jsstring) : bool :=
  if decide (a = b) then true else false.

Fixpoint obj_get (k : jsstring) (props : list (jsstring * JSValue)) : option JSValue :=
  match props with
  | [] => None
  | (k', v) :: rest => if string_eqb k k' then Some v else obj_get k rest
  end.

Fixpoint obj_replace (k : jsstring) (v : JSValue) (props : list (jsstring * JSValue))
  : list (jsstring * JSValue) :=
  match props with
  | [] => []
  | (k', v') :: rest =>
      if string_eqb k k' then (k', v) :: rest
      else (k', v') :: obj_replace k v rest
  end.

(** A new array index goes before the first key that is not an array index or
    is a larger one. *)
Fixpoint obj_insert_index (n : N) (k : jsstring) (v : JSValue)
    (props : list (jsstring * JSValue)) : list (jsstring * JSValue) :=
  match props with
  | [] => [(k, v)]
  | (k', v') :: rest =>
      match array_index k' with
      | Some n' =>
          if n' <? n then (k', v') :: obj_insert_index n k v rest
          else (k, v) :: props
      | None => (k, v) :: props
      end
  end.

(** [obj[k] = v] on a plain object (CreateDataProperty). *)
Definition obj_set (k : jsstring) (v : JSValue) (props : list (jsstring * JSValue))
  : list (jsstring * JSValue) :=
  match obj_get k props with
  | Some _ => obj_replace k v props
  | None =>
      match array_index k with
      | Some n => obj_insert_index n k v props
      | None => props ++ [(k, v)]
      end
  end.

(** The keys a [for (k in v)] loop visits, also those of [Object.keys(v)]
    for a value that is not [null]. *)
Definition own_keys (v : JSValue) : list jsstring :=
  match v with
  | JObject props => List.map fst props
  | JArray elems =>
      List.map (fun i => digits_of_N (N.of_nat i)) (seq 0 (length elems))
  | JString s =>
      List.map (fun i => digits_of_N (N.of_nat i)) (seq 0 (length s))
  | _ => []
  end.

(** [v[k]] for a key that [own_keys] lists; [None] is [undefined]. *)
Definition get (v : JSValue) (k : jsstring) : option JSValue :=
  match v with
  | JObject props => obj_get k props
  | JArray elems =>
      match array_index k with
      | Some i => nth_error elems (N.to_nat i)
      | None => None
      end
  | JString s =>
      match array_index k with
      | Some i => option_map (fun c => JString [c]) (nth_error s (N.to_nat i))
      | None => None
      end
  | _ => None
  end.

(** ** JSON *)

Module JSON.

Definition hex_digit (v : N) : N :=
  if v <? 10 then 48 + v else 97 + (v - 10).

Definition hex_value (c : N) : option N :=
  if (48 <=? c) && (c <=? 57) then Some (c - 48)
  else if (97 <=? c) && (c <=? 102) then Some (c - 97 + 10)
  else if (65 <=? c) && (c <=? 70) then Some (c - 65 + 10)
  else None.

(** [\uXXXX] with lower-case digits. *)
Definition unicode_escape (c : N) : jsstring :=
  [ 92; 117;
    hex_digit (N.land (N.shiftr c 12) 15);
    hex_digit (N.land (N.shiftr c 8) 15);
    hex_digit (N.land (N.shiftr c 4) 15);
    hex_digit (N.land c 15) ].

Definition is_lead (c : N) : bool := (55296 <=? c) && (c <=? 56319).
Definition is_trail (c : N) : bool := (56320 <=? c) && (c <=? 57343).

(** The short escapes of QuoteJSONString, then [\u00XX] for the other
    control characters. *)
Definition escape_of (c : N) : option jsstring :=
  if c =? 8 then Some (js "\b")
  else if c =? 9 then Some (js "\t")
  else if c =? 10 then Some (js "\n")
  else if c =? 12 then Some (js "\f")
  else if c =? 13 then Some (js "\r")
  else if c =? 34 then Some [92; 34]
  else if c =? 92 then Some [92; 92]
  else if c <? 32 then Some (unicode_escape c)
  else None.

(** The body of a quoted string.  A surrogate pair is kept, a surrogate
    that stands alone is escaped. *)
Fixpoint quote_units (s : jsstring) : jsstring :=
  match s with
  | [] => []
  | c :: rest =>
      match escape_of c with
      | Some esc => esc ++ quote_units rest
      | None =>
          if is_lead c then
            match rest with
            | d :: rest' =>
                if is_trail d then c :: d :: quote_units rest'
                else unicode_escape c ++ quote_units rest
            | [] => unicode_escape c
            end
          else if is_trail c then unicode_escape c ++ quote_units rest
          else c :: quote_units rest
      end
  end.

Definition quote (s : jsstring) : jsstring := 34 :: quote_units s ++ [34].

Fixpoint join_comma (parts : list jsstring) : jsstring :=
  match parts with
  | [] => []
  | [p] => p
  | p :: rest => p ++ 44 :: join_comma rest
  end.

(** [JSON.stringify(v)] without replacer or indentation. *)
Fixpoint stringify (v : JSValue) : jsstring :=
  match v with
  | JNull => js "null"
  | JBool true => js "true"
  | JBool false => js "false"
  | JNumber (Finite m e) => Number_toString (Finite m e)
  | JNumber _ => js "null"
  | JString s => quote s
  | JArray elems => 91 :: join_comma (List.map stringify elems) ++ [93]
  | JObject props =>
      123 :: join_comma
               (List.map (fun p => quote (fst p) ++ 58 :: stringify (snd p)) props)
          ++ [125]
  end.

(** *** Parsing *)

Definition is_ws (c : N) : bool :=
  (c =? 9) || (c =? 10) || (c =? 13) || (c =? 32).

Fixpoint skip_ws (s : jsstring) : jsstring :=
  match s with
  | c :: rest => if is_ws c then skip_ws rest else s
  | [] => []
  end.

(** The characters of a string after its opening quote, up to and without
    the closing one. *)
Fixpoint parse_chars (s : jsstring) : option (jsstring * jsstring) :=
  match s with
  | [] => None
  | c :: rest =>
      if c =? 34 then Some ([], rest)
      else if c =? 92 then
        match rest with
        | [] => None
        | x :: rest1 =>
            if x =? 117 then
              match rest1 with
              | h3 :: h2 :: h1 :: h0 :: rest2 =>
                  match hex_value h3, hex_value h2, hex_value h1, hex_value h0 with
                  | Some a, Some b, Some c', Some d =>
                      match parse_chars rest2 with
                      | Some (t, r) =>
                          Some (((a * 16 + b) * 16 + c') * 16 + d :: t, r)
                      | None => None
                      end
                  | _, _, _, _ => None
                  end
              | _ => None
              end
            else
              let unescaped :=
                if x =? 34 then Some 34          (* quote *)
                else if x =? 92 then Some 92     (* backslash *)
                else if x =? 47 then Some 47     (* solidus *)
                else if x =? 98 then Some 8      (* b: backspace *)
                else if x =? 102 then Some 12    (* f: form feed *)
                else if x =? 110 then Some 10    (* n: line feed *)
                else if x =? 114 then Some 13    (* r: carriage return *)
                else if x =? 116 then Some 9     (* t: tab *)
                else None in
              match unescaped, parse_chars rest1 with
              | Some u, Some (t, r) => Some (u :: t, r)
              | _, _ => None
              end
        end
      else if c <? 32 then None
      else match parse_chars rest with
           | Some (t, r) => Some (c :: t, r)
           | None => None
           end
  end.

(** *** Number tokens *)

Definition is_number_char (c : N) : bool :=
  is_digit c || (c =? 45) || (c =? 43) || (c =? 46) || (c =? 101) || (c =? 69).

Fixpoint span (p : N -> bool) (s : jsstring) : jsstring * jsstring :=
  match s with
  | c :: rest =>
      if p c then let (a, b) := span p rest in (c :: a, b) else ([], s)
  | [] => ([], [])
  end.

(** [0] or a digit from one to nine followed by digits. *)
Definition valid_int (s : jsstring) : bool :=
  match s with
  | [] => false
  | [c] => is_digit c
  | c :: _ => is_digit c && negb (c =? 48)
  end.

Definition parse_exponent (s : jsstring) : option Z :=
  match s with
  | [] => Some 0%Z
  | c :: rest =>
      if (c =? 101) || (c =? 69) then
        let (neg, ds) :=
          match rest with
          | 45 :: ds => (true, ds)
          | 43 :: ds => (false, ds)
          | _ => (false, rest)
          end in
        match ds with
        | [] => None
        | _ =>
            if forallb is_digit ds then
              let x := Z.of_N (N_of_digits ds) in
              Some (if neg : bool then (- x)%Z else x)
            else None
        end
      else None
  end.

(** The number written by a token made of number characters:
    [-? int (. digits+)? ([eE] [+-]? digits+)?]. *)
Definition parse_number (tok : jsstring) : option number :=
  let (neg, body) :=
    match tok with
    | 45 :: body => (true, body)
    | _ => (false, tok)
    end in
  let (int, rest) := span is_digit body in
  if valid_int int then
    let (frac, rest') :=
      match rest with
      | 46 :: more => span is_digit more
      | _ => ([], rest)
      end in
    let frac_ok :=
      match rest with
      | 46 :: _ => match frac with [] => false | _ => true end
      | _ => true
      end in
    if frac_ok then
      match parse_exponent rest' with
      | Some x =>
          let m := Z.of_N (N_of_digits (int ++ frac)) in
          Some (binary64 (if neg : bool then (- m)%Z else m)
                         (x - Z.of_nat (length frac)))
      | None => None
      end
    else None
  else None.

Fixpoint strip_prefix (p s : jsstring) : option jsstring :=
  match p, s with
  | [], _ => Some s
  | a :: p', b :: s' => if a =? b then strip_prefix p' s' else None
  | _ :: _, [] => None
  end.

(** The rest of a text that starts with the character [c]. *)
Definition expect (c : N) (s : jsstring) : option jsstring :=
  match s with
  | x :: r => if x =? c then Some r else None
  | [] => None
  end.

(** The object made of the members in the order they are written; a key
    written twice keeps its first place and its last value. *)
Definition build_object (members : list (jsstring * JSValue)) : JSValue :=
  JObject (fold_left (fun o p => obj_set (fst p) (snd p) o) members []).

(** *** The recursive-descent parser

    [None] is running out of fuel, [Some (Err SyntaxError)] a syntax error. *)

Definition parsed (A : Type) : Type := option (result (A * jsstring)).

Definition syntax_error {A} : parsed A := Some (Err SyntaxError).

Fixpoint parse_value (fuel : nat) (s : jsstring) : parsed JSValue :=
  match fuel with
  | O => None
  | S fuel' =>
      match skip_ws s with
      | [] => syntax_error
      | c :: rest =>
          if c =? 123 then                       (* { *)
            match expect 125 (skip_ws rest) with
            | Some rest' => Some (OK (JObject [], rest'))
            | None =>
                match parse_members fuel' rest with
                | Some (OK (ms, r)) => Some (OK (build_object ms, r))
                | Some (Err e) => Some (Err e)
                | None => None
                end
            end
          else if c =? 91 then                   (* [ *)
            match expect 93 (skip_ws rest) with
            | Some rest' => Some (OK (JArray [], rest'))
            | None =>
                match parse_elements fuel' rest with
                | Some (OK (vs, r)) => Some (OK (JArray vs, r))
                | Some (Err e) => Some (Err e)
                | None => None
                end
            end
          else if c =? 34 then                   (* string *)
            match parse_chars rest with
            | Some (t, r) => Some (OK (JString t, r))
            | None => syntax_error
            end
          else if (c =? 45) || is_digit c then   (* number *)
            let (tok, r) := span is_number_char (c :: rest) in
            match parse_number tok with
            | Some n => Some (OK (JNumber n, r))
            | None => syntax_error
            end
          else
            match strip_prefix (js "true") (c :: rest) with
            | Some r => Some (OK (JBool true, r))
            | None =>
                match strip_prefix (js "false") (c :: rest) with
                | Some r => Some (OK (JBool false, r))
                | None =>
                    match strip_prefix (js "null") (c :: rest) with
                    | Some r => Some (OK (JNull, r))
                    | None => syntax_error
                    end
                end
            end
      end
  end

(** The elements of an array after its [[] or after a comma. *)
with parse_elements (fuel : nat) (s : jsstring) : parsed (list JSValue) :=
  match fuel with
  | O => None
  | S fuel' =>
      match parse_value fuel' s with
      | Some (OK (v, r)) =>
          match skip_ws r with
          | c :: r' =>
              if c =? 44 then
                match parse_elements fuel' r' with
                | Some (OK (vs, r'')) => Some (OK (v :: vs, r''))
                | other => other
                end
              else if c =? 93 then Some (OK ([v], r'))
              else syntax_error
          | [] => syntax_error
          end
      | Some (Err e) => Some (Err e)
      | None => None
      end
  end

(** The members of an object after its [{] or after a comma. *)
with parse_members (fuel : nat) (s : jsstring)
  : parsed (list (jsstring * JSValue)) :=
  match fuel with
  | O => None
  | S fuel' =>
      match expect 34 (skip_ws s) with
      | Some s1 =>
          match parse_chars s1 with
          | Some (k, s2) =>
              match expect 58 (skip_ws s2) with
              | Some s3 =>
                  match parse_value fuel' s3 with
                  | Some (OK (v, r)) =>
                      match skip_ws r with
                      | c :: r' =>
                          if c =? 44 then
                            match parse_members fuel' r' with
                            | Some (OK (ms, r'')) => Some (OK ((k, v) :: ms, r''))
                            | other => other
                            end
                          else if c =? 125 then Some (OK ([(k, v)], r'))
                          else syntax_error
                      | [] => syntax_error
                      end
                  | Some (Err e) => Some (Err e)
                  | None => None
                  end
              | None => syntax_error
              end
          | None => syntax_error
          end
      | None => syntax_error
      end
  end.

(** Every call of the parser that spends fuel without reading a character
    is followed by one that reads, so twice the length of the text, and a
    little, is enough. *)
Definition parse_fuel (s : jsstring) : nat := (2 * length s + 3)%nat.

(** [JSON.parse(text)]: one value, then nothing but white space. *)
Definition parse (text : jsstring) : result JSValue :=
  match parse_value (parse_fuel text) text with
  | Some (OK (v, r)) =>
      match skip_ws r with
      | [] => OK v
      | _ => Err SyntaxError
      end
  | Some (Err e) => Err e
  | None => Err SyntaxError
  end.

End JSON.

(** The result of reading one more code unit in front of a string body. *)
Definition cons_parsed (c : N) (r : option (jsstring * jsstring)) :=
  match r with
  | Some (t, r) => Some (c :: t, r)
  | None => None
  end.

(** Turns boolean comparisons in the hypotheses into propositions. *)
Ltac to_prop :=
  repeat match goal with
    | H : (_ =? _) = true |- _ => apply N.eqb_eq in H
    | H : (_ =? _) = false |- _ => apply N.eqb_neq in H
    | H : (_ <? _) = true |- _ => apply N.ltb_lt in H
    | H : (_ <? _) = false |- _ => apply N.ltb_ge in H
    | H : (_ <=? _) = true |- _ => apply N.leb_le in H
    | H : (_ <=? _) = false |- _ => apply N.leb_gt in H
    | H : (_ && _) = true |- _ => apply andb_true_iff in H as [? ?]
    | H : (_ || _) = false |- _ => apply orb_false_iff in H as [? ?]
    | H : negb _ = true |- _ => apply negb_true_iff in H
    | H : negb _ = false |- _ => apply negb_false_iff in H
    end.

(** A parse that did not run out of fuel and, when it returned a value, read
    at least one character of [s]. *)
Definition consumes {A} (s : jsstring) (r : JSON.parsed A) : Prop :=
  match r with
  | None => False
  | Some (Err _) => True
  | Some (OK (_, rest)) => (length rest < length s)%nat
  end.

(** ** Paths and the snapshot *)

(** [s.split(sep)] for a one-character separator. *)
Fixpoint split (sep : N) (s : jsstring) : list jsstring :=
  match s with
  | [] => [[]]
  | c :: rest =>
      if c =? sep then [] :: split sep rest
      else match split sep rest with
           | seg :: segs => (c :: seg) :: segs
           | [] => [[c]]
           end
  end.

(** [s.startsWith(p)] *)
Fixpoint startsWith (s p : jsstring) : bool :=
  match p, s with
  | [], _ => true
  | a :: p', b :: s' => (a =? b) && startsWith s' p'
  | _ :: _, [] => false
  end.

Definition slash : N := 47.

(** A path segment: not empty, without [/], and neither [.] nor [..]. *)
Definition valid_segment (seg : jsstring) : bool :=
  match seg with
  | [] => false
  | _ => forallb (fun c => negb (c =? slash)) seg
         && negb (string_eqb seg (js ".")) && negb (string_eqb seg (js ".."))
  end.

(** An absolute normalized path of a file: [/seg1/.../segn] with [n >= 1]. *)
Definition normalized_path (p : jsstring) : bool :=
  match split slash p with
  | [] :: seg :: segs => forallb valid_segment (seg :: segs)
  | _ => false
  end.

(** A snapshot maps paths to byte sequences; as an object of the script it is
    the list of its properties in the order of their creation. *)
Definition Snapshot : Type := list (jsstring * list N).

Definition bytes_value (bs : list N) : JSValue :=
  JArray (List.map (fun b => JNumber (number_of_N b)) bs).

Definition snapshot_value (S : Snapshot) : JSValue :=
  JObject (List.map (fun e => (fst e, bytes_value (snd e))) S).

(** Keys are unique normalized paths and contents are bytes. *)
Definition Snapshot_wf (S : Snapshot) : Prop :=
  List.NoDup (List.map fst S)
  /\ Forall (fun e => normalized_path (fst e) = true
                      /\ Forall (fun b => b < 256) (snd e)) S.

(** ** The script: constants *)

Definition STORAGE_KEY : jsstring := js "sonic1_wasm_save".
Definition IDB_NAME : jsstring := js "sonic1_wasm_saves".
Definition IDB_STORE : jsstring := js "savedata".
Definition IDB_VERSION : N := 2.
Definition SKIP_PATHS : list jsstring := [js "/Data.rsdk"].

(** [SKIP_PATHS.some(p => fullPath === p || fullPath.startsWith(p + '/'))] *)
Definition skipped (fullPath : jsstring) : bool :=
  existsb (fun p => string_eqb fullPath p || startsWith fullPath (p ++ js "/"))
          SKIP_PATHS.

(** ** The script: the codec *)

Definition serialize (files : JSValue) : result jsstring :=
  Base64.btoa (JSON.stringify files).

(** [try { return JSON.parse(atob(str)); } catch (e) { return null; }] *)
Definition deserialize (str : jsstring) : JSValue :=
  match (do text <- Base64.atob str; JSON.parse text) with
  | OK v => v
  | Err _ => JNull
  end.

(** Equality test on numbers, for checks by enumeration. *)
Definition number_eqb (x y : number) : bool :=
  match x, y with
  | NaN, NaN => true
  | Infinity a, Infinity b => Bool.eqb a b
  | Finite m e, Finite m' e' => (m =? m')%Z && (e =? e')%Z
  | _, _ => false
  end.

(** What may follow a number token: the end of the text or a character that
    is not part of a number. *)
Definition ends_number (rest : jsstring) : bool :=
  match rest with
  | [] => true
  | x :: _ => negb (JSON.is_number_char x)
  end.

(** The check, for one byte, that its JSON text is a run of digits which the
    number parser reads back as the byte. *)
Definition byte_text_ok (b : N) : bool :=
  let n := number_of_N b in
  let t := JSON.stringify (JNumber n) in
  match t with
  | c :: _ =>
      forallb is_digit t
      && match JSON.parse_number t with
         | Some n' => number_eqb n' n
         | None => false
         end
  | [] => false
  end.

(** Fuel that suffices to parse the members of a snapshot. *)
Definition members_fuel (S : Snapshot) : nat :=
  list_sum (List.map (fun e => length (snd e) + 4)%nat S).

(** Every code unit of every path is at most U+00FF. *)
Definition latin1_paths (S : Snapshot) : Prop :=
  Forall (fun e => Forall (fun c => c < 256) (fst e)) S.

(** No path of the snapshot is excluded by [SKIP_PATHS]. *)
Definition no_skipped_path (S : Snapshot) : Prop :=
  Forall (fun e => skipped (fst e) = false) S.


(** Snapshots used in the examples. *)
Definition slot1_snapshot : Snapshot := [(js "/SaveData/slot1", [1; 2; 3])].
Definition euro_snapshot : Snapshot := [([47; 8364], [1; 2; 3])].

(** ** The host: [localStorage] and IndexedDB

    [localStorage] is a map from keys to strings; the host may refuse a write
    ([setItem] throws, as when the quota of the origin is used up) or a read
    ([getItem] throws, as when storage is denied).  The IndexedDB of the
    origin is a map from database names
    to databases; a database has a version and named object stores, which map
    keys to the strings put there.  The four globals that may hold the factory
    give access to the same databases.  The ways the host can make an
    operation fail are fields of the host, set by the environment. *)

Record Database : Type := {
  db_version : N;
  db_stores : gmap jsstring (gmap jsstring jsstring)
}.

Record Host : Type := {
  indexedDB : bool;          (* is [global.indexedDB] defined *)
  mozIndexedDB : bool;
  webkitIndexedDB : bool;
  msIndexedDB : bool;
  localStorage : gmap jsstring jsstring;
  databases : gmap jsstring Database;
  open_fault : option Error;          (* [req.onerror] of [open] *)
  transaction_fault : option Error;   (* [db.transaction] throws *)
  commit_fault : option Error;        (* [tx.onerror] *)
  get_fault : option Error;           (* [getReq.onerror] *)
  setItem_fault : jsstring -> jsstring -> option Error;
                                      (* [localStorage.setItem(key, value)] throws *)
  getItem_fault : option Error        (* [localStorage.getItem] throws *)
}.

Definition set_localStorage (h : Host) (ls : gmap jsstring jsstring) : Host :=
  {| indexedDB := indexedDB h; mozIndexedDB := mozIndexedDB h;
     webkitIndexedDB := webkitIndexedDB h; msIndexedDB := msIndexedDB h;
     localStorage := ls; databases := databases h;
     open_fault := open_fault h; transaction_fault := transaction_fault h;
     commit_fault := commit_fault h; get_fault := get_fault h;
     setItem_fault := setItem_fault h; getItem_fault := getItem_fault h |}.

Definition set_databases (h : Host) (dbs : gmap jsstring Database) : Host :=
  {| indexedDB := indexedDB h; mozIndexedDB := mozIndexedDB h;
     webkitIndexedDB := webkitIndexedDB h; msIndexedDB := msIndexedDB h;
     localStorage := localStorage h; databases := dbs;
     open_fault := open_fault h; transaction_fault := transaction_fault h;
     commit_fault := commit_fault h; get_fault := get_fault h;
     setItem_fault := setItem_fault h; getItem_fault := getItem_fault h |}.

(** The environment makes the factory appear or disappear. *)
Definition set_indexedDB (h : Host) (present : bool) : Host :=
  {| indexedDB := present; mozIndexedDB := present;
     webkitIndexedDB := present; msIndexedDB := present;
     localStorage := localStorage h; databases := databases h;
     open_fault := open_fault h; transaction_fault := transaction_fault h;
     commit_fault := commit_fault h; get_fault := get_fault h;
     setItem_fault := setItem_fault h; getItem_fault := getItem_fault h |}.

(** [s.length] *)
Definition js_length (s : jsstring) : N :=
  fold_left (fun n _ => N.succ n) s 0.

Definition has_store (db : Database) (name : jsstring) : bool :=
  match db_stores db !! name with
  | Some _ => true
  | None => false
  end.

Definition empty_database : Database :=
  {| db_version := 0; db_stores := ∅ |}.

(** [idb.open(name, version)] with an optional [onupgradeneeded] handler: the
    result is the error of [req.onerror] or the connection of [req.onsuccess].
    A database that is missing or older is brought to [version], the handler
    running on it first. *)
Definition idb_open (h : Host) (name : jsstring) (version : N)
    (onupgradeneeded : option (Database -> Database)) : Host * result Database :=
  match open_fault h with
  | Some e => (h, Err e)
  | None =>
      let db := match databases h !! name with
                | Some db => db
                | None => empty_database
                end in
      if version <? db_version db then (h, Err VersionError)
      else if db_version db <? version then
        let upgraded := {| db_version := version; db_stores := db_stores db |} in
        let db' := match onupgradeneeded with
                   | Some handler => handler upgraded
                   | None => upgraded
                   end in
        (set_databases h (<[name := db']> (databases h)), OK db')
      else (h, OK db)
  end.

(** [db.createObjectStore(name)] *)
Definition createObjectStore (db : Database) (name : jsstring) : Database :=
  {| db_version := db_version db;
     db_stores := <[name := ∅]> (db_stores db) |}.

(** [store.put(value, key)] in a transaction that commits. *)
Definition put (h : Host) (name store key value : jsstring) : Host :=
  match databases h !! name with
  | Some db =>
      match db_stores db !! store with
      | Some content =>
          set_databases h
            (<[name := {| db_version := db_version db;
                          db_stores := <[store := <[key := value]> content]>
                                         (db_stores db) |}]> (databases h))
      | None => h
      end
  | None => h
  end.

(** ** The script: the two stores *)

(** What the callbacks of a save are called with: [onSuccess()] or
    [onError(e)]. *)
Inductive SaveOutcome : Type :=
  | Saved
  | SaveFailed (e : Error).

(** What the callbacks of a load are called with: [onSuccess(data)], where
    [data] may be [null], or [onError(e)]. *)
Inductive LoadOutcome : Type :=
  | Loaded (data : JSValue)
  | LoadFailed (e : Error).

Definition getIndexedDB (h : Host) : bool :=
  indexedDB h || mozIndexedDB h || webkitIndexedDB h || msIndexedDB h.

Definition too_large : Error :=
  MsgError (js "Save data too large for localStorage (~5MB limit)").

Definition store_not_found : Error := MsgError (js "Object store not found").

(** What [serialize] or [setItem] throws goes to [onError]. *)
Definition saveToLocalStorage (files : JSValue) (h : Host) : Host * SaveOutcome :=
  match serialize files with
  | OK str =>
      if 4 * 1024 * 1024 <? js_length str then (h, SaveFailed too_large)
      else
        match setItem_fault h STORAGE_KEY str with
        | Some e => (h, SaveFailed e)
        | None =>
            (set_localStorage h (<[STORAGE_KEY := str]> (localStorage h)), Saved)
        end
  | Err e => (h, SaveFailed e)
  end.

(** [str ? deserialize(str) : null], for what a store returned. *)
Definition decode_stored (stored : option jsstring) : JSValue :=
  match stored with
  | Some (c :: s) => deserialize (c :: s)
  | Some [] => JNull
  | None => JNull
  end.

(** What [getItem] throws goes to [onError]. *)
Definition loadFromLocalStorage (h : Host) : Host * LoadOutcome :=
  match getItem_fault h with
  | Some e => (h, LoadFailed e)
  | None => (h, Loaded (decode_stored (localStorage h !! STORAGE_KEY)))
  end.

(** The [onupgradeneeded] handler of a save. *)
Definition save_upgrade (db : Database) : Database :=
  if has_store db IDB_STORE then db else createObjectStore db IDB_STORE.

(** [saveToIndexedDB] once the factory is there: from [idb.open] on. *)
Definition saveViaIndexedDB (files : JSValue) (h : Host) : Host * SaveOutcome :=
  match idb_open h IDB_NAME IDB_VERSION (Some save_upgrade) with
  | (h', Err e) => (h', SaveFailed e)
  | (h', OK db) =>
      if negb (has_store db IDB_STORE) then (h', SaveFailed store_not_found)
      else
        match transaction_fault h' with
        | Some e => (h', SaveFailed e)
        | None =>
            match serialize files with
            | Err e => (h', SaveFailed e)
            | OK str =>
                match commit_fault h' with
                | Some e => (h', SaveFailed e)
                | None => (put h' IDB_NAME IDB_STORE STORAGE_KEY str, Saved)
                end
            end
        end
  end.

Definition saveToIndexedDB (files : JSValue) (h : Host) : Host * SaveOutcome :=
  if negb (getIndexedDB h) then saveToLocalStorage files h
  else saveViaIndexedDB files h.

(** [loadFromIndexedDB] once the factory is there. *)
Definition loadViaIndexedDB (h : Host) : Host * LoadOutcome :=
  match idb_open h IDB_NAME IDB_VERSION None with
  | (h', Err e) => (h', LoadFailed e)
  | (h', OK db) =>
      match db_stores db !! IDB_STORE with
      | None => (h', Loaded JNull)
      | Some content =>
          match transaction_fault h' with
          | Some _ => (h', Loaded JNull)
          | None =>
              match get_fault h' with
              | Some e => (h', LoadFailed e)
              | None => (h', Loaded (decode_stored (content !! STORAGE_KEY)))
              end
          end
      end
  end.

Definition loadFromIndexedDB (h : Host) : Host * LoadOutcome :=
  if negb (getIndexedDB h) then loadFromLocalStorage h
  else loadViaIndexedDB h.

(** A host without the factory and with nothing stored. *)
Definition bare_host : Host :=
  {| indexedDB := false; mozIndexedDB := false;
     webkitIndexedDB := false; msIndexedDB := false;
     localStorage := ∅; databases := ∅;
     open_fault := None; transaction_fault := None;
     commit_fault := None; get_fault := None;
     setItem_fault := fun _ _ => None; getItem_fault := None |}.

(** A host that offers IndexedDB and has nothing stored. *)
Definition fresh_host : Host := set_indexedDB bare_host true.

(** A primary store that works: no fault is pending, the database is not
    newer than the script expects, and if it is at the expected version it
    has the object store. *)
Definition healthy_primary (h : Host) : Prop :=
  getIndexedDB h = true
  /\ open_fault h = None /\ transaction_fault h = None
  /\ commit_fault h = None /\ get_fault h = None
  /\ forall db, databases h !! IDB_NAME = Some db ->
       db_version db <= IDB_VERSION
       /\ (db_version db = IDB_VERSION -> has_store db IDB_STORE = true).


(** The error of a store whose quota is used up, and a host without the
    factory whose [localStorage] takes no write. *)
Definition quota_exceeded : Error := HostError (js "QuotaExceededError").

Definition full_host : Host :=
  {| indexedDB := false; mozIndexedDB := false;
     webkitIndexedDB := false; msIndexedDB := false;
     localStorage := ∅; databases := ∅;
     open_fault := None; transaction_fault := None;
     commit_fault := None; get_fault := None;
     setItem_fault := fun _ _ => Some quota_exceeded; getItem_fault := None |}.

(** The read of the record does not fail on the backend the host offers. *)
Definition reads_back (h : Host) : Prop :=
  if getIndexedDB h then get_fault h = None else getItem_fault h = None.

(** ** The filesystem as the collector sees it

    [collectSaveFiles] only reads: it lists directories, stats entries and
    reads files.  What it needs of the [FS] object is an interface; a state
    [fs : St] stands for the file tree at the time of the call.  [read] gives
    the elements [Array.from] finds in what [FS.read] returned.  [fs_height]
    bounds how deep directories nest below a path. *)

Record Stat : Type := { st_mode : N; st_size : N }.

Class FSReader (St : Type) : Type := {
  stream : Type;
  readdir : St -> jsstring -> result (list jsstring);
  stat : St -> jsstring -> result Stat;
  isDir : N -> bool;
  open_read : St -> jsstring -> result stream;
  read : St -> stream -> N -> N -> result (list JSValue);
  close : St -> stream -> result unit;
  fs_height : St -> jsstring -> nat
}.

Section Collector.
Context {St : Type} `{FSReader St}.

(** [path === '/' ? '/' + name : path + '/' + name] *)
Definition child_path (path name : jsstring) : jsstring :=
  if string_eqb path (js "/") then js "/" ++ name
  else path ++ js "/" ++ name.

(** [path = path || '/'] *)
Definition or_root (path : jsstring) : jsstring :=
  match path with
  | [] => js "/"
  | _ => path
  end.

(** The file branch of the inner [try]: open, read, close. *)
Definition read_file (fs : St) (fullPath : jsstring) (st : Stat)
  : result (list JSValue) :=
  do s <- open_read fs fullPath;
  do data <- read fs s (st_size st) 0;
  do _ <- close fs s;
  OK data.

(** The loop over the entries of one directory; [walk_dir] is the recursive
    call.  An exception in the inner [try] skips the entry. *)
Fixpoint walk_entries
    (walk_dir : jsstring -> list (jsstring * JSValue)
                -> option (list (jsstring * JSValue)))
    (fs : St) (path : jsstring) (entries : list jsstring)
    (files : list (jsstring * JSValue))
  : option (list (jsstring * JSValue)) :=
  match entries with
  | [] => Some files
  | name :: rest =>
      if string_eqb name (js ".") || string_eqb name (js "..")
      then walk_entries walk_dir fs path rest files
      else
        let fullPath := child_path path name in
        if skipped fullPath then walk_entries walk_dir fs path rest files
        else
          match stat fs fullPath with
          | Err _ => walk_entries walk_dir fs path rest files
          | OK st =>
              if isDir (st_mode st) then
                match walk_dir fullPath files with
                | Some files' => walk_entries walk_dir fs path rest files'
                | None => None
                end
              else
                match read_file fs fullPath st with
                | OK data =>
                    walk_entries walk_dir fs path rest
                      (obj_set fullPath (JArray data) files)
                | Err _ => walk_entries walk_dir fs path rest files
                end
          end
  end.

(** [walk(node, path)]; [None] is running out of fuel.  A directory that
    cannot be listed is left out. *)
Fixpoint walk (fuel : nat) (fs : St) (path : jsstring)
    (files : list (jsstring * JSValue))
  : option (list (jsstring * JSValue)) :=
  match fuel with
  | O => None
  | S fuel' =>
      match readdir fs (or_root path) with
      | Err _ => Some files
      | OK entries =>
          walk_entries (walk fuel' fs) fs (or_root path) entries files
      end
  end.

(** [collectSaveFiles(FS)]: the properties of the object [files]. *)
Definition collectSaveFiles (fs : St) : option (list (jsstring * JSValue)) :=
  walk (S (fs_height fs (js "/"))) fs (js "/") [].

(** Directories nest to a finite depth: a subdirectory the walk enters is
    lower than its parent.  The entries [.] and [..] and the paths the
    filter excludes are never entered, so nothing is asked of them. *)
Definition reader_wf (fs : St) : Prop :=
  forall path entries name st,
    readdir fs path = OK entries -> In name entries ->
    string_eqb name (js ".") || string_eqb name (js "..") = false ->
    skipped (child_path path name) = false ->
    stat fs (child_path path name) = OK st ->
    isDir (st_mode st) = true ->
    (fs_height fs (child_path path name) < fs_height fs path)%nat.

End Collector.

(** *** A small tree for the examples

    [/SaveData/slot1] holds the bytes 1, 2, 3 and [/Data.rsdk] is the packed
    game data. *)

Inductive DemoFS : Type := demo_fs | empty_save_fs.

Definition demo_readdir (fs : DemoFS) (path : jsstring) : result (list jsstring) :=
  if string_eqb path (js "/") then
    match fs with
    | demo_fs => OK [js "."; js ".."; js "SaveData"; js "Data.rsdk"]
    | empty_save_fs => OK [js "."; js ".."; js "Data.rsdk"]
    end
  else if string_eqb path (js "/SaveData") then
    match fs with
    | demo_fs => OK [js "."; js ".."; js "slot1"]
    | empty_save_fs => Err (ErrnoError 44)
    end
  else Err (ErrnoError 44).

Definition demo_stat (fs : DemoFS) (path : jsstring) : result Stat :=
  if string_eqb path (js "/") then OK {| st_mode := 16895; st_size := 4096 |}
  else if string_eqb path (js "/Data.rsdk")
  then OK {| st_mode := 33206; st_size := 10485760 |}
  else match fs with
       | demo_fs =>
           if string_eqb path (js "/SaveData")
           then OK {| st_mode := 16895; st_size := 4096 |}
           else if string_eqb path (js "/SaveData/slot1")
           then OK {| st_mode := 33206; st_size := 3 |}
           else Err (ErrnoError 44)
       | empty_save_fs => Err (ErrnoError 44)
       end.

Definition demo_read (fs : DemoFS) (path : jsstring) (size position : N)
  : result (list JSValue) :=
  if string_eqb path (js "/SaveData/slot1")
  then OK (List.map (fun b => JNumber (number_of_N b)) [1; 2; 3])
  else Err (ErrnoError 44).

Definition demo_height (fs : DemoFS) (path : jsstring) : nat :=
  if string_eqb path (js "/") then 2
  else if string_eqb path (js "/SaveData") then 1
  else 0.

#[export] Instance demo_reader : FSReader DemoFS := {|
  stream := jsstring;
  readdir := demo_readdir;
  stat := demo_stat;
  isDir := fun mode => N.land mode 61440 =? 16384;
  open_read := fun fs path => do _ <- demo_stat fs path; OK path;
  read := demo_read;
  close := fun _ _ => OK tt;
  fs_height := demo_height
|}.

(** Every key of [files] passed the filter. *)
Definition all_kept (files : list (jsstring * JSValue)) : Prop :=
  Forall (fun e => skipped (fst e) = false) files.

(** ** Conversions of values and [new Uint8Array(v)]

    What [restoreSaveFiles] builds from a property value.  For the arrays of
    bytes of a snapshot the result is the bytes; the other cases follow the
    abstract operations of the language (ToString, ToNumber, ToIndex,
    ToLength, ToUint8) on the values [JSON.parse] can return. *)

(** White space and line terminators, as [String.prototype.trim] and the
    grammar of numeric strings take them. *)
Definition is_str_whitespace (c : N) : bool :=
  (c =? 9) || (c =? 10) || (c =? 11) || (c =? 12) || (c =? 13) || (c =? 32)
  || (c =? 160) || (c =? 5760) || ((8192 <=? c) && (c <=? 8202))
  || (c =? 8232) || (c =? 8233) || (c =? 8239) || (c =? 8287)
  || (c =? 12288) || (c =? 65279).

Fixpoint drop_while (p : N -> bool) (s : jsstring) : jsstring :=
  match s with
  | c :: rest => if p c then drop_while p rest else s
  | [] => []
  end.

Definition trim (s : jsstring) : jsstring :=
  rev (drop_while is_str_whitespace (rev (drop_while is_str_whitespace s))).

(** The value of a run of digits in a radix of at most sixteen, if all of
    them are digits of that radix. *)
Definition N_of_radix_digits (radix : N) (s : jsstring) : option N :=
  fold_left
    (fun acc c =>
       match acc, JSON.hex_value c with
       | Some a, Some d => if d <? radix then Some (radix * a + d) else None
       | _, _ => None
       end) s (Some 0).

(** An unsigned decimal literal of a numeric string: digits with an optional
    fraction and exponent, where one of the two digit runs may be empty. *)
Definition unsigned_decimal (negative : bool) (body : jsstring) : number :=
  let (int, rest) := JSON.span is_digit body in
  let (frac, rest') :=
    match rest with
    | c :: more => if c =? 46 then JSON.span is_digit more else ([], rest)
    | [] => ([], rest)
    end in
  match int, frac with
  | [], [] => NaN
  | _, _ =>
      match JSON.parse_exponent rest' with
      | Some x =>
          let m := Z.of_N (N_of_digits (int ++ frac)) in
          binary64 (if negative then (- m)%Z else m) (x - Z.of_nat (length frac))
      | None => NaN
      end
  end.

(** StringToNumber *)
Definition StringToNumber (s : jsstring) : number :=
  match trim s with
  | [] => Finite 0 0
  | c :: rest =>
      let prefixed (radix : N) (ds : jsstring) : number :=
        match ds with
        | [] => NaN
        | _ => match N_of_radix_digits radix ds with
               | Some n => binary64 (Z.of_N n) 0
               | None => NaN
               end
        end in
      match JSON.strip_prefix (js "0x") (c :: rest),
            JSON.strip_prefix (js "0X") (c :: rest),
            JSON.strip_prefix (js "0o") (c :: rest),
            JSON.strip_prefix (js "0O") (c :: rest),
            JSON.strip_prefix (js "0b") (c :: rest),
            JSON.strip_prefix (js "0B") (c :: rest) with
      | Some ds, _, _, _, _, _ | _, Some ds, _, _, _, _ => prefixed 16 ds
      | _, _, Some ds, _, _, _ | _, _, _, Some ds, _, _ => prefixed 8 ds
      | _, _, _, _, Some ds, _ | _, _, _, _, _, Some ds => prefixed 2 ds
      | None, None, None, None, None, None =>
          let (negative, body) :=
            if c =? 45 then (true, rest)
            else if c =? 43 then (false, rest)
            else (false, c :: rest) in
          if string_eqb body (js "Infinity") then Infinity negative
          else unsigned_decimal negative body
      end
  end.

(** ToString.  An element [null] of an array is joined as the empty string;
    a plain object prints as [[object Object]] unless a property of its own
    hides [toString], in which case the conversion throws. *)
Fixpoint ToString (v : JSValue) : result jsstring :=
  match v with
  | JNull => OK (js "null")
  | JBool true => OK (js "true")
  | JBool false => OK (js "false")
  | JNumber n => OK (Number_toString n)
  | JString s => OK s
  | JArray elems =>
      (fix join (l : list JSValue) : result jsstring :=
         match l with
         | [] => OK []
         | x :: rest =>
             do sx <- match x with
                      | JNull => OK []
                      | _ => ToString x
                      end;
             match rest with
             | [] => OK sx
             | _ => do sr <- join rest; OK (sx ++ 44 :: sr)
             end
         end) elems
  | JObject props =>
      match obj_get (js "toString") props with
      | Some _ => Err TypeError
      | None => OK (js "[object Object]")
      end
  end.

(** ToNumber; [None] is [undefined]. *)
Definition ToNumber (v : option JSValue) : result number :=
  match v with
  | None => OK NaN
  | Some JNull => OK (Finite 0 0)
  | Some (JBool true) => OK (Finite 1 0)
  | Some (JBool false) => OK (Finite 0 0)
  | Some (JNumber n) => OK n
  | Some (JString s) => OK (StringToNumber s)
  | Some (JArray elems) => do s <- ToString (JArray elems); OK (StringToNumber s)
  | Some (JObject props) => do s <- ToString (JObject props); OK (StringToNumber s)
  end.

(** The integer part of a finite number. *)
Definition truncate (m e : Z) : Z :=
  if (0 <=? e)%Z then (m * 10 ^ e)%Z else Z.quot m (10 ^ (- e)).

(** ToUint8 *)
Definition ToUint8 (x : number) : N :=
  match x with
  | Finite m e => Z.to_N (truncate m e mod 256)
  | _ => 0
  end.

Definition max_safe_integer : Z := (2 ^ 53 - 1)%Z.

(** ToIndex *)
Definition ToIndex (x : number) : result N :=
  match x with
  | NaN => OK 0
  | Infinity _ => Err RangeError
  | Finite m e =>
      let i := truncate m e in
      if (i <? 0)%Z || (max_safe_integer <? i)%Z then Err RangeError
      else OK (Z.to_N i)
  end.

(** ToLength *)
Definition ToLength (x : number) : N :=
  match x with
  | NaN => 0
  | Infinity negative => if negative then 0 else Z.to_N max_safe_integer
  | Finite m e => Z.to_N (Z.min (truncate m e) max_safe_integer)
  end.

(** The longest typed array the host allocates; longer ones are refused with
    a RangeError.  Engines differ, this is the limit of 32-bit lengths. *)
Definition typed_array_max_length : N := 4294967295.

Definition allocate (len : N) : result (list N) :=
  if typed_array_max_length <? len then Err RangeError
  else OK (repeat 0 (N.to_nat len)).

Fixpoint to_bytes (vs : list (option JSValue)) : result (list N) :=
  match vs with
  | [] => OK []
  | v :: rest =>
      do x <- ToNumber v;
      do bs <- to_bytes rest;
      OK (ToUint8 x :: bs)
  end.

(** [new Uint8Array(v)]: the elements of the new array.  An array gives its
    elements converted to bytes (an array is never longer than the limit), a
    plain object is read as array-like through its [length], anything else
    is a length. *)
Definition Uint8Array_new (v : option JSValue) : result (list N) :=
  match v with
  | None => OK []
  | Some (JArray elems) => to_bytes (List.map Some elems)
  | Some (JObject props) =>
      do len <- ToNumber (obj_get (js "length") props);
      do _ <- allocate (ToLength len);
      to_bytes (List.map (fun i => obj_get (digits_of_N (N.of_nat i)) props)
                         (seq 0 (N.to_nat (ToLength len))))
  | Some other =>
      do x <- ToNumber (Some other);
      do len <- ToIndex x;
      allocate len
  end.

(** ** The filesystem as the restorer sees it

    [restoreSaveFiles] changes the file tree.  An operation of the [FS]
    object takes the tree and gives the tree it leaves, with its result or
    the exception it threw. *)

Class FSWriter (St : Type) : Type := {
  mkdir : jsstring -> St -> St * result unit;
  analyzePath_exists : jsstring -> St -> bool;
  unlink : jsstring -> St -> St * result unit;
  createDataFile :
    jsstring -> jsstring -> list N -> bool -> bool -> bool -> St -> St * result unit
}.

(** [s.lastIndexOf(c)], [-1] when [c] does not occur. *)
Fixpoint lastIndexOf_from (c : N) (s : jsstring) (i found : Z) : Z :=
  match s with
  | [] => found
  | x :: rest => lastIndexOf_from c rest (i + 1)%Z (if x =? c then i else found)
  end.

Definition lastIndexOf (c : N) (s : jsstring) : Z := lastIndexOf_from c s 0 (-1).

(** [s.substring(a, b)]: the bounds are clamped to the string and swapped
    when they come in the wrong order. *)
Definition substring (s : jsstring) (a b : Z) : jsstring :=
  let len := Z.of_nat (length s) in
  let a' := Z.min (Z.max a 0) len in
  let b' := Z.min (Z.max b 0) len in
  let lo := Z.min a' b' in
  let hi := Z.max a' b' in
  firstn (Z.to_nat (hi - lo)) (skipn (Z.to_nat lo) s).

(** [s.substring(a)] *)
Definition substring_from (s : jsstring) (a : Z) : jsstring :=
  substring s a (Z.of_nat (length s)).

(** [s.split('/').filter(Boolean)] *)
Definition split_nonempty (s : jsstring) : list jsstring :=
  List.filter (fun seg => match seg with [] => false | _ => true end)
              (split slash s).

Section Restorer.
Context {St : Type} `{FSWriter St}.

(** The loop that makes the directories of [parts] one below the other;
    [errno] 20, the directory exists, is not an error. *)
Fixpoint mkdir_chain (parts : list jsstring) (curr : jsstring) (fs : St)
  : St * result unit :=
  match parts with
  | [] => (fs, OK tt)
  | p :: rest =>
      let curr' := curr ++ js "/" ++ p in
      match mkdir curr' fs with
      | (fs', OK _) => mkdir_chain rest curr' fs'
      | (fs', Err (ErrnoError errno)) =>
          if errno =? 20 then mkdir_chain rest curr' fs'
          else (fs', Err (ErrnoError errno))
      | (fs', Err e) => (fs', Err e)
      end
  end.

(** The body of the [try] for one path of [files]. *)
Definition restore_entry (files : JSValue) (path : jsstring) (fs : St)
  : St * result unit :=
  let idx := lastIndexOf slash path in
  let dir := match substring path 0 idx with
             | [] => js "/"
             | d => d
             end in
  let name := substring_from path (idx + 1) in
  match (if string_eqb dir (js "/") then (fs, OK tt)
         else mkdir_chain (split_nonempty dir) [] fs) with
  | (fs1, Err e) => (fs1, Err e)
  | (fs1, OK _) =>
      match Uint8Array_new (get files path) with
      | Err e => (fs1, Err e)
      | OK data =>
          match (if analyzePath_exists path fs1 then unlink path fs1
                 else (fs1, OK tt)) with
          | (fs2, Err e) => (fs2, Err e)
          | (fs2, OK _) => createDataFile dir name data true true true fs2
          end
      end
  end.

(** [restoreSaveFiles(FS, files)]: every path in turn; what one of them
    throws is caught, and the tree it left goes to the next. *)
Definition restoreSaveFiles (files : JSValue) (fs : St) : St :=
  fold_left (fun fs path => fst (restore_entry files path fs))
            (own_keys files) fs.

End Restorer.

(** *** The file tree in memory

    A tree is a map from the segments of an absolute path to a node, a
    directory or a regular file with its mode and its bytes; the root is the
    empty list of segments and is always a directory.  Permissions are not
    enforced, time stamps, links and devices are left out, and the working
    directory is the root.  Of the error numbers only 20, the path exists, is told apart
    by the script. *)

Inductive Node : Type :=
  | Dir (mode : N)
  | File (mode : N) (contents : list N).

Abbreviation MemFS := (gmap (list jsstring) Node).

Definition dir_mode : N := 16895.           (* S_IFDIR | 0o777 *)

(** The segments of a path resolved against the root: empty segments and [.]
    are dropped, [..] drops the segment before it. *)
Definition resolve (path : jsstring) : list jsstring :=
  fold_left
    (fun stack seg =>
       if string_eqb seg (js ".") then stack
       else if string_eqb seg (js "..") then removelast stack
       else stack ++ [seg])
    (split_nonempty path) [].

Definition lookup_node (fs : MemFS) (segs : list jsstring) : option Node :=
  match segs with
  | [] => Some (Dir dir_mode)
  | _ => fs !! segs
  end.

(** Making a node: the path must be free and its parent a directory. *)
Definition mknod (segs : list jsstring) (node : Node) (fs : MemFS)
  : MemFS * result unit :=
  match lookup_node fs segs with
  | Some _ => (fs, Err (ErrnoError 20))
  | None =>
      match lookup_node fs (removelast segs) with
      | Some (Dir _) => (<[segs := node]> fs, OK tt)
      | Some (File _ _) => (fs, Err (ErrnoError 54))
      | None => (fs, Err (ErrnoError 44))
      end
  end.

(** [FS_getMode(canRead, canWrite)] *)
Definition FS_getMode (canRead canWrite : bool) : N :=
  N.lor (if canRead then N.lor 292 73 else 0) (if canWrite then 146 else 0).

Definition mem_mkdir (path : jsstring) (fs : MemFS) : MemFS * result unit :=
  mknod (resolve path) (Dir dir_mode) fs.

Definition mem_exists (path : jsstring) (fs : MemFS) : bool :=
  match lookup_node fs (resolve path) with
  | Some _ => true
  | None => false
  end.

Definition mem_unlink (path : jsstring) (fs : MemFS) : MemFS * result unit :=
  match lookup_node fs (resolve path) with
  | None => (fs, Err (ErrnoError 44))
  | Some (Dir _) => (fs, Err (ErrnoError 31))
  | Some (File _ _) => (delete (resolve path) fs, OK tt)
  end.

(** The file is made with the mode of [FS_getMode] as a regular file, and
    the data written to it. *)
Definition mem_createDataFile (parent name : jsstring) (data : list N)
    (canRead canWrite canOwn : bool) (fs : MemFS) : MemFS * result unit :=
  let path := match name with
              | [] => parent
              | _ => parent ++ js "/" ++ name
              end in
  let mode := N.lor (N.land (FS_getMode canRead canWrite) 4095) 32768 in
  mknod (resolve path) (File mode data) fs.

#[export] Instance mem_writer : FSWriter MemFS := {|
  mkdir := mem_mkdir;
  analyzePath_exists := mem_exists;
  unlink := mem_unlink;
  createDataFile := mem_createDataFile
|}.

(** The mode of a file the restorer makes: a regular file, [rwxrwxrwx]. *)
Definition restored_mode : N := 33279.

(** A tree is well formed when the root is not stored and every node has a
    directory for its parent. *)
Definition MemFS_wf (fs : MemFS) : Prop :=
  forall segs node, fs !! segs = Some node ->
    segs <> []
    /\ exists mode, lookup_node fs (removelast segs) = Some (Dir mode).

(** The path of a list of segments. *)
Definition render (segs : list jsstring) : jsstring :=
  concat (List.map (fun seg => slash :: seg) segs).

(** ** The script: preload, autosave, export and import

    What a flow does to the outside, besides the stores and the file tree,
    is the list of its effects: the callbacks it calls, the alerts it shows
    and the download it starts. *)

Inductive Effect : Type :=
  | CallOnSuccess
  | CallOnError (e : Error)
  | Alert (message : jsstring)
  | Download (filename content : jsstring).

Definition invalid_save_file : Error := MsgError (js "Invalid save file").

(** [Object.keys(files).length] *)
Definition keys_length (files : JSValue) : N := N.of_nat (length (own_keys files)).

Section ReadingFlows.
Context {St : Type} `{FSReader St}.

(** [doSave()]: the outcome is what the callbacks of the save are called
    with, [None] when no save is made.  The function is [None] when the
    traversal does not return. *)
Definition doSave (fs : St) (h : Host) : option (Host * option SaveOutcome) :=
  match collectSaveFiles fs with
  | None => None
  | Some files =>
      if 0 <? keys_length (JObject files) then
        let (h', outcome) := saveToIndexedDB (JObject files) h in
        Some (h', Some outcome)
      else Some (h, None)
  end.

(** [exportSave(FS)]; [now] is [new Date().toISOString()].  An exception of
    [serialize] is not caught here. *)
Definition exportSave (fs : St) (now : jsstring) : option (result (list Effect)) :=
  match collectSaveFiles fs with
  | None => None
  | Some files =>
      if keys_length (JObject files) =? 0 then
        Some (OK [Alert (js "No save data to export.")])
      else
        Some (do content <- serialize (JObject files);
              OK [Download (js "sonic1-save-" ++ firstn 10 now ++ js ".bin") content])
  end.

End ReadingFlows.

Section WritingFlows.
Context {St : Type} `{FSWriter St}.

(** [importSave(FS, file, onSuccess, onError)]: [file] is what the
    FileReader ends with, the text or an error; the two booleans tell which
    callbacks were given. *)
Definition importSave (fs : St) (h : Host) (file : result jsstring)
    (has_onSuccess has_onError : bool) : St * Host * list Effect :=
  let on_error (e : Error) : list Effect :=
    if has_onError then [CallOnError e] else [] in
  match file with
  | Err e => (fs, h, on_error e)
  | OK text =>
      let data := deserialize text in
      if negb (truthy data) || negb (typeof_object data) then
        (fs, h, on_error invalid_save_file)
      else
        let fs' := restoreSaveFiles data fs in
        match saveToIndexedDB data h with
        | (h', Saved) =>
            (fs', h',
             (if has_onSuccess then [CallOnSuccess] else [])
             ++ (if has_onSuccess then []
                 else [Alert (js "Save imported! You may need to restart the game.")]))
        | (h', SaveFailed e) => (fs', h', on_error e)
        end
  end.

(** The [preRun] step: load, and restore what was loaded if it is truthy
    and has keys. *)
Definition preload (fs : St) (h : Host) : St * Host :=
  match loadFromIndexedDB h with
  | (h', Loaded files) =>
      if truthy files && (0 <? keys_length files)
      then (restoreSaveFiles files fs, h')
      else (fs, h')
  | (h', LoadFailed _) => (fs, h')
  end.

End WritingFlows.

(** ** More of the script

    The record a backend holds for the script, and the object the script
    publishes for the buttons of the page. *)

(** The string stored under the key in the object store of the database. *)
Definition idb_record (h : Host) : option jsstring :=
  match databases h !! IDB_NAME with
  | Some db =>
      match db_stores db !! IDB_STORE with
      | Some content => content !! STORAGE_KEY
      | None => None
      end
  | None => None
  end.

(** The string stored under the key in [localStorage]. *)
Definition ls_record (h : Host) : option jsstring :=
  localStorage h !! STORAGE_KEY.

(** The database is at the version the script asks for and has no object
    store [savedata]. *)
Definition storeless_database (h : Host) : Prop :=
  exists db, databases h !! IDB_NAME = Some db
             /\ db_version db = IDB_VERSION
             /\ has_store db IDB_STORE = false.

Definition import_done : jsstring :=
  js "Save imported! Please refresh the page to load your progress.".

Section PublishedObject.
Context {St : Type} `{FSWriter St}.

(** [SonicSaveManager.importSave(file)]: [importSave] with a success callback
    that shows an alert, and without an error callback. *)
Definition SonicSaveManager_importSave (fs : St) (h : Host) (file : result jsstring)
  : St * Host * list Effect :=
  let '(fs', h', effects) := importSave fs h file true false in
  (fs', h',
   flat_map (fun e => match e with
                      | CallOnSuccess => [Alert import_done]
                      | other => [other]
                      end) effects).

End PublishedObject.

(** The members of the object [files] that is the value of a snapshot. *)
Definition snapshot_members (S : Snapshot) : list (jsstring * JSValue) :=
  List.map (fun e => (fst e, bytes_value (snd e))) S.

(** A host whose fallback store holds the Base64 text of [[[1]]]. *)
Definition array_record_host : Host :=
  set_localStorage bare_host (<[STORAGE_KEY := js "W1sxXV0="]> ∅).

(** The text of the object with the single path [/€], written in JSON with
    an escape, and its Base64 form: a file one can import. *)
Definition euro_text : jsstring :=
  js "{" ++ [34] ++ js "/\u20ac" ++ [34] ++ js ":[1,2,3]}".
Definition euro_file : jsstring := Base64.encode euro_text.

Section Reaching.
Context {St : Type} `{FSReader St}.

(** The walk that starts at the directory [dir] comes to the regular file
    [target], which reads as [data]: every directory on the way can be
    listed and entered, no path on the way is filtered out, and the file
    can be opened, read and closed. *)
Inductive reaches (fs : St) : jsstring -> jsstring -> list JSValue -> Prop :=
  | reaches_file dir entries name st data :
      readdir fs (or_root dir) = OK entries -> In name entries ->
      string_eqb name (js ".") || string_eqb name (js "..") = false ->
      skipped (child_path (or_root dir) name) = false ->
      stat fs (child_path (or_root dir) name) = OK st ->
      isDir (st_mode st) = false ->
      read_file fs (child_path (or_root dir) name) st = OK data ->
      reaches fs dir (child_path (or_root dir) name) data
  | reaches_dir dir entries name st target data :
      readdir fs (or_root dir) = OK entries -> In name entries ->
      string_eqb name (js ".") || string_eqb name (js "..") = false ->
      skipped (child_path (or_root dir) name) = false ->
      stat fs (child_path (or_root dir) name) = OK st ->
      isDir (st_mode st) = true ->
      reaches fs (child_path (or_root dir) name) target data ->
      reaches fs dir target data.

End Reaching.

(** The file [target] is among [files], with the array of [data]. *)
Definition has_target (target : jsstring) (data : list JSValue)
    (files : list (jsstring * JSValue)) : Prop :=
  obj_get target files = Some (JArray data).

(** The keys of [files] are distinct and absolute, and the values arrays. *)
Definition tidy_files (files : list (jsstring * JSValue)) : Prop :=
  List.NoDup (List.map fst files)
  /\ Forall (fun e => (exists q, fst e = slash :: q)
                      /\ exists data, snd e = JArray data) files.

(** The snapshot of the single file [/a] holding [n] zero bytes. *)
Definition zero_snapshot (n : nat) : Snapshot := [(js "/a", repeat 0 n)].

(** ** Restoring into the tree in memory, by segments

    For a normalized path the strings [restore_entry] computes are the paths
    of the segments, and what it does to the tree in memory is [restore_at]:
    the directories of the proper prefixes one after the other, then the
    file in place of the one that may be there. *)

(** Every segment of the list is a valid one. *)
Definition valid_segments (segs : list jsstring) : Prop :=
  Forall (fun seg => valid_segment seg = true) segs.

(** The loop of [mkdir] on the prefixes [done ++ [d1]], [done ++ [d1; d2]],
    ... of a path. *)
Fixpoint mkdir_at (done rest : list jsstring) (fs : MemFS) : MemFS * result unit :=
  match rest with
  | [] => (fs, OK tt)
  | d :: rest' =>
      match mknod (done ++ [d]) (Dir dir_mode) fs with
      | (fs', OK _) => mkdir_at (done ++ [d]) rest' fs'
      | (fs', Err (ErrnoError errno)) =>
          if errno =? 20 then mkdir_at (done ++ [d]) rest' fs'
          else (fs', Err (ErrnoError errno))
      | (fs', Err e) => (fs', Err e)
      end
  end.

(** One entry of a snapshot: the file [dirs ++ [name]] with the bytes
    [data]. *)
Definition restore_at (dirs : list jsstring) (name : jsstring) (data : list N)
    (fs : MemFS) : MemFS * result unit :=
  match mkdir_at [] dirs fs with
  | (fs1, Err e) => (fs1, Err e)
  | (fs1, OK _) =>
      match (match lookup_node fs1 (dirs ++ [name]) with
             | Some (File _ _) => (delete (dirs ++ [name]) fs1, OK tt)
             | Some (Dir _) => (fs1, Err (ErrnoError 31))
             | None => (fs1, OK tt)
             end) with
      | (fs2, Err e) => (fs2, Err e)
      | (fs2, OK _) => mknod (dirs ++ [name]) (File restored_mode data) fs2
      end
  end.

(** The join of the pieces [split] gives. *)
Definition join_slash (pieces : list jsstring) : jsstring :=
  match pieces with
  | [] => []
  | piece :: rest => piece ++ render rest
  end.

(** One entry of a snapshot, given by the segments of its path. *)
Definition restore_segs (segs : list jsstring) (data : list N) (fs : MemFS)
  : MemFS * result unit :=
  restore_at (removelast segs) (List.last segs []) data fs.

(** There is a directory, or a regular file, at the segments. *)
Definition dir_at (fs : MemFS) (segs : list jsstring) : Prop :=
  exists mode, lookup_node fs segs = Some (Dir mode).

Definition file_at (fs : MemFS) (segs : list jsstring) : Prop :=
  exists mode data, fs !! segs = Some (File mode data).

(** [q] is a proper prefix of [segs], and not the root. *)
Definition proper_prefix (q segs : list jsstring) : Prop :=
  q <> [] /\ exists r, r <> [] /\ segs = q ++ r.

(** The entries of a snapshot restored one after the other, each given by
    the segments of its path. *)
Definition restore_all (entries : list (list jsstring * list N)) (fs : MemFS)
  : MemFS :=
  fold_left (fun fs e => fst (restore_segs (fst e) (snd e) fs)) entries fs.

(** An entry is settled in a tree when restoring it again changes nothing:
    a regular file stands in its way, or a directory is where it should go,
    or the file is there with the mode and the bytes of the entry. *)
Definition settled (segs : list jsstring) (data : list N) (fs : MemFS) : Prop :=
  (exists q r, segs = q ++ r /\ r <> [] /\ file_at fs q)
  \/ (exists mode, fs !! segs = Some (Dir mode))
  \/ fs !! segs = Some (File restored_mode data).

(** The segments of the paths of a snapshot. *)
Definition snapshot_segments (S : Snapshot) : list (list jsstring * list N) :=
  List.map (fun e => (resolve (fst e), snd e)) S.

(** *** Trees and snapshots of the examples *)

(** A tree with an older save of the first slot, a tree where a regular
    file has the name of the save directory, and a snapshot of two slots. *)
Definition old_save_tree : MemFS :=
  <[[js "SaveData"; js "slot1"] := File 33206 [9]]>
    (<[[js "SaveData"] := Dir dir_mode]> ∅).

Definition blocked_tree : MemFS := <[[js "SaveData"] := File 33206 []]> ∅.

Definition two_slots : Snapshot :=
  [(js "/SaveData/slot1", [1; 2; 3]); (js "/SaveData/slot2", [4])].

(** ** Names outside Latin-1

    A code unit above U+00FF that is no half of a surrogate pair:
    [JSON.stringify] writes it as it is, and [btoa] throws on it. *)
Definition wide_unit (c : N) : Prop :=
  255 < c /\ JSON.is_lead c = false /\ JSON.is_trail c = false.

(** A filesystem whose only file is [/€], three bytes long. *)
Inductive EuroFS : Type := euro_fs.

Definition euro_readdir (fs : EuroFS) (path : jsstring) : result (list jsstring) :=
  if string_eqb path (js "/") then OK [js "."; js ".."; [8364]]
  else Err (ErrnoError 54).

Definition euro_stat (fs : EuroFS) (path : jsstring) : result Stat :=
  if string_eqb path (js "/") then OK {| st_mode := 16895; st_size := 4096 |}
  else if string_eqb path [47; 8364] then OK {| st_mode := 33206; st_size := 3 |}
  else Err (ErrnoError 44).

Definition euro_read (fs : EuroFS) (path : jsstring) (size position : N)
  : result (list JSValue) :=
  if string_eqb path [47; 8364]
  then OK (List.map (fun b => JNumber (number_of_N b)) [1; 2; 3])
  else Err (ErrnoError 44).

#[export] Instance euro_reader : FSReader EuroFS := {|
  stream := jsstring;
  readdir := euro_readdir;
  stat := euro_stat;
  isDir := fun mode => N.land mode 61440 =? 16384;
  open_read := fun fs path => do _ <- euro_stat fs path; OK path;
  read := euro_read;
  close := fun _ _ => OK tt;
  fs_height := fun _ path => if string_eqb path (js "/") then 1%nat else 0%nat
|}.

(** ** The tree in memory as the collector reads it

    Paths are resolved, so [/.] and [/SaveData/..] are the root.  [readdir]
    lists [.] and [..] and then the names in the directory, in the order
    of the map.  What [FS.read] hands to [Array.from] is a parameter of the
    reader. *)

Definition children (fs : MemFS) (dir : list jsstring) : list jsstring :=
  omap (fun kv : list jsstring * Node =>
          match fst kv with
          | [] => None
          | _ => if decide (removelast (fst kv) = dir)
                 then Some (List.last (fst kv) [])
                 else None
          end)
       (map_to_list fs).

(** How far the longest path below [dir] goes. *)
Definition tree_height (fs : MemFS) (dir : list jsstring) : nat :=
  list_max
    (List.map (fun kv : list jsstring * Node =>
                 if decide (dir `prefix_of` fst kv)
                 then (length (fst kv) - length dir)%nat
                 else 0%nat)
              (map_to_list fs)).

Definition mem_readdir (fs : MemFS) (path : jsstring) : result (list jsstring) :=
  match lookup_node fs (resolve path) with
  | Some (Dir _) => OK (js "." :: js ".." :: children fs (resolve path))
  | Some (File _ _) => Err (ErrnoError 54)
  | None => Err (ErrnoError 44)
  end.

Definition mem_stat (fs : MemFS) (path : jsstring) : result Stat :=
  match lookup_node fs (resolve path) with
  | Some (Dir mode) => OK {| st_mode := mode; st_size := 4096 |}
  | Some (File mode contents) =>
      OK {| st_mode := mode; st_size := N.of_nat (length contents) |}
  | None => Err (ErrnoError 44)
  end.

Definition mem_open (fs : MemFS) (path : jsstring) : result (list jsstring) :=
  match lookup_node fs (resolve path) with
  | Some _ => OK (resolve path)
  | None => Err (ErrnoError 44)
  end.

Definition mem_reader
    (rd : MemFS -> list jsstring -> N -> N -> result (list JSValue))
  : FSReader MemFS := {|
  stream := list jsstring;
  readdir := mem_readdir;
  stat := mem_stat;
  isDir := fun mode => N.land mode 61440 =? 16384;
  open_read := mem_open;
  read := rd;
  close := fun _ _ => OK tt;
  fs_height := fun fs path => tree_height fs (resolve path)
|}.

(** A read that gives the bytes of the file, as the script expects. *)
Definition read_bytes (fs : MemFS) (s : list jsstring) (size position : N)
  : result (list JSValue) :=
  match fs !! s with
  | Some (File _ contents) =>
      OK (List.map (fun b => JNumber (number_of_N b)) contents)
  | _ => Err (ErrnoError 8)
  end.

(** Every name in the tree is a valid segment. *)
Definition MemFS_named (fs : MemFS) : Prop :=
  forall segs node, fs !! segs = Some node -> valid_segments segs.

(** The tree of a game that was played: the packed data, which the filter
    excludes, and a save. *)
Definition game_tree : MemFS :=
  <[[js "SaveData"; js "slot1"] := File 33206 [1; 2; 3]]>
    (<[[js "SaveData"] := Dir dir_mode]>
       (<[[js "Data.rsdk"] := File 33206 [82; 83; 68; 75]]> ∅)).
(** * Properties *)

(** ** Base64 *)

Example btoa_abc : Base64.btoa (js "abc") = OK (js "YWJj").
Proof. reflexivity. Qed.
Example btoa_five : Base64.btoa (js "5") = OK (js "NQ==").
Proof. reflexivity. Qed.
Example atob_five : Base64.atob (js "NQ==") = OK (js "5").
Proof. reflexivity. Qed.
Example atob_ws : Base64.atob (js "YW Jj
") = OK (js "abc").
Proof. reflexivity. Qed.
Example atob_bad : Base64.atob (js "a") = Err InvalidCharacterError.
Proof. reflexivity. Qed.
Example atob_text :
  Base64.atob (js "not json") = OK [158; 139; 99; 178; 137].
Proof. reflexivity. Qed.

Section Base64Facts.
Import Base64.

(** Induction on a list three elements at a time. *)
Lemma list_ind3 {A} (P : list A -> Prop) :
  P [] -> (forall a, P [a]) -> (forall a b, P [a; b]) ->
  (forall a b c l, P l -> P (a :: b :: c :: l)) ->
  forall l, P l.
Proof.
  intros H0 H1 H2 H3 l.
  assert (H : P l /\ (forall a, P (a :: l)) /\ (forall a b, P (a :: b :: l))).
  { induction l as [|x l IH]; [auto|].
    destruct IH as (IH0 & IH1 & IH2). auto. }
  apply H.
Qed.

Lemma in_byte_range a : a < 256 -> In a byte_range.
Proof.
  intros H. unfold byte_range. apply in_map_iff.
  exists (N.to_nat a). split; [apply N2Nat.id|].
  apply in_seq. lia.
Qed.

Lemma in_sextet_range a : a < 64 -> In a sextet_range.
Proof.
  intros H. unfold sextet_range. apply in_map_iff.
  exists (N.to_nat a). split; [apply N2Nat.id|].
  apply in_seq. lia.
Qed.

(** A property checked on every byte holds of every byte. *)
Lemma bytes_check (f : N -> bool) :
  forallb f byte_range = true -> forall a, a < 256 -> f a = true.
Proof.
  intros H a Ha. rewrite forallb_forall in H. apply H, in_byte_range, Ha.
Qed.

(** Facts of one byte, checked on the 256 bytes. *)
Ltac byte_fact a Ha :=
  match goal with
  | |- ?l = ?r =>
      let f := eval pattern a in (l =? r) in
      match f with
      | ?g _ => apply N.eqb_eq;
                exact (bytes_check g ltac:(vm_compute; reflexivity) a Ha)
      end
  | |- ?l < ?r =>
      let f := eval pattern a in (l <? r) in
      match f with
      | ?g _ => apply N.ltb_lt;
                exact (bytes_check g ltac:(vm_compute; reflexivity) a Ha)
      end
  end.

Lemma lor_lt_pow2 x y n : x < 2 ^ n -> y < 2 ^ n -> N.lor x y < 2 ^ n.
Proof.
  intros Hx Hy.
  destruct (N.eq_dec x 0) as [-> | Nx]; [now rewrite N.lor_0_l|].
  destruct (N.eq_dec y 0) as [-> | Ny]; [now rewrite N.lor_0_r|].
  assert (Hl : N.lor x y <> 0).
  { intros E. apply N.lor_eq_0_iff in E. tauto. }
  apply N.log2_lt_pow2; [lia|]. rewrite N.log2_lor.
  apply N.log2_lt_pow2 in Hx, Hy; lia.
Qed.

Lemma lor_lt_64 x y : x < 64 -> y < 64 -> N.lor x y < 64.
Proof. apply (lor_lt_pow2 x y 6). Qed.

Lemma value_of_char v : v < 64 -> b64_value (b64_char v) = Some v.
Proof.
  intros H.
  assert (Hc : forallb (fun v => match b64_value (b64_char v) with
                                 | Some w => w =? v | None => false end)
                 sextet_range = true) by (vm_compute; reflexivity).
  rewrite forallb_forall in Hc.
  specialize (Hc v (in_sextet_range v H)).
  destruct (b64_value (b64_char v)); [|discriminate].
  apply N.eqb_eq in Hc. now subst.
Qed.

Lemma char_not_pad v : b64_char v <> pad_char.
Proof.
  unfold b64_char, pad_char.
  repeat (match goal with |- context [if ?c then _ else _] =>
            destruct c eqn:? end);
    rewrite ?N.ltb_lt, ?N.ltb_ge, ?N.eqb_eq, ?N.eqb_neq in *; lia.
Qed.

Lemma char_not_whitespace v : is_ascii_whitespace (b64_char v) = false.
Proof.
  unfold b64_char, is_ascii_whitespace.
  repeat (match goal with |- context [if ?c then _ else _] =>
            destruct c eqn:? end);
    rewrite ?N.ltb_lt, ?N.ltb_ge, ?N.eqb_eq, ?N.eqb_neq in *;
    repeat (apply orb_false_intro); apply N.eqb_neq; lia.
Qed.

Lemma sextets_bound bs :
  Forall (fun b => b < 256) bs -> Forall (fun v => v < 64) (sextets bs).
Proof.
  induction bs as [| a | a b | a b c l IH] using list_ind3; intros H; simpl.
  - constructor.
  - apply Forall_cons_1 in H as [Ha _].
    repeat constructor; byte_fact a Ha.
  - apply Forall_cons_1 in H as [Ha H]. apply Forall_cons_1 in H as [Hb _].
    repeat constructor.
    + byte_fact a Ha.
    + apply lor_lt_64; [byte_fact a Ha | byte_fact b Hb].
    + byte_fact b Hb.
  - apply Forall_cons_1 in H as [Ha H]. apply Forall_cons_1 in H as [Hb H].
    apply Forall_cons_1 in H as [Hc H].
    repeat (constructor; [|]); [| | | |auto].
    + byte_fact a Ha.
    + apply lor_lt_64; [byte_fact a Ha | byte_fact b Hb].
    + apply lor_lt_64; [byte_fact b Hb | byte_fact c Hc].
    + byte_fact c Hc.
Qed.

(** The bits of the first, second and third byte of a group come back. *)
Lemma octet1 a b :
  a < 256 -> b < 256 ->
  N.lor (N.shiftl (N.shiftr a 2) 2)
    (N.shiftr (N.lor (N.shiftl (N.land a 3) 4) (N.shiftr b 4)) 4) = a.
Proof.
  intros Ha Hb. rewrite N.shiftr_lor.
  replace (N.shiftr (N.shiftr b 4) 4) with 0 by (symmetry; byte_fact b Hb).
  rewrite N.lor_0_r. byte_fact a Ha.
Qed.

Lemma octet1_last a :
  a < 256 ->
  N.lor (N.shiftl (N.shiftr a 2) 2) (N.shiftr (N.shiftl (N.land a 3) 4) 4) = a.
Proof. intros Ha. byte_fact a Ha. Qed.

Lemma octet2_high a b :
  a < 256 -> b < 256 ->
  N.land (N.lor (N.shiftl (N.land a 3) 4) (N.shiftr b 4)) 15 = N.shiftr b 4.
Proof.
  intros Ha Hb. rewrite N.land_lor_distr_l.
  replace (N.land (N.shiftl (N.land a 3) 4) 15) with 0 by (symmetry; byte_fact a Ha).
  rewrite N.lor_0_l. byte_fact b Hb.
Qed.

Lemma octet2 a b c :
  a < 256 -> b < 256 -> c < 256 ->
  N.lor (N.shiftl (N.land (N.lor (N.shiftl (N.land a 3) 4) (N.shiftr b 4)) 15) 4)
    (N.shiftr (N.lor (N.shiftl (N.land b 15) 2) (N.shiftr c 6)) 2) = b.
Proof.
  intros Ha Hb Hc. rewrite (octet2_high a b Ha Hb), N.shiftr_lor.
  replace (N.shiftr (N.shiftr c 6) 2) with 0 by (symmetry; byte_fact c Hc).
  rewrite N.lor_0_r. byte_fact b Hb.
Qed.

Lemma octet2_last a b :
  a < 256 -> b < 256 ->
  N.lor (N.shiftl (N.land (N.lor (N.shiftl (N.land a 3) 4) (N.shiftr b 4)) 15) 4)
    (N.shiftr (N.shiftl (N.land b 15) 2) 2) = b.
Proof. intros Ha Hb. rewrite (octet2_high a b Ha Hb). byte_fact b Hb. Qed.

Lemma octet3 b c :
  b < 256 -> c < 256 ->
  N.lor (N.shiftl (N.land (N.lor (N.shiftl (N.land b 15) 2) (N.shiftr c 6)) 3) 6)
    (N.land c 63) = c.
Proof.
  intros Hb Hc. rewrite N.land_lor_distr_l.
  replace (N.land (N.shiftl (N.land b 15) 2) 3) with 0 by (symmetry; byte_fact b Hb).
  rewrite N.lor_0_l. byte_fact c Hc.
Qed.

Lemma octets_sextets bs :
  Forall (fun b => b < 256) bs -> octets (sextets bs) = bs.
Proof.
  induction bs as [| a | a b | a b c l IH] using list_ind3; intros H.
  - reflexivity.
  - apply Forall_cons_1 in H as [Ha _]. cbn [sextets octets].
    now rewrite octet1_last.
  - apply Forall_cons_1 in H as [Ha H]. apply Forall_cons_1 in H as [Hb _].
    cbn [sextets octets]. now rewrite octet1, octet2_last.
  - apply Forall_cons_1 in H as [Ha H]. apply Forall_cons_1 in H as [Hb H].
    apply Forall_cons_1 in H as [Hc H].
    cbn [sextets octets]. now rewrite octet1, octet2, octet3, (IH H).
Qed.

Lemma values_chars vs :
  Forall (fun v => v < 64) vs -> values (List.map b64_char vs) = Some vs.
Proof.
  induction 1 as [|v vs Hv _ IH]; simpl; [reflexivity|].
  now rewrite (value_of_char v Hv), IH.
Qed.

Lemma filter_chars vs :
  List.filter (fun c => negb (is_ascii_whitespace c)) (List.map b64_char vs)
  = List.map b64_char vs.
Proof.
  induction vs as [|v vs IH]; simpl; [reflexivity|].
  now rewrite char_not_whitespace, IH.
Qed.

Lemma filter_pad n :
  List.filter (fun c => negb (is_ascii_whitespace c)) (repeat pad_char n)
  = repeat pad_char n.
Proof. induction n as [|n IH]; simpl; [reflexivity|]. now rewrite IH. Qed.

(** The encoded text is a whole number of four-character groups. *)
Lemma encode_length bs :
  ((length (sextets bs) + padding (length bs)) mod 4 = 0)%nat.
Proof.
  induction bs as [| a | a b | a b c l IH] using list_ind3;
    try reflexivity.
  cbn [sextets length]. unfold padding in *.
  replace (S (S (S (length l)))) with (length l + 1 * 3)%nat by lia.
  rewrite Nat.Div0.mod_add.
  replace (S (S (S (S (length (sextets l))))) + (3 - length l mod 3) mod 3)%nat
    with ((length (sextets l) + (3 - length l mod 3) mod 3) + 1 * 4)%nat by lia.
  now rewrite Nat.Div0.mod_add.
Qed.

Lemma sextets_length_mod bs : (length (sextets bs) mod 4 <> 1)%nat.
Proof.
  induction bs as [| a | a b | a b c l IH] using list_ind3;
    try (cbn; lia).
  cbn [sextets length].
  replace (S (S (S (S (length (sextets l))))))
    with (length (sextets l) + 1 * 4)%nat by lia.
  now rewrite Nat.Div0.mod_add.
Qed.

Lemma sextets_length_pad bs :
  (padding (length bs) = 0 -> length (sextets bs) mod 4 = 0)%nat.
Proof.
  intros H. pose proof (encode_length bs) as E. now rewrite H, Nat.add_0_r in E.
Qed.

Lemma padding_cases n :
  (padding n = 0 \/ padding n = 1 \/ padding n = 2)%nat.
Proof.
  unfold padding. pose proof (Nat.mod_upper_bound (3 - n mod 3) 3). lia.
Qed.

Lemma rev_chars_head vs :
  match rev (List.map b64_char vs) with
  | c :: _ => (c =? pad_char) = false
  | [] => True
  end.
Proof.
  rewrite <- map_rev. destruct (rev vs) as [|v r]; simpl; [exact I|].
  apply N.eqb_neq, char_not_pad.
Qed.

Lemma strip_padding_chars vs n :
  (n <= 2)%nat ->
  strip_padding (List.map b64_char vs ++ repeat pad_char n)
  = List.map b64_char vs.
Proof.
  intros Hn. unfold strip_padding.
  rewrite rev_app_distr, rev_repeat.
  pose proof (rev_chars_head vs) as Hh.
  pose proof (rev_involutive (List.map b64_char vs)) as Hi.
  destruct n as [|[|[|n]]]; [| | |lia]; simpl.
  - rewrite app_nil_r.
    destruct (rev (List.map b64_char vs)) as [|c r]; [reflexivity|].
    now rewrite Hh.
  - destruct (rev (List.map b64_char vs)) as [|c r]; [exact Hi|].
    now rewrite Hh.
  - exact Hi.
Qed.

(** [atob] undoes [encode] on bytes. *)
Lemma atob_encode bs :
  Forall (fun b => b < 256) bs -> atob (encode bs) = OK bs.
Proof.
  intros H. unfold atob, encode.
  rewrite List.filter_app, filter_chars, filter_pad.
  rewrite length_app, length_map, repeat_length, encode_length.
  change (0 =? 0)%nat with true. cbv iota.
  rewrite strip_padding_chars
    by (destruct (padding_cases (length bs)) as [E|[E|E]]; rewrite E; lia).
  rewrite length_map.
  destruct (length (sextets bs) mod 4 =? 1)%nat eqn:E.
  - apply Nat.eqb_eq in E. now apply sextets_length_mod in E.
  - rewrite values_chars by (now apply sextets_bound).
    now rewrite octets_sextets.
Qed.

Lemma forallb_latin1 s :
  forallb (fun c => c <=? 255) s = true <-> Forall (fun c => c < 256) s.
Proof.
  rewrite forallb_forall, List.Forall_forall.
  split; intros H c Hc; specialize (H c Hc).
  - apply N.leb_le in H. lia.
  - apply N.leb_le. lia.
Qed.

(** [atob] undoes [btoa] wherever [btoa] returns. *)
Lemma atob_btoa s t : btoa s = OK t -> atob t = OK s.
Proof.
  unfold btoa. destruct (forallb _ s) eqn:E; [|discriminate].
  intros [= <-]. apply atob_encode. now apply forallb_latin1.
Qed.

Lemma btoa_latin1 s :
  Forall (fun c => c < 256) s -> btoa s = OK (encode s).
Proof. intros H. unfold btoa. apply forallb_latin1 in H. now rewrite H. Qed.

End Base64Facts.

(** ** JSON *)

Example stringify_snapshot :
  JSON.stringify
    (JObject [(js "/a", JArray [JNumber (number_of_N 9); JNumber (number_of_N 200)])])
  = js "{" ++ JSON.quote (js "/a") ++ js ":[9,200]}".
Proof. reflexivity. Qed.

Example parse_snapshot :
  JSON.parse (js "{" ++ JSON.quote (js "/a") ++ js ": [9, 200] } ")
  = OK (JObject [(js "/a", JArray [JNumber (number_of_N 9); JNumber (number_of_N 200)])]).
Proof. reflexivity. Qed.

Example parse_number_5 : JSON.parse (js "5") = OK (JNumber (Finite 5 0)).
Proof. reflexivity. Qed.

Example parse_number_forms :
  JSON.parse (js "[1.50, -2e3, 0, 0.125, 12E+2, 9007199254740993, 1e400, -1e400]")
  = OK (JArray [JNumber (Finite 15 (-1)); JNumber (Finite (-2) 3); JNumber (Finite 0 0);
                JNumber (Finite 125 (-3)); JNumber (Finite 12 2);
                JNumber (Finite 9007199254740992 0);
                JNumber (Infinity false); JNumber (Infinity true)]).
Proof. vm_compute. reflexivity. Qed.

(** A number that was read is written with the fewest digits that read back
    as it, an infinity as [null]. *)
Example stringify_number_forms :
  (do v <- JSON.parse
             (js "[1.50,-2e3,0,0.1,1e-7,0.000001,1e21,123e19,1.2e-7,0.30000000000000004,1e400]");
   OK (JSON.stringify v))
  = OK (js "[1.5,-2000,0,0.1,1e-7,0.000001,1e+21,1.23e+21,1.2e-7,0.30000000000000004,null]").
Proof. vm_compute. reflexivity. Qed.

Example parse_rejects :
  List.map JSON.parse
    [js "not json"; js ""; js "01"; js "1."; js "[1,]"; js "{a:1}"; js "[1] x";
     js "+1"; js "1e"; js ".5"; js "nul"; js "[1"; js "-"]
  = repeat (Err SyntaxError) 13.
Proof. reflexivity. Qed.

Example parse_duplicate_and_index_keys :
  JSON.parse (js "{" ++ JSON.quote (js "b") ++ js ":1," ++ JSON.quote (js "10") ++ js ":2,"
              ++ JSON.quote (js "b") ++ js ":3," ++ JSON.quote (js "2") ++ js ":4}")
  = OK (JObject [(js "2", JNumber (Finite 4 0)); (js "10", JNumber (Finite 2 0));
                 (js "b", JNumber (Finite 3 0))]).
Proof. reflexivity. Qed.

Example quote_escapes :
  JSON.quote [34; 92; 10; 1; 55357; 56832; 55357; 233]
  = [34] ++ [92; 34] ++ [92; 92] ++ js "\n" ++ js "\u0001" ++ [55357; 56832]
    ++ js "\ud83d" ++ [233] ++ [34].
Proof. reflexivity. Qed.

Example parse_escapes :
  JSON.parse (JSON.quote [34; 92; 10; 1; 55357; 56832; 55357; 233; 47])
  = OK (JString [34; 92; 10; 1; 55357; 56832; 55357; 233; 47]).
Proof. reflexivity. Qed.

Section StringFacts.
Import JSON.

Lemma nibble_bound x : N.land x 15 < 16.
Proof.
  change 15 with (N.ones 4). rewrite N.land_ones.
  apply N.mod_lt. discriminate.
Qed.

Lemma hex_value_digit v : v < 16 -> hex_value (hex_digit v) = Some v.
Proof.
  intros H. unfold hex_digit, hex_value.
  destruct (v <? 10) eqn:E; to_prop.
  - replace ((48 <=? 48 + v) && (48 + v <=? 57)) with true
      by (symmetry; apply andb_true_iff; split; apply N.leb_le; lia).
    f_equal. lia.
  - replace ((48 <=? 97 + (v - 10)) && (97 + (v - 10) <=? 57)) with false
      by (symmetry; apply andb_false_iff; right; apply N.leb_gt; lia).
    replace ((97 <=? 97 + (v - 10)) && (97 + (v - 10) <=? 102)) with true
      by (symmetry; apply andb_true_iff; split; apply N.leb_le; lia).
    f_equal. lia.
Qed.

(** The four hexadecimal digits of an escape read back as the code unit. *)
Lemma unicode_escape_value c :
  c < 65536 ->
  match hex_value (hex_digit (N.land (N.shiftr c 12) 15)),
        hex_value (hex_digit (N.land (N.shiftr c 8) 15)),
        hex_value (hex_digit (N.land (N.shiftr c 4) 15)),
        hex_value (hex_digit (N.land c 15)) with
  | Some a, Some b, Some c', Some d => ((a * 16 + b) * 16 + c') * 16 + d = c
  | _, _, _, _ => False
  end.
Proof.
  intros H.
  rewrite !hex_value_digit by apply nibble_bound.
  change 15 with (N.ones 4). rewrite !N.land_ones, !N.shiftr_div_pow2.
  change (2 ^ 12) with 4096. change (2 ^ 8) with 256.
  change (2 ^ 4) with 16.
  pose proof (N.div_mod c 16 ltac:(discriminate)) as E0.
  pose proof (N.div_mod (c / 16) 16 ltac:(discriminate)) as E1.
  pose proof (N.div_mod (c / 16 / 16) 16 ltac:(discriminate)) as E2.
  rewrite !N.Div0.div_div in E1, E2.
  change (16 * 16) with 256 in *. change (256 * 16) with 4096 in *.
  assert (H3 : c / 4096 < 16) by (apply N.Div0.div_lt_upper_bound; lia).
  rewrite (N.mod_small (c / 4096) 16 H3).
  rewrite (N.Div0.div_div c 256 16) in E2. change (256 * 16) with 4096 in E2.
  lia.
Qed.

Lemma parse_unicode_escape c X :
  c < 65536 ->
  parse_chars (unicode_escape c ++ X) = cons_parsed c (parse_chars X).
Proof.
  intros H. pose proof (unicode_escape_value c H) as Hv.
  unfold unicode_escape. cbn [app parse_chars].
  change (92 =? 34) with false. change (92 =? 92) with true.
  change (117 =? 117) with true. cbv iota.
  destruct (hex_value (hex_digit (N.land (N.shiftr c 12) 15))); [|contradiction].
  destruct (hex_value (hex_digit (N.land (N.shiftr c 8) 15))); [|contradiction].
  destruct (hex_value (hex_digit (N.land (N.shiftr c 4) 15))); [|contradiction].
  destruct (hex_value (hex_digit (N.land c 15))); [|contradiction].
  rewrite Hv. reflexivity.
Qed.

Lemma parse_plain_char c X :
  c <> 34 -> c <> 92 -> 32 <= c ->
  parse_chars (c :: X) = cons_parsed c (parse_chars X).
Proof.
  intros H1 H2 H3. cbn [parse_chars].
  apply N.eqb_neq in H1, H2. rewrite H1, H2.
  assert (E : (c <? 32) = false) by (apply N.ltb_ge; lia).
  now rewrite E.
Qed.

Lemma escape_of_None c :
  escape_of c = None -> c <> 34 /\ c <> 92 /\ 32 <= c.
Proof.
  unfold escape_of.
  repeat (match goal with |- context [if ?b then _ else _] =>
            destruct b eqn:? end; try discriminate).
  intros _. to_prop. lia.
Qed.

Lemma parse_escape c esc X :
  escape_of c = Some esc ->
  parse_chars (esc ++ X) = cons_parsed c (parse_chars X).
Proof.
  unfold escape_of.
  repeat (match goal with |- context [if ?b then _ else _] =>
            destruct b eqn:? end);
    try discriminate; intros [= <-]; to_prop; subst; try reflexivity.
  apply parse_unicode_escape. lia.
Qed.

(** A quoted string is read back as it was, whatever its code units. *)
Lemma parse_chars_quote_units s rest :
  parse_chars (quote_units s ++ 34 :: rest) = Some (s, rest).
Proof.
  remember (length s) as n eqn:Hn. revert s Hn.
  induction n as [n IH] using lt_wf_ind. intros s Hn.
  destruct s as [|c s]; [reflexivity|].
  cbn [quote_units]. simpl in Hn.
  destruct (escape_of c) as [esc|] eqn:Ee.
  - rewrite <- app_assoc, (parse_escape c esc _ Ee).
    rewrite (IH (length s)); [reflexivity | lia | reflexivity].
  - apply escape_of_None in Ee as (H1 & H2 & H3).
    destruct (is_lead c) eqn:El.
    + assert (Hc : c < 65536).
      { unfold is_lead in El. apply andb_true_iff in El as [_ El].
        apply N.leb_le in El. lia. }
      destruct s as [|d s'].
      * rewrite parse_unicode_escape by exact Hc. reflexivity.
      * destruct (is_trail d) eqn:Et.
        -- cbn [app]. rewrite parse_plain_char by assumption.
           assert (Hd : 56320 <= d).
           { unfold is_trail in Et. apply andb_true_iff in Et as [Et _].
             now apply N.leb_le in Et. }
           rewrite parse_plain_char by lia.
           simpl in Hn.
           rewrite (IH (length s')); [reflexivity | lia | reflexivity].
        -- rewrite <- app_assoc, parse_unicode_escape by exact Hc.
           rewrite (IH (length (d :: s'))); [reflexivity | lia | reflexivity].
    + destruct (is_trail c) eqn:Et.
      * assert (Hc : c < 65536).
        { unfold is_trail in Et. apply andb_true_iff in Et as [_ Et].
          apply N.leb_le in Et. lia. }
        rewrite <- app_assoc, parse_unicode_escape by exact Hc.
        rewrite (IH (length s)); [reflexivity | lia | reflexivity].
      * cbn [app]. rewrite parse_plain_char by assumption.
        rewrite (IH (length s)); [reflexivity | lia | reflexivity].
Qed.

(** The equations of the parser for one more unit of fuel. *)
Lemma parse_elements_S f s :
  parse_elements (S f) s =
  match parse_value f s with
  | Some (OK (v, r)) =>
      match skip_ws r with
      | c :: r' =>
          if c =? 44 then
            match parse_elements f r' with
            | Some (OK (vs, r'')) => Some (OK (v :: vs, r''))
            | other => other
            end
          else if c =? 93 then Some (OK ([v], r'))
          else syntax_error
      | [] => syntax_error
      end
  | Some (Err e) => Some (Err e)
  | None => None
  end.
Proof. reflexivity. Qed.

Lemma parse_members_S f s :
  parse_members (S f) s =
  match expect 34 (skip_ws s) with
  | Some s1 =>
      match parse_chars s1 with
      | Some (k, s2) =>
          match expect 58 (skip_ws s2) with
          | Some s3 =>
              match parse_value f s3 with
              | Some (OK (v, r)) =>
                  match skip_ws r with
                  | c :: r' =>
                      if c =? 44 then
                        match parse_members f r' with
                        | Some (OK (ms, r'')) => Some (OK ((k, v) :: ms, r''))
                        | other => other
                        end
                      else if c =? 125 then Some (OK ([(k, v)], r'))
                      else syntax_error
                  | [] => syntax_error
                  end
              | Some (Err e) => Some (Err e)
              | None => None
              end
          | None => syntax_error
          end
      | None => syntax_error
      end
  | None => syntax_error
  end.
Proof. reflexivity. Qed.

End StringFacts.

(** ** The fuel of [JSON.parse] always suffices *)

Section ParserFuel.
Import JSON.

Lemma skip_ws_length s : (length (skip_ws s) <= length s)%nat.
Proof.
  induction s as [|c s IH]; simpl; [lia|].
  destruct (is_ws c); simpl; lia.
Qed.

Lemma expect_length c s r : expect c s = Some r -> (length r < length s)%nat.
Proof.
  destruct s as [|x s]; simpl; [discriminate|].
  destruct (x =? c); [|discriminate]. intros [= ->]. lia.
Qed.

Lemma parse_chars_length s : forall t r,
  parse_chars s = Some (t, r) -> (length r < length s)%nat.
Proof.
  remember (length s) as n eqn:Hn. revert s Hn.
  induction n as [n IH] using lt_wf_ind. intros s Hn t r.
  destruct s as [|c s]; [discriminate|]. simpl in Hn. cbn [parse_chars].
  destruct (c =? 34).
  { intros [= _ <-]. simpl. lia. }
  destruct (c =? 92).
  - destruct s as [|x s1]; [discriminate|].
    destruct (x =? 117).
    + destruct s1 as [|h3 [|h2 [|h1 [|h0 s2]]]]; try discriminate.
      destruct (hex_value h3), (hex_value h2), (hex_value h1), (hex_value h0);
        try discriminate.
      destruct (parse_chars s2) as [[t' r']|] eqn:E; [|discriminate].
      intros [= _ <-].
      assert (Hlt : (length s2 < n)%nat) by (subst n; simpl; lia).
      pose proof (IH _ Hlt s2 eq_refl _ _ E). simpl in *. lia.
    + match goal with |- context [match ?u with Some _ => _ | None => _ end] =>
        destruct u end; [|discriminate].
      destruct (parse_chars s1) as [[t' r']|] eqn:E; [|discriminate].
      intros [= _ <-].
      assert (Hlt : (length s1 < n)%nat) by (subst n; simpl; lia).
      pose proof (IH _ Hlt s1 eq_refl _ _ E). simpl in *. lia.
  - destruct (c <? 32); [discriminate|].
    destruct (parse_chars s) as [[t' r']|] eqn:E; [|discriminate].
    intros [= _ <-].
    assert (Hlt : (length s < n)%nat) by (subst n; simpl; lia).
    pose proof (IH _ Hlt s eq_refl _ _ E). simpl in *. lia.
Qed.

Lemma span_length p s : (length (snd (span p s)) <= length s)%nat.
Proof.
  induction s as [|c s IH]; simpl; [lia|].
  destruct (p c); [|simpl; lia].
  destruct (span p s); simpl in *; lia.
Qed.

Lemma strip_prefix_length p s r :
  strip_prefix p s = Some r -> (length r <= length s)%nat.
Proof.
  revert s. induction p as [|a p IH]; intros s; simpl.
  - intros [= ->]. lia.
  - destruct s as [|b s]; [discriminate|].
    destruct (a =? b); [|discriminate].
    intros H. apply IH in H. simpl. lia.
Qed.

Lemma parser_consumes fuel :
  (forall s, (2 * length s + 2 <= fuel)%nat -> consumes s (parse_value fuel s))
  /\ (forall s, (2 * length s + 3 <= fuel)%nat -> consumes s (parse_elements fuel s))
  /\ (forall s, (2 * length s + 3 <= fuel)%nat -> consumes s (parse_members fuel s)).
Proof.
  induction fuel as [|f (IHv & IHe & IHm)].
  { repeat split; intros s H; lia. }
  repeat split; intros s Hf.
  - (* a value *)
    cbn [parse_value].
    pose proof (skip_ws_length s) as Hw.
    destruct (skip_ws s) as [|c rest] eqn:Es; [exact I|].
    simpl in Hw.
    destruct (c =? 123).
    { pose proof (skip_ws_length rest) as Hw'.
      destruct (expect 125 (skip_ws rest)) as [r|] eqn:Ex.
      - apply expect_length in Ex. simpl. lia.
      - specialize (IHm rest ltac:(lia)).
        destruct (parse_members f rest) as [[[ms r]|e]|]; simpl in *; lia || exact I. }
    destruct (c =? 91).
    { pose proof (skip_ws_length rest) as Hw'.
      destruct (expect 93 (skip_ws rest)) as [r|] eqn:Ex.
      - apply expect_length in Ex. simpl. lia.
      - specialize (IHe rest ltac:(lia)).
        destruct (parse_elements f rest) as [[[ms r]|e]|]; simpl in *; lia || exact I. }
    destruct (c =? 34).
    { destruct (parse_chars rest) as [[t r]|] eqn:Ec; [|exact I].
      apply parse_chars_length in Ec. simpl. lia. }
    destruct ((c =? 45) || is_digit c) eqn:En.
    { assert (Hc : is_number_char c = true).
      { unfold is_number_char. apply orb_true_iff in En as [En|En]; rewrite En;
          rewrite ?orb_true_r; reflexivity. }
      cbn [span]. rewrite Hc.
      pose proof (span_length is_number_char rest) as Hs.
      destruct (span is_number_char rest) as [a b]. simpl in Hs.
      destruct (parse_number (c :: a)); [|exact I]. simpl. lia. }
    destruct (strip_prefix (js "true") (c :: rest)) as [r|] eqn:E1.
    { change (js "true") with (116 :: js "rue") in E1. cbn [strip_prefix] in E1.
      destruct (116 =? c); [|discriminate].
      apply strip_prefix_length in E1. simpl. lia. }
    destruct (strip_prefix (js "false") (c :: rest)) as [r|] eqn:E2.
    { change (js "false") with (102 :: js "alse") in E2. cbn [strip_prefix] in E2.
      destruct (102 =? c); [|discriminate].
      apply strip_prefix_length in E2. simpl. lia. }
    destruct (strip_prefix (js "null") (c :: rest)) as [r|] eqn:E3; [|exact I].
    change (js "null") with (110 :: js "ull") in E3. cbn [strip_prefix] in E3.
    destruct (110 =? c); [|discriminate].
    apply strip_prefix_length in E3. simpl. lia.
  - (* the elements of an array *)
    rewrite parse_elements_S.
    specialize (IHv s ltac:(lia)).
    destruct (parse_value f s) as [[[v r]|e]|]; simpl in IHv; [|exact I|contradiction].
    pose proof (skip_ws_length r) as Hw.
    destruct (skip_ws r) as [|c r']; [exact I|]. simpl in Hw.
    destruct (c =? 44).
    + specialize (IHe r' ltac:(lia)).
      destruct (parse_elements f r') as [[[vs r'']|e]|]; simpl in *; lia || exact I.
    + destruct (c =? 93); [simpl; lia | exact I].
  - (* the members of an object *)
    rewrite parse_members_S.
    pose proof (skip_ws_length s) as Hw.
    destruct (expect 34 (skip_ws s)) as [s1|] eqn:E1; [|exact I].
    apply expect_length in E1.
    destruct (parse_chars s1) as [[k s2]|] eqn:E2; [|exact I].
    apply parse_chars_length in E2.
    pose proof (skip_ws_length s2) as Hw2.
    destruct (expect 58 (skip_ws s2)) as [s3|] eqn:E3; [|exact I].
    apply expect_length in E3.
    specialize (IHv s3 ltac:(lia)).
    destruct (parse_value f s3) as [[[v r]|e]|]; simpl in IHv; [|exact I|contradiction].
    pose proof (skip_ws_length r) as Hw3.
    destruct (skip_ws r) as [|c r']; [exact I|]. simpl in Hw3.
    destruct (c =? 44).
    + specialize (IHm r' ltac:(lia)).
      destruct (parse_members f r') as [[[ms r'']|e]|]; simpl in *; lia || exact I.
    + destruct (c =? 125); [simpl; lia | exact I].
Qed.

(** [JSON.parse] never answers for lack of fuel. *)
Lemma parse_fuel_suffices text : parse_value (parse_fuel text) text <> None.
Proof.
  pose proof (proj1 (parser_consumes (parse_fuel text)) text) as H.
  unfold parse_fuel in *. specialize (H ltac:(lia)).
  destruct (parse_value _ text); [discriminate | contradiction].
Qed.

End ParserFuel.

(** ** The codec *)

Section CodecFacts.
Import JSON.

Lemma string_eqb_eq a b : string_eqb a b = true <-> a = b.
Proof. unfold string_eqb. destruct (decide (a = b)); split; congruence. Qed.

Lemma string_eqb_refl a : string_eqb a a = true.
Proof. now apply string_eqb_eq. Qed.

Lemma string_eqb_neq a b : string_eqb a b = false <-> a <> b.
Proof. unfold string_eqb. destruct (decide (a = b)); split; congruence. Qed.

Lemma number_eqb_eq x y : number_eqb x y = true -> x = y.
Proof.
  destruct x as [|a|m e], y as [|b|m' e']; simpl; try discriminate; intros H.
  - reflexivity.
  - apply Bool.eqb_prop in H. now subst.
  - apply andb_true_iff in H as [H1 H2].
    apply Z.eqb_eq in H1, H2. now subst.
Qed.

Lemma byte_text b :
  b < 256 ->
  exists c t, stringify (JNumber (number_of_N b)) = c :: t
              /\ forallb is_digit (c :: t) = true
              /\ parse_number (c :: t) = Some (number_of_N b).
Proof.
  intros Hb.
  assert (Hc : forallb byte_text_ok Base64.byte_range = true)
    by (vm_compute; reflexivity).
  rewrite forallb_forall in Hc.
  specialize (Hc b (in_byte_range b Hb)). unfold byte_text_ok in Hc.
  destruct (stringify (JNumber (number_of_N b))) as [|c t]; [discriminate|].
  apply andb_true_iff in Hc as [H1 H2].
  exists c, t. split; [reflexivity|]. split; [exact H1|].
  destruct (parse_number (c :: t)) as [n'|]; [|discriminate].
  now apply number_eqb_eq in H2 as ->.
Qed.

Lemma span_digits t rest :
  forallb is_digit t = true -> ends_number rest = true ->
  span is_number_char (t ++ rest) = (t, rest).
Proof.
  intros Ht Hr. induction t as [|c t IH]; simpl.
  - destruct rest as [|x r]; [reflexivity|]. simpl in *.
    apply negb_true_iff in Hr. now rewrite Hr.
  - simpl in Ht. apply andb_true_iff in Ht as [Hc Ht].
    unfold is_number_char at 1. rewrite Hc. simpl.
    now rewrite (IH Ht).
Qed.

Lemma skip_ws_other c s : is_ws c = false -> skip_ws (c :: s) = c :: s.
Proof. intros H. simpl. now rewrite H. Qed.

(** A byte is read back, whatever the fuel. *)
Lemma parse_value_byte f b rest :
  b < 256 -> ends_number rest = true -> (1 <= f)%nat ->
  parse_value f (stringify (JNumber (number_of_N b)) ++ rest)
  = Some (OK (JNumber (number_of_N b), rest)).
Proof.
  intros Hb Hr Hf. destruct f as [|f]; [lia|].
  destruct (byte_text b Hb) as (c & t & Et & Hd & Hp).
  rewrite Et. cbn [parse_value]. rewrite <- app_comm_cons.
  assert (Hc : is_digit c = true) by (simpl in Hd; now apply andb_true_iff in Hd).
  assert (Hc' := Hc). unfold is_digit in Hc'. to_prop.
  rewrite skip_ws_other
    by (unfold is_ws; repeat (apply orb_false_intro); apply N.eqb_neq; lia).
  replace (c =? 123) with false by (symmetry; apply N.eqb_neq; lia).
  replace (c =? 91) with false by (symmetry; apply N.eqb_neq; lia).
  replace (c =? 34) with false by (symmetry; apply N.eqb_neq; lia).
  rewrite Hc, orb_true_r.
  rewrite app_comm_cons, (span_digits _ _ Hd Hr), Hp. reflexivity.
Qed.

Lemma join_comma_cons x y l :
  join_comma (x :: y :: l) = x ++ 44 :: join_comma (y :: l).
Proof. reflexivity. Qed.

Lemma ends_number_delim c r :
  c = 44 \/ c = 93 -> ends_number (c :: r) = true.
Proof. intros [-> | ->]; reflexivity. Qed.

Abbreviation byte_json := (fun b : N => stringify (JNumber (number_of_N b))).
Abbreviation byte_number := (fun b : N => JNumber (number_of_N b)).

Lemma parse_elements_bytes bs : forall b fuel rest,
  Forall (fun b => b < 256) (b :: bs) ->
  (length bs + 2 <= fuel)%nat ->
  parse_elements fuel (join_comma (List.map byte_json (b :: bs)) ++ 93 :: rest)
  = Some (OK (List.map byte_number (b :: bs), rest)).
Proof.
  induction bs as [|b' bs IH]; intros b fuel rest Hb Hf;
    (destruct fuel as [|f]; [simpl in Hf; lia|]);
    simpl in Hf; apply Forall_cons_1 in Hb as [Hb Hbs];
    rewrite parse_elements_S.
  - cbn [List.map join_comma].
    rewrite parse_value_byte by (auto using ends_number_delim; lia).
    reflexivity.
  - change (List.map byte_json (b :: b' :: bs))
      with (stringify (JNumber (number_of_N b)) :: List.map byte_json (b' :: bs)).
    change (List.map byte_json (b' :: bs))
      with (stringify (JNumber (number_of_N b')) :: List.map byte_json bs).
    rewrite join_comma_cons.
    change (stringify (JNumber (number_of_N b')) :: List.map byte_json bs)
      with (List.map byte_json (b' :: bs)).
    rewrite <- app_assoc, <- app_comm_cons.
    rewrite parse_value_byte by (auto using ends_number_delim; lia).
    rewrite skip_ws_other by reflexivity.
    change (44 =? 44) with true. cbv iota.
    rewrite IH by (auto; lia). reflexivity.
Qed.

(** An array of bytes is read back. *)
Lemma parse_value_bytes bs fuel rest :
  Forall (fun b => b < 256) bs ->
  (length bs + 3 <= fuel)%nat ->
  parse_value fuel (stringify (bytes_value bs) ++ rest)
  = Some (OK (bytes_value bs, rest)).
Proof.
  intros Hb Hf. destruct fuel as [|f]; [lia|].
  unfold bytes_value. cbn [stringify]. rewrite map_map.
  cbn [parse_value app]. rewrite skip_ws_other by reflexivity.
  change (91 =? 123) with false. change (91 =? 91) with true. cbv iota.
  destruct bs as [|b bs].
  - reflexivity.
  - rewrite <- app_assoc. cbn [app].
    assert (He : expect 93
              (skip_ws (join_comma (List.map byte_json (b :: bs)) ++ 93 :: rest))
            = None).
    { pose proof Hb as Hb'. apply Forall_cons_1 in Hb' as [Hb' _].
      destruct (byte_text b Hb') as (c & t & Et & Hd & _).
      assert (Hc : is_digit c = true)
        by (simpl in Hd; now apply andb_true_iff in Hd).
      unfold is_digit in Hc. to_prop.
      assert (Ej : exists u, join_comma (List.map byte_json (b :: bs)) = c :: u).
      { destruct bs as [|b' bs].
        - cbn [List.map join_comma]. rewrite Et. eauto.
        - change (List.map byte_json (b :: b' :: bs))
            with (stringify (JNumber (number_of_N b))
                  :: stringify (JNumber (number_of_N b')) :: List.map byte_json bs).
          rewrite join_comma_cons, Et.
          rewrite <- app_comm_cons. eauto. }
      destruct Ej as (u & ->). rewrite <- app_comm_cons.
      rewrite skip_ws_other
        by (unfold is_ws; repeat (apply orb_false_intro); apply N.eqb_neq; lia).
      unfold expect.
      replace (c =? 93) with false by (symmetry; apply N.eqb_neq; lia).
      reflexivity. }
    rewrite He.
    rewrite parse_elements_bytes by (auto; simpl in Hf; simpl; lia).
    reflexivity.
Qed.

Abbreviation member_json :=
  (fun e : jsstring * list N => quote (fst e) ++ 58 :: stringify (bytes_value (snd e))).
Abbreviation member_value :=
  (fun e : jsstring * list N => (fst e, bytes_value (snd e))).

Lemma parse_members_snapshot S : forall e fuel rest,
  Forall (fun e => Forall (fun b => b < 256) (snd e)) (e :: S) ->
  (members_fuel (e :: S) <= fuel)%nat ->
  parse_members fuel (join_comma (List.map member_json (e :: S)) ++ 125 :: rest)
  = Some (OK (List.map member_value (e :: S), rest)).
Proof.
  induction S as [|e' S IH]; intros [k bs] fuel rest Hb Hf;
    unfold members_fuel in Hf; simpl in Hf;
    (destruct fuel as [|f]; [lia|]);
    apply Forall_cons_1 in Hb as [Hb Hbs]; cbn [snd] in Hb;
    rewrite parse_members_S.
  - cbn [List.map join_comma fst snd]. unfold quote.
    rewrite <- !app_comm_cons, <- !app_assoc.
    rewrite skip_ws_other by reflexivity. cbn [expect].
    change (34 =? 34) with true. cbv iota.
    cbn [app]. rewrite parse_chars_quote_units.
    rewrite skip_ws_other by reflexivity. cbn [expect].
    change (58 =? 58) with true. cbv iota.
    rewrite parse_value_bytes by (auto; lia).
    rewrite skip_ws_other by reflexivity.
    reflexivity.
  - change (List.map member_json ((k, bs) :: e' :: S))
      with ((quote k ++ 58 :: stringify (bytes_value bs))
            :: member_json e' :: List.map member_json S).
    rewrite join_comma_cons.
    change (member_json e' :: List.map member_json S)
      with (List.map member_json (e' :: S)).
    unfold quote at 1.
    rewrite <- !app_comm_cons, <- !app_assoc.
    rewrite skip_ws_other by reflexivity. cbn [expect].
    change (34 =? 34) with true. cbv iota.
    cbn [app]. rewrite parse_chars_quote_units.
    rewrite skip_ws_other by reflexivity. cbn [expect].
    change (58 =? 58) with true. cbv iota.
    rewrite parse_value_bytes by (auto; lia).
    rewrite skip_ws_other by reflexivity.
    change (44 =? 44) with true. cbv iota.
    change ((quote (fst e') ++ 58 :: stringify (bytes_value (snd e')))
            :: List.map member_json S)
      with (List.map member_json (e' :: S)).
    rewrite IH; [reflexivity | exact Hbs |].
    unfold members_fuel. simpl. lia.
Qed.

(** *** Objects whose keys are not array indices *)

Lemma obj_get_None k props :
  ~ In k (List.map fst props) -> obj_get k props = None.
Proof.
  induction props as [|[k' v] props IH]; simpl; intros H; [reflexivity|].
  destruct (string_eqb k k') eqn:E.
  - apply string_eqb_eq in E. subst. tauto.
  - apply IH. tauto.
Qed.

Lemma fold_obj_set ms : forall acc,
  List.NoDup (List.map fst (acc ++ ms)) ->
  Forall (fun p => array_index (fst p) = None) ms ->
  fold_left (fun o p => obj_set (fst p) (snd p) o) ms acc = acc ++ ms.
Proof.
  induction ms as [|[k v] ms IH]; intros acc Hnd Hk; simpl.
  - now rewrite app_nil_r.
  - apply Forall_cons_1 in Hk as [Hk Hks]. simpl in Hk.
    assert (Hn : ~ In k (List.map fst acc)).
    { rewrite List.map_app in Hnd. simpl in Hnd.
      apply NoDup_remove_2 in Hnd. rewrite in_app_iff in Hnd. tauto. }
    unfold obj_set at 2. rewrite (obj_get_None _ _ Hn), Hk.
    rewrite IH.
    + now rewrite <- app_assoc.
    + now rewrite <- app_assoc.
    + exact Hks.
Qed.

Lemma build_object_members ms :
  List.NoDup (List.map fst ms) ->
  Forall (fun p => array_index (fst p) = None) ms ->
  build_object ms = JObject ms.
Proof.
  intros Hnd Hk. unfold build_object.
  now rewrite (fold_obj_set ms [] Hnd Hk).
Qed.

Lemma split_head sep p segs :
  split sep p = [] :: segs -> segs <> [] -> exists q, p = sep :: q.
Proof.
  destruct p as [|c p]; simpl.
  - intros [= <-]. congruence.
  - destruct (c =? sep) eqn:E.
    + apply N.eqb_eq in E. subst. eauto.
    + destruct (split sep p); discriminate.
Qed.

Lemma normalized_path_slash p :
  normalized_path p = true -> exists q, p = slash :: q.
Proof.
  unfold normalized_path.
  destruct (split slash p) as [|[|? ?] [|seg segs]] eqn:E; try discriminate.
  intros _. apply (split_head _ _ _ E). discriminate.
Qed.

Lemma normalized_path_not_index p :
  normalized_path p = true -> array_index p = None.
Proof.
  intros H. apply normalized_path_slash in H as (q & ->). reflexivity.
Qed.

(** *** The text of a snapshot and the fuel of the parser *)

Lemma join_comma_length parts :
  (list_sum (List.map (@length N) parts) <= length (join_comma parts))%nat.
Proof.
  induction parts as [|p parts IH]; [simpl; lia|].
  destruct parts as [|q parts]; [simpl; lia|].
  rewrite join_comma_cons, length_app.
  change (list_sum (List.map (@length N) (p :: q :: parts)))
    with (length p + list_sum (List.map (@length N) (q :: parts)))%nat.
  change (length (44 :: join_comma (q :: parts)))
    with (S (length (join_comma (q :: parts)))).
  lia.
Qed.

Lemma bytes_json_length bs :
  Forall (fun b => b < 256) bs ->
  (length bs + 2 <= length (stringify (bytes_value bs)))%nat.
Proof.
  intros Hb. unfold bytes_value. cbn [stringify]. rewrite map_map.
  cbn [length]. rewrite length_app. cbn [length].
  pose proof (join_comma_length (List.map byte_json bs)) as Hj.
  assert (Hs : (length bs <= list_sum (List.map (@length N) (List.map byte_json bs)))%nat).
  { clear Hj. induction Hb as [|b bs Hb _ IH]; [simpl; lia|].
    destruct (byte_text b Hb) as (c & t & Et & _).
    cbn [List.map]. rewrite Et.
    change (list_sum (?x :: ?l)) with (x + list_sum l)%nat.
    cbn [length]. lia. }
  lia.
Qed.

Lemma snapshot_json_length S :
  Forall (fun e => Forall (fun b => b < 256) (snd e)) S ->
  (members_fuel S <= length (join_comma (List.map member_json S)))%nat.
Proof.
  intros Hb.
  pose proof (join_comma_length (List.map member_json S)) as Hj.
  assert (Hs : (members_fuel S
                <= list_sum (List.map (@length N) (List.map member_json S)))%nat).
  { clear Hj. unfold members_fuel.
    induction Hb as [|[k bs] S Hb _ IH]; [simpl; lia|].
    cbn [List.map fst snd].
    change (list_sum (?x :: ?l)) with (x + list_sum l)%nat.
    pose proof (bytes_json_length bs Hb) as Hl.
    assert (Hq : (2 <= length (quote k))%nat)
      by (unfold quote; cbn [length]; rewrite length_app; simpl; lia).
    rewrite length_app. cbn [length]. lia. }
  lia.
Qed.

(** [JSON.parse] undoes [JSON.stringify] on the value of a snapshot. *)
Lemma parse_stringify_snapshot S :
  Snapshot_wf S ->
  parse (stringify (snapshot_value S)) = OK (snapshot_value S).
Proof.
  intros [Hnd Hwf].
  assert (Hb : Forall (fun e => Forall (fun b => b < 256) (snd e)) S).
  { eapply List.Forall_impl; [|exact Hwf]. intros e He. apply He. }
  assert (Hk : Forall (fun p : jsstring * JSValue => array_index (fst p) = None)
                 (List.map member_value S)).
  { apply List.Forall_map. eapply List.Forall_impl; [|exact Hwf].
    intros e [He _]. now apply normalized_path_not_index. }
  unfold parse, parse_fuel, snapshot_value.
  set (text := stringify (JObject (List.map member_value S))).
  assert (Et : text = 123 :: join_comma (List.map member_json S) ++ [125]).
  { unfold text. cbn [stringify]. now rewrite map_map. }
  assert (Hlen : (members_fuel S + 2 <= length text)%nat).
  { rewrite Et. cbn [length]. rewrite length_app. cbn [length].
    pose proof (snapshot_json_length S Hb). lia. }
  replace (2 * length text + 3)%nat with (Datatypes.S (2 * length text + 2))%nat by lia.
  rewrite Et at 2. cbn [parse_value].
  rewrite skip_ws_other by reflexivity.
  change (123 =? 123) with true. cbv iota.
  destruct S as [|e S].
  - reflexivity.
  - assert (He : expect 125
              (skip_ws (join_comma (List.map member_json (e :: S)) ++ [125])) = None).
    { assert (Ej : exists u, join_comma (List.map member_json (e :: S)) = 34 :: u).
      { destruct S as [|e' S].
        - cbn [List.map join_comma]. unfold quote. rewrite <- app_comm_cons. eauto.
        - change (List.map member_json (e :: e' :: S))
            with (member_json e :: member_json e' :: List.map member_json S).
          rewrite join_comma_cons. unfold quote at 1.
          cbv beta. rewrite <- !app_comm_cons. eauto. }
      destruct Ej as (u & ->). reflexivity. }
    rewrite He.
    rewrite parse_members_snapshot by (auto; lia).
    rewrite build_object_members; [reflexivity| |exact Hk].
    rewrite map_map. exact Hnd.
Qed.

(** *** Latin-1 texts *)

Lemma escape_latin1 c esc :
  c < 256 -> escape_of c = Some esc -> Forall (fun x => x < 256) esc.
Proof.
  intros Hc He.
  assert (H : forallb (fun c => match escape_of c with
                                | Some esc => forallb (fun x => x <=? 255) esc
                                | None => true
                                end) Base64.byte_range = true)
    by (vm_compute; reflexivity).
  rewrite forallb_forall in H. specialize (H c (in_byte_range c Hc)).
  rewrite He in H. now apply forallb_latin1.
Qed.

Lemma quote_units_latin1 s :
  Forall (fun c => c < 256) s -> Forall (fun c => c < 256) (quote_units s).
Proof.
  induction 1 as [|c s Hc _ IH]; cbn [quote_units]; [constructor|].
  destruct (escape_of c) as [esc|] eqn:Ee.
  - apply List.Forall_app. split; [|exact IH]. now apply (escape_latin1 c).
  - assert (El : is_lead c = false).
    { unfold is_lead. apply andb_false_iff. left. apply N.leb_gt. lia. }
    assert (Et : is_trail c = false).
    { unfold is_trail. apply andb_false_iff. left. apply N.leb_gt. lia. }
    rewrite El, Et. now constructor.
Qed.

Lemma join_comma_latin1 parts :
  Forall (Forall (fun c => c < 256)) parts ->
  Forall (fun c => c < 256) (join_comma parts).
Proof.
  induction parts as [|p parts IH]; intros H; [constructor|].
  apply Forall_cons_1 in H as [Hp H].
  destruct parts as [|q parts]; [exact Hp|].
  rewrite join_comma_cons.
  apply List.Forall_app. split; [exact Hp|].
  constructor; [lia|]. now apply IH.
Qed.

Lemma byte_json_latin1 b :
  b < 256 -> Forall (fun c => c < 256) (stringify (JNumber (number_of_N b))).
Proof.
  intros Hb. destruct (byte_text b Hb) as (c & t & -> & Hd & _).
  rewrite forallb_forall in Hd. apply List.Forall_forall. intros x Hx.
  specialize (Hd x Hx). unfold is_digit in Hd. to_prop. lia.
Qed.

Lemma snapshot_json_latin1 S :
  Snapshot_wf S -> latin1_paths S ->
  Forall (fun c => c < 256) (stringify (snapshot_value S)).
Proof.
  intros [_ Hwf] Hl. unfold snapshot_value. cbn [stringify]. rewrite map_map.
  constructor; [lia|]. apply List.Forall_app. split; [|repeat constructor; lia].
  apply join_comma_latin1, List.Forall_map.
  unfold latin1_paths in Hl. rewrite List.Forall_forall in *.
  intros [k bs] He. specialize (Hwf _ He) as [_ Hb]. specialize (Hl _ He).
  cbn [fst snd] in *. cbv beta. cbn [fst snd].
  unfold quote. rewrite <- app_comm_cons.
  constructor; [lia|]. rewrite <- app_assoc. apply List.Forall_app. split.
  - now apply quote_units_latin1.
  - cbn [app]. constructor; [lia|]. constructor; [lia|].
    unfold bytes_value. cbn [stringify]. rewrite map_map.
    constructor; [lia|]. apply List.Forall_app. split; [|repeat constructor; lia].
    apply join_comma_latin1, List.Forall_map.
    eapply List.Forall_impl; [|exact Hb]. intros b. apply byte_json_latin1.
Qed.

(** Decoding undoes encoding wherever encoding returns. *)
Lemma deserialize_serialize S str :
  Snapshot_wf S ->
  serialize (snapshot_value S) = OK str ->
  deserialize str = snapshot_value S.
Proof.
  intros Hwf Hs. unfold serialize in Hs. unfold deserialize.
  rewrite (atob_btoa _ _ Hs). cbn [rbind].
  now rewrite parse_stringify_snapshot.
Qed.

End CodecFacts.

(** ** The stores *)

Section StorageFacts.

Lemma snapshot_value_not_null S : snapshot_value S <> JNull.
Proof. discriminate. Qed.

Lemma deserialize_nil : deserialize [] = JNull.
Proof. reflexivity. Qed.

(** What was encoded from a snapshot is decoded to it when read from a store. *)
Lemma decode_stored_serialize S str :
  Snapshot_wf S -> serialize (snapshot_value S) = OK str ->
  decode_stored (Some str) = snapshot_value S.
Proof.
  intros Hwf Hs. pose proof (deserialize_serialize S str Hwf Hs) as Hd.
  destruct str as [|c s]; [|exact Hd].
  rewrite deserialize_nil in Hd. discriminate.
Qed.

Lemma has_store_save_upgrade db : has_store (save_upgrade db) IDB_STORE = true.
Proof.
  unfold save_upgrade. destruct (has_store db IDB_STORE) eqn:E; [exact E|].
  unfold has_store, createObjectStore. cbn [db_stores].
  now rewrite lookup_insert_eq.
Qed.

Lemma save_upgrade_version db : db_version (save_upgrade db) = db_version db.
Proof. unfold save_upgrade. destruct (has_store db IDB_STORE); reflexivity. Qed.

(** Opening for a save on a working primary store gives a database at the
    expected version that has the object store, and changes nothing but
    the databases. *)
Lemma idb_open_save_healthy h :
  healthy_primary h ->
  exists h' db,
    idb_open h IDB_NAME IDB_VERSION (Some save_upgrade) = (h', OK db)
    /\ h' = set_databases h (databases h')
    /\ databases h' !! IDB_NAME = Some db
    /\ db_version db = IDB_VERSION
    /\ has_store db IDB_STORE = true.
Proof.
  intros (Hg & Ho & Ht & Hc & Hge & Hdb).
  unfold idb_open. rewrite Ho.
  destruct (databases h !! IDB_NAME) as [db|] eqn:Ed.
  - destruct (Hdb db eq_refl) as [Hv Hst].
    replace (IDB_VERSION <? db_version db) with false
      by (symmetry; apply N.ltb_ge; exact Hv).
    destruct (db_version db <? IDB_VERSION) eqn:Elt.
    + eexists _, _. split; [reflexivity|]. cbn [databases set_databases].
      split; [reflexivity|]. split; [apply lookup_insert_eq|].
      split; [apply save_upgrade_version | apply has_store_save_upgrade].
    + apply N.ltb_ge in Elt.
      assert (Ev : db_version db = IDB_VERSION) by lia.
      exists h, db. split; [reflexivity|].
      split; [now destruct h|]. auto.
  - change (IDB_VERSION <? db_version empty_database) with false.
    change (db_version empty_database <? IDB_VERSION) with true. cbv iota.
    eexists _, _. split; [reflexivity|]. cbn [databases set_databases].
    split; [reflexivity|]. split; [apply lookup_insert_eq|].
    split; [apply save_upgrade_version | apply has_store_save_upgrade].
Qed.

(** What a save through a working primary store leaves behind. *)
Lemma saveViaIndexedDB_healthy files str h :
  healthy_primary h -> serialize files = OK str ->
  exists h' db content,
    saveViaIndexedDB files h = (h', Saved)
    /\ healthy_primary h'
    /\ localStorage h' = localStorage h
    /\ databases h' !! IDB_NAME = Some db
    /\ db_version db = IDB_VERSION
    /\ db_stores db !! IDB_STORE = Some content
    /\ content !! STORAGE_KEY = Some str.
Proof.
  intros Hh Hs.
  destruct (idb_open_save_healthy h Hh) as (h1 & db & Eo & Eh & Ed & Ev & Est).
  destruct Hh as (Hg & Ho & Ht & Hc & Hge & Hdb).
  unfold saveViaIndexedDB. rewrite Eo, Est. cbn [negb].
  rewrite Eh. cbn [transaction_fault commit_fault set_databases].
  rewrite Ht, Hs, Hc. rewrite <- Eh.
  unfold put. rewrite Ed. unfold has_store in Est.
  destruct (db_stores db !! IDB_STORE) as [content|] eqn:Ec; [|discriminate].
  set (db' := {| db_version := db_version db;
                 db_stores := <[IDB_STORE := <[STORAGE_KEY := str]> content]>
                                (db_stores db) |}).
  exists (set_databases h1 (<[IDB_NAME := db']> (databases h1))), db',
         (<[STORAGE_KEY := str]> content).
  split; [reflexivity|].
  cbn [databases set_databases localStorage].
  split; [|split; [rewrite Eh; reflexivity|]].
  2:{ rewrite lookup_insert_eq. unfold db'. cbn [db_version db_stores].
      rewrite !lookup_insert_eq. auto. }
  rewrite Eh. unfold healthy_primary, getIndexedDB.
  cbn [indexedDB mozIndexedDB webkitIndexedDB msIndexedDB set_databases
       open_fault transaction_fault commit_fault get_fault databases].
  repeat (split; [assumption|]).
  intros db0 E0. rewrite lookup_insert_eq in E0. injection E0 as <-.
  unfold db'. cbn [db_version]. split; [lia|]. intros _.
  unfold has_store. cbn [db_stores]. now rewrite lookup_insert_eq.
Qed.

(** What a load through a working primary store returns. *)
Lemma loadViaIndexedDB_healthy h db content :
  healthy_primary h ->
  databases h !! IDB_NAME = Some db ->
  db_version db = IDB_VERSION ->
  db_stores db !! IDB_STORE = Some content ->
  loadViaIndexedDB h = (h, Loaded (decode_stored (content !! STORAGE_KEY))).
Proof.
  intros (Hg & Ho & Ht & Hc & Hge & Hdb) Ed Ev Ec.
  unfold loadViaIndexedDB, idb_open. rewrite Ho, Ed.
  rewrite Ev, N.ltb_irrefl, Ec, Ht, Hge. reflexivity.
Qed.

(** *** The fallback store *)

Lemma saveToLocalStorage_too_large files str h :
  serialize files = OK str -> 4194304 < js_length str ->
  saveToLocalStorage files h = (h, SaveFailed too_large).
Proof.
  intros Hs Hl. unfold saveToLocalStorage. rewrite Hs.
  change (4 * 1024 * 1024) with 4194304.
  apply N.ltb_lt in Hl. now rewrite Hl.
Qed.

Lemma saveToLocalStorage_fits files str h :
  serialize files = OK str -> js_length str <= 4194304 ->
  setItem_fault h STORAGE_KEY str = None ->
  saveToLocalStorage files h
  = (set_localStorage h (<[STORAGE_KEY := str]> (localStorage h)), Saved).
Proof.
  intros Hs Hl Hf. unfold saveToLocalStorage. rewrite Hs.
  change (4 * 1024 * 1024) with 4194304.
  apply N.ltb_ge in Hl. now rewrite Hl, Hf.
Qed.

Lemma saveToLocalStorage_refused files str h e :
  serialize files = OK str -> js_length str <= 4194304 ->
  setItem_fault h STORAGE_KEY str = Some e ->
  saveToLocalStorage files h = (h, SaveFailed e).
Proof.
  intros Hs Hl Hf. unfold saveToLocalStorage. rewrite Hs.
  change (4 * 1024 * 1024) with 4194304.
  apply N.ltb_ge in Hl. now rewrite Hl, Hf.
Qed.

Lemma loadFromLocalStorage_stored h str :
  getItem_fault h = None ->
  localStorage h !! STORAGE_KEY = Some str ->
  loadFromLocalStorage h = (h, Loaded (decode_stored (Some str))).
Proof. intros Hf H. unfold loadFromLocalStorage. now rewrite Hf, H. Qed.

Lemma loadFromLocalStorage_refused h e :
  getItem_fault h = Some e -> loadFromLocalStorage h = (h, LoadFailed e).
Proof. intros Hf. unfold loadFromLocalStorage. now rewrite Hf. Qed.




Lemma saveToIndexedDB_present files h :
  getIndexedDB h = true -> saveToIndexedDB files h = saveViaIndexedDB files h.
Proof. intros H. unfold saveToIndexedDB. now rewrite H. Qed.

Lemma loadFromIndexedDB_absent h :
  getIndexedDB h = false -> loadFromIndexedDB h = loadFromLocalStorage h.
Proof. intros H. unfold loadFromIndexedDB. now rewrite H. Qed.

Lemma loadFromIndexedDB_present h :
  getIndexedDB h = true -> loadFromIndexedDB h = loadViaIndexedDB h.
Proof. intros H. unfold loadFromIndexedDB. now rewrite H. Qed.

End StorageFacts.

(** ** The collector *)

Example collect_demo :
  collectSaveFiles demo_fs = Some [(js "/SaveData/slot1", bytes_value [1; 2; 3])].
Proof. reflexivity. Qed.

Example collect_empty_save : collectSaveFiles empty_save_fs = Some [].
Proof. reflexivity. Qed.

Section ObjectFacts.

Lemma obj_replace_keys k v o : List.map fst (obj_replace k v o) = List.map fst o.
Proof.
  induction o as [|[k' v'] o IH]; simpl; [reflexivity|].
  destruct (string_eqb k k'); simpl; [reflexivity|]. now rewrite IH.
Qed.

Lemma obj_insert_index_keys n k v o k' :
  In k' (List.map fst (obj_insert_index n k v o)) ->
  k' = k \/ In k' (List.map fst o).
Proof.
  induction o as [|[k0 v0] o IH]; simpl.
  - intros [<- | []]. now left.
  - destruct (array_index k0) as [n'|].
    + destruct (n' <? n); simpl.
      * intros [<- | Hin]; [right; now left|].
        destruct (IH Hin) as [-> | Hin']; [now left | right; now right].
      * intros [<- | [<- | Hin]]; [now left | right; now left | right; now right].
    + simpl. intros [<- | [<- | Hin]]; [now left | right; now left | right; now right].
Qed.

(** Setting a property adds at most its key. *)
Lemma obj_set_keys k v o k' :
  In k' (List.map fst (obj_set k v o)) -> k' = k \/ In k' (List.map fst o).
Proof.
  unfold obj_set. destruct (obj_get k o).
  - rewrite obj_replace_keys. now right.
  - destruct (array_index k) as [n|].
    + apply obj_insert_index_keys.
    + rewrite List.map_app, in_app_iff. simpl.
      intros [Hin | [<- | []]]; [now right | now left].
Qed.

Lemma all_kept_obj_set k v files :
  skipped k = false -> all_kept files -> all_kept (obj_set k v files).
Proof.
  unfold all_kept. rewrite !List.Forall_forall. intros Hk Hf [k' v'] Hin.
  cbn [fst].
  destruct (obj_set_keys k v files k') as [-> | Hin'].
  - apply in_map_iff. now exists (k', v').
  - exact Hk.
  - apply in_map_iff in Hin' as ([k0 v0] & <- & Hin0). exact (Hf _ Hin0).
Qed.

End ObjectFacts.

Section CollectorFacts.
Context {St : Type} `{FSReader St}.

Lemma walk_entries_kept walk_dir fs path entries : forall files files',
  (forall p f f', all_kept f -> walk_dir p f = Some f' -> all_kept f') ->
  all_kept files ->
  walk_entries walk_dir fs path entries files = Some files' ->
  all_kept files'.
Proof.
  induction entries as [|name rest IH]; intros files files' Hrec Hk; simpl.
  - now intros [= <-].
  - destruct (string_eqb name (js ".") || string_eqb name (js "..")); [now apply IH|].
    destruct (skipped (child_path path name)) eqn:Es; [now apply IH|].
    destruct (stat fs (child_path path name)) as [st|e]; [|now apply IH].
    destruct (isDir (st_mode st)).
    + destruct (walk_dir (child_path path name) files) as [f1|] eqn:Ew; [|discriminate].
      apply IH; [exact Hrec|]. exact (Hrec _ _ _ Hk Ew).
    + destruct (read_file fs (child_path path name) st) as [data|e].
      * apply IH; [exact Hrec|]. now apply all_kept_obj_set.
      * now apply IH.
Qed.

(** The walk only adds paths that passed the filter. *)
Lemma walk_kept fuel fs : forall path files files',
  all_kept files -> walk fuel fs path files = Some files' -> all_kept files'.
Proof.
  induction fuel as [|fuel IH]; intros path files files' Hk; simpl; [discriminate|].
  destruct (readdir fs (or_root path)) as [entries|e].
  - apply walk_entries_kept; [|exact Hk]. intros p f f'. apply IH.
  - now intros [= <-].
Qed.

Lemma or_root_child path name : or_root (child_path path name) = child_path path name.
Proof.
  unfold child_path. destruct (string_eqb path (js "/")); [reflexivity|].
  destruct path; reflexivity.
Qed.

Lemma walk_entries_returns walk_dir fs path entries :
  (forall name st, In name entries ->
     string_eqb name (js ".") || string_eqb name (js "..") = false ->
     skipped (child_path path name) = false ->
     stat fs (child_path path name) = OK st -> isDir (st_mode st) = true ->
     forall f, walk_dir (child_path path name) f <> None) ->
  forall files, walk_entries walk_dir fs path entries files <> None.
Proof.
  induction entries as [|name rest IH]; intros Hrec files; simpl; [discriminate|].
  assert (IH' : forall f, walk_entries walk_dir fs path rest f <> None).
  { apply IH. intros n st Hin. apply Hrec. now right. }
  destruct (string_eqb name (js ".") || string_eqb name (js "..")) eqn:Edot;
    [apply IH'|].
  destruct (skipped (child_path path name)) eqn:Eskip; [apply IH'|].
  destruct (stat fs (child_path path name)) as [st|e] eqn:Est; [|apply IH'].
  destruct (isDir (st_mode st)) eqn:Ed.
  - pose proof (Hrec name st (or_introl eq_refl) Edot Eskip Est Ed files) as Hw.
    destruct (walk_dir (child_path path name) files); [apply IH' | contradiction].
  - destruct (read_file fs (child_path path name) st); apply IH'.
Qed.

(** On a tree of finite depth the walk returns. *)
Lemma walk_returns fs :
  reader_wf fs ->
  forall fuel path files,
    (fs_height fs (or_root path) < fuel)%nat -> walk fuel fs path files <> None.
Proof.
  intros Hwf. induction fuel as [|fuel IH]; intros path files Hf; [lia|].
  simpl. destruct (readdir fs (or_root path)) as [entries|e] eqn:Er; [|discriminate].
  apply walk_entries_returns. intros name st Hin Edot Eskip Est Ed f.
  apply IH. rewrite or_root_child.
  pose proof (Hwf _ _ _ _ Er Hin Edot Eskip Est Ed). lia.
Qed.

Lemma collectSaveFiles_returns fs :
  reader_wf fs -> exists files, collectSaveFiles fs = Some files /\ all_kept files.
Proof.
  intros Hwf. unfold collectSaveFiles.
  destruct (walk (S (fs_height fs (js "/"))) fs (js "/") []) as [files|] eqn:E.
  - exists files. split; [reflexivity|].
    apply (walk_kept _ _ _ _ _ (List.Forall_nil _) E).
  - exfalso. apply (walk_returns fs Hwf _ _ _ (Nat.lt_succ_diag_r _) E).
Qed.

End CollectorFacts.

Lemma skipped_false k :
  skipped k = false ->
  forall p, In p SKIP_PATHS -> k <> p /\ startsWith k (p ++ js "/") = false.
Proof.
  unfold skipped. intros Hk p Hp.
  assert (Hn : string_eqb k p || startsWith k (p ++ js "/") = false).
  { destruct (string_eqb k p || startsWith k (p ++ js "/")) eqn:E; [|reflexivity].
    rewrite <- Hk. symmetry. apply existsb_exists. now exists p. }
  apply orb_false_iff in Hn as [H1 H2]. split; [|exact H2].
  now apply string_eqb_neq.
Qed.

Lemma demo_reader_wf fs : reader_wf (St := DemoFS) fs.
Proof.
  intros path entries name st Hr Hin _ _ Hs Hd.
  cbn [readdir stat isDir fs_height demo_reader] in *.
  unfold demo_readdir in Hr.
  destruct (string_eqb path (js "/")) eqn:E1.
  - apply string_eqb_eq in E1. subst path.
    destruct fs; injection Hr as <-; simpl in Hin;
      repeat (destruct Hin as [<- | Hin]; [first [vm_compute; lia | vm_compute in Hs; try discriminate;
               injection Hs as <-; vm_compute in Hd; discriminate]|]);
      contradiction.
  - destruct (string_eqb path (js "/SaveData")) eqn:E2; [|discriminate].
    apply string_eqb_eq in E2. subst path.
    destruct fs; [|discriminate]. injection Hr as <-. simpl in Hin.
    repeat (destruct Hin as [<- | Hin]; [first [vm_compute; lia | vm_compute in Hs; try discriminate;
             injection Hs as <-; vm_compute in Hd; discriminate]|]);
      contradiction.
Qed.

(** ** Conversions *)

Example StringToNumber_forms :
  List.map StringToNumber
    [js ""; js "  12 "; js "1,2"; js "0x1F"; js "-.5e1"; js "5."; js "."; js "-Infinity";
     js "007"; js "1e"; js "[object Object]"; js "+0b101"]
  = [Finite 0 0; Finite 12 0; NaN; Finite 31 0; Finite (-5) 0; Finite 5 0; NaN;
     Infinity true; Finite 7 0; NaN; NaN; NaN].
Proof. reflexivity. Qed.

Example Uint8Array_forms :
  List.map Uint8Array_new
    [Some (bytes_value [7; 7]); Some (JNumber (Finite 3 0)); Some JNull; None;
     Some (JArray [JNumber (Finite 257 0); JNumber (Finite (-1) 0); JNumber (Finite 15 (-1));
                   JString (js "9"); JNull; JArray [JNumber (Finite 4 0)];
                   JObject []]);
     Some (JNumber (Finite (-1) 0));
     Some (JObject [(js "length", JNumber (Finite 2 0)); (js "1", JNumber (Finite 5 0))]);
     Some (JArray [JObject [(js "toString", JNull)]])]
  = [OK [7; 7]; OK [0; 0; 0]; OK []; OK [];
     OK [1; 255; 1; 9; 0; 4; 0];
     Err RangeError;
     OK [0; 5];
     Err TypeError].
Proof. reflexivity. Qed.

(** The array of a byte sequence converts back to the bytes. *)
Lemma ToUint8_byte b : b < 256 -> ToUint8 (number_of_N b) = b.
Proof.
  intros Hb.
  assert (Hc : forallb (fun b => ToUint8 (number_of_N b) =? b) Base64.byte_range = true)
    by (vm_compute; reflexivity).
  rewrite forallb_forall in Hc. apply N.eqb_eq, Hc, in_byte_range, Hb.
Qed.

Lemma to_bytes_bytes bs :
  Forall (fun b => b < 256) bs ->
  to_bytes (List.map Some (List.map (fun b => JNumber (number_of_N b)) bs)) = OK bs.
Proof.
  induction 1 as [|b bs Hb _ IH]; [reflexivity|].
  cbn [List.map to_bytes ToNumber rbind]. rewrite IH. cbn [rbind].
  now rewrite ToUint8_byte.
Qed.

Lemma Uint8Array_new_bytes bs :
  Forall (fun b => b < 256) bs -> Uint8Array_new (Some (bytes_value bs)) = OK bs.
Proof. intros H. unfold bytes_value, Uint8Array_new. now apply to_bytes_bytes. Qed.

(** ** The restorer *)

Example restore_scenario_5 :
  restoreSaveFiles (snapshot_value [(js "/save/data/slot1.dat", [7; 7])]) (∅ : MemFS)
  = <[ [js "save"; js "data"; js "slot1.dat"] := File restored_mode [7; 7] ]>
      (<[ [js "save"; js "data"] := Dir dir_mode ]>
         (<[ [js "save"] := Dir dir_mode ]> ∅)).
Proof. vm_compute. reflexivity. Qed.

(** ** The flows *)

Section FlowFacts.
Context {St : Type} `{FSWriter St}.

(** Content that decodes to nothing, or to a value whose type is not
    [object], is refused and nothing is touched. *)
Lemma importSave_refuses fs h text has_onSuccess :
  truthy (deserialize text) = false \/ typeof_object (deserialize text) = false ->
  importSave fs h (OK text) has_onSuccess true
  = (fs, h, [CallOnError invalid_save_file]).
Proof.
  intros Hd. unfold importSave.
  destruct Hd as [-> | ->]; cbn [negb orb]; rewrite ?orb_true_r; reflexivity.
Qed.

End FlowFacts.

Example import_number :
  importSave (∅ : MemFS) bare_host (OK (js "NQ==")) true true
  = (∅, bare_host, [CallOnError invalid_save_file]).
Proof. apply importSave_refuses. right. vm_compute. reflexivity. Qed.

Example import_text :
  importSave (∅ : MemFS) bare_host (OK (js "not json")) true true
  = (∅, bare_host, [CallOnError invalid_save_file]).
Proof. apply importSave_refuses. left. vm_compute. reflexivity. Qed.

(** ** The length of what is stored *)

Section Sizes.

Lemma js_length_length s : js_length s = N.of_nat (length s).
Proof.
  unfold js_length.
  assert (H : forall acc, fold_left (fun n (_ : N) => N.succ n) s acc
                          = acc + N.of_nat (length s)).
  { induction s as [|c s IH]; intros acc; cbn [fold_left length]; [lia|].
    rewrite IH. lia. }
  now rewrite H.
Qed.

Lemma sextets_longer bs : (length bs <= length (Base64.sextets bs))%nat.
Proof.
  induction bs as [| a | a b | a b c l IH] using list_ind3; simpl; lia.
Qed.

Lemma encode_longer s : (length s <= length (Base64.encode s))%nat.
Proof.
  unfold Base64.encode. rewrite length_app, length_map.
  pose proof (sextets_longer s). lia.
Qed.

Lemma zero_snapshot_wf n : Snapshot_wf (zero_snapshot n).
Proof.
  split.
  - repeat constructor. simpl. tauto.
  - constructor; [|constructor]. split; [reflexivity|]. cbn [snd].
    induction n as [|n IH]; constructor; [lia | exact IH].
Qed.

Lemma zero_snapshot_latin1 n : latin1_paths (zero_snapshot n).
Proof. constructor; [|constructor]. cbn [fst]. repeat constructor; simpl; lia. Qed.

(** The encoding of [n] zero bytes is longer than [n]. *)
Lemma zero_snapshot_serialize n :
  exists str, serialize (snapshot_value (zero_snapshot n)) = OK str
              /\ N.of_nat n < js_length str.
Proof.
  exists (Base64.encode (JSON.stringify (snapshot_value (zero_snapshot n)))).
  split.
  - unfold serialize. apply btoa_latin1.
    apply snapshot_json_latin1; [apply zero_snapshot_wf | apply zero_snapshot_latin1].
  - rewrite js_length_length.
    pose proof (encode_longer (JSON.stringify (snapshot_value (zero_snapshot n)))) as He.
    assert (Hj : (n + 4 <= length (JSON.stringify (snapshot_value (zero_snapshot n))))%nat).
    { pose proof (snapshot_json_length (zero_snapshot n)) as Hm.
      assert (Hb : Forall (fun e : jsstring * list N => Forall (fun b => b < 256) (snd e))
                          (zero_snapshot n)).
      { destruct (zero_snapshot_wf n) as [_ Hw].
        eapply List.Forall_impl; [|exact Hw]. intros e [_ He']. exact He'. }
      specialize (Hm Hb). unfold members_fuel in Hm.
      assert (Ef : list_sum (List.map (fun e : jsstring * list N => (length (snd e) + 4)%nat)
                               (zero_snapshot n)) = (n + 4)%nat).
      { unfold zero_snapshot. cbn [List.map snd].
        change (list_sum [?x]) with (x + 0)%nat. rewrite repeat_length. lia. }
      rewrite Ef in Hm.
      unfold snapshot_value. cbn [JSON.stringify]. rewrite List.map_map.
      cbn [length]. rewrite length_app. cbn [length].
      unfold snapshot_value in Hm. cbn [fst snd] in *. lia. }
    lia.
Qed.

End Sizes.

(** * More properties of the script *)

(** ** The stores *)

Section RecordFacts.

Lemma idb_record_set_localStorage h ls :
  idb_record (set_localStorage h ls) = idb_record h.
Proof. reflexivity. Qed.

(** Opening the database, with or without the handler of a save, changes no
    record. *)
Lemma idb_open_record h handler h' r :
  handler = None \/ handler = Some save_upgrade ->
  idb_open h IDB_NAME IDB_VERSION handler = (h', r) ->
  idb_record h' = idb_record h /\ localStorage h' = localStorage h.
Proof.
  intros Hh. unfold idb_open.
  destruct (open_fault h); [now intros [= <- _]|].
  destruct (databases h !! IDB_NAME) as [db|] eqn:Ed.
  - destruct (IDB_VERSION <? db_version db); [now intros [= <- _]|].
    destruct (db_version db <? IDB_VERSION); [|now intros [= <- _]].
    intros [= <- _]. split; [|reflexivity].
    unfold idb_record. cbn [databases set_databases].
    rewrite lookup_insert_eq, Ed.
    destruct Hh as [-> | ->]; [reflexivity|].
    unfold save_upgrade, has_store. cbn [db_stores].
    destruct (db_stores db !! IDB_STORE) eqn:Es; cbn [db_stores].
    + now rewrite Es.
    + unfold createObjectStore. cbn [db_stores]. now rewrite lookup_insert_eq.
  - change (IDB_VERSION <? db_version empty_database) with false.
    change (db_version empty_database <? IDB_VERSION) with true. cbv iota.
    intros [= <- _]. split; [|reflexivity].
    unfold idb_record. cbn [databases set_databases].
    rewrite lookup_insert_eq, Ed.
    destruct Hh as [-> | ->]; [reflexivity|].
    reflexivity.
Qed.

End RecordFacts.

Section StoreProperties.

(** The records after a save that failed. *)
Lemma save_failure_records (files : JSValue) (h h' : Host) (e : Error) :
  saveToIndexedDB files h = (h', SaveFailed e) ->
  idb_record h' = idb_record h /\ ls_record h' = ls_record h.
Proof.
  unfold saveToIndexedDB. destruct (getIndexedDB h); cbn [negb].
  - unfold saveViaIndexedDB.
    destruct (idb_open h IDB_NAME IDB_VERSION (Some save_upgrade)) as [h1 r] eqn:Eo.
    destruct (idb_open_record h _ h1 r (or_intror eq_refl) Eo) as [Hr Hl].
    assert (Hk : forall h2, h2 = h1 ->
                 idb_record h2 = idb_record h /\ ls_record h2 = ls_record h).
    { intros h2 ->. split; [exact Hr|]. unfold ls_record. now rewrite Hl. }
    destruct r as [db|e0]; [|intros [= <- _]; now apply Hk].
    destruct (negb (has_store db IDB_STORE)); [intros [= <- _]; now apply Hk|].
    destruct (transaction_fault h1); [intros [= <- _]; now apply Hk|].
    destruct (serialize files); [|intros [= <- _]; now apply Hk].
    destruct (commit_fault h1); [intros [= <- _]; now apply Hk|discriminate].
  - unfold saveToLocalStorage.
    destruct (serialize files); [|now intros [= <- _]].
    destruct (4 * 1024 * 1024 <? js_length a); [now intros [= <- _]|].
    destruct (setItem_fault h STORAGE_KEY a); [now intros [= <- _]|discriminate].
Qed.

(** X1.  A save that fails, on either backend and for whatever reason,
    leaves the record of IndexedDB and the record of [localStorage] as they
    were. *)
Theorem failed_save_keeps_records (files : JSValue) (h h' : Host) (e : Error) :
  saveToIndexedDB files h = (h', SaveFailed e) ->
  idb_record h' = idb_record h /\ ls_record h' = ls_record h.
Proof. apply save_failure_records. Qed.

Lemma failed_save_keeps_records_witness :
  exists h',
    saveToIndexedDB (snapshot_value euro_snapshot) fresh_host
    = (h', SaveFailed InvalidCharacterError)
    /\ h' <> fresh_host
    /\ idb_record h' = idb_record fresh_host
    /\ ls_record h' = ls_record fresh_host.
Proof.
  set (db := save_upgrade {| db_version := IDB_VERSION; db_stores := ∅ |}).
  set (h' := set_databases fresh_host (<[IDB_NAME := db]> ∅)).
  assert (E : saveToIndexedDB (snapshot_value euro_snapshot) fresh_host
              = (h', SaveFailed InvalidCharacterError)) by reflexivity.
  exists h'. split; [exact E|]. split.
  - intros Eh. apply (f_equal (fun x => databases x !! IDB_NAME)) in Eh.
    unfold h' in Eh. cbn [databases set_databases fresh_host set_indexedDB bare_host] in Eh.
    rewrite lookup_insert_eq, lookup_empty in Eh. discriminate.
  - exact (failed_save_keeps_records _ _ _ _ E).
Defined.

(** X2.  A load, on either backend and whatever it ends with, leaves the
    record of IndexedDB and the record of [localStorage] as they were, even
    when it creates the database. *)
Theorem load_keeps_records (h h' : Host) (outcome : LoadOutcome) :
  loadFromIndexedDB h = (h', outcome) ->
  idb_record h' = idb_record h /\ ls_record h' = ls_record h.
Proof.
  unfold loadFromIndexedDB. destruct (getIndexedDB h); cbn [negb].
  - unfold loadViaIndexedDB.
    destruct (idb_open h IDB_NAME IDB_VERSION None) as [h1 r] eqn:Eo.
    destruct (idb_open_record h _ h1 r (or_introl eq_refl) Eo) as [Hr Hl].
    assert (Hk : forall h2, h2 = h1 ->
                 idb_record h2 = idb_record h /\ ls_record h2 = ls_record h).
    { intros h2 ->. split; [exact Hr|]. unfold ls_record. now rewrite Hl. }
    destruct r as [db|e0]; [|intros [= <- _]; now apply Hk].
    destruct (db_stores db !! IDB_STORE); [|intros [= <- _]; now apply Hk].
    destruct (transaction_fault h1); [intros [= <- _]; now apply Hk|].
    destruct (get_fault h1); intros [= <- _]; now apply Hk.
  - unfold loadFromLocalStorage. destruct (getItem_fault h); now intros [= <- _].
Qed.

Lemma load_keeps_records_witness :
  exists h',
    loadFromIndexedDB fresh_host = (h', Loaded JNull)
    /\ h' <> fresh_host
    /\ idb_record h' = idb_record fresh_host
    /\ ls_record h' = ls_record fresh_host.
Proof.
  set (h' := set_databases fresh_host
               (<[IDB_NAME := {| db_version := IDB_VERSION; db_stores := ∅ |}]> ∅)).
  assert (E : loadFromIndexedDB fresh_host = (h', Loaded JNull)) by reflexivity.
  exists h'. split; [exact E|]. split.
  - intros Eh. apply (f_equal (fun x => databases x !! IDB_NAME)) in Eh.
    unfold h' in Eh. cbn [databases set_databases fresh_host set_indexedDB bare_host] in Eh.
    rewrite lookup_insert_eq, lookup_empty in Eh. discriminate.
  - exact (load_keeps_records _ _ _ E).
Defined.

Lemma idb_record_lookup h db content :
  databases h !! IDB_NAME = Some db ->
  db_stores db !! IDB_STORE = Some content ->
  idb_record h = content !! STORAGE_KEY.
Proof. intros Ed Ec. unfold idb_record. now rewrite Ed, Ec. Qed.

(** X3.  The primary store has no ceiling.  On a working IndexedDB a save
    of a payload succeeds whatever the length of its encoding, the encoding
    becomes the record of IndexedDB, [localStorage] is not written, and the
    load that follows returns the snapshot the payload was. *)
Theorem primary_save_has_no_ceiling (files : JSValue) (str : jsstring) (h : Host) :
  healthy_primary h -> serialize files = OK str ->
  exists h1,
    saveToIndexedDB files h = (h1, Saved)
    /\ idb_record h1 = Some str
    /\ ls_record h1 = ls_record h
    /\ forall S, Snapshot_wf S -> files = snapshot_value S ->
         loadFromIndexedDB h1 = (h1, Loaded files).
Proof.
  intros Hh Hs.
  destruct (saveViaIndexedDB_healthy files str h Hh Hs)
    as (h1 & db & content & E & Hh1 & Hl & Ed & Ev & Ec & Ek).
  exists h1. rewrite (saveToIndexedDB_present _ _ (proj1 Hh)).
  split; [exact E|]. split; [now rewrite (idb_record_lookup h1 db content)|].
  split; [unfold ls_record; now rewrite Hl|].
  intros S Hwf ->.
  rewrite (loadFromIndexedDB_present _ (proj1 Hh1)).
  rewrite (loadViaIndexedDB_healthy h1 db content Hh1 Ed Ev Ec), Ek.
  now rewrite (decode_stored_serialize S str Hwf Hs).
Qed.

Lemma healthy_fresh_host : healthy_primary fresh_host.
Proof.
  unfold healthy_primary. repeat (split; [reflexivity|]).
  intros db Hd. cbn in Hd. rewrite lookup_empty in Hd. discriminate.
Qed.

Lemma primary_save_has_no_ceiling_witness :
  exists str h1,
    serialize (snapshot_value slot1_snapshot) = OK str
    /\ saveToIndexedDB (snapshot_value slot1_snapshot) fresh_host = (h1, Saved)
    /\ idb_record h1 = Some str
    /\ ls_record h1 = None
    /\ loadFromIndexedDB h1 = (h1, Loaded (snapshot_value slot1_snapshot)).
Proof.
  exists (Base64.encode (JSON.stringify (snapshot_value slot1_snapshot))).
  assert (Hs : serialize (snapshot_value slot1_snapshot)
               = OK (Base64.encode (JSON.stringify (snapshot_value slot1_snapshot))))
    by (vm_compute; reflexivity).
  assert (Hwf : Snapshot_wf slot1_snapshot).
  { split.
    - repeat constructor. simpl. tauto.
    - repeat constructor; simpl; lia. }
  destruct (primary_save_has_no_ceiling _ _ fresh_host healthy_fresh_host Hs)
    as (h1 & E & Hr & Hl & Hload).
  exists h1. split; [exact Hs|]. split; [exact E|]. split; [exact Hr|].
  split; [exact Hl|]. exact (Hload slot1_snapshot Hwf eq_refl).
Defined.

(** A database at the expected version without the object store stays so:
    every save ends with the object-store error, every load with [null],
    and neither changes the host. *)
Lemma storeless_database_stuck h :
  getIndexedDB h = true -> open_fault h = None -> storeless_database h ->
  (forall files, saveToIndexedDB files h = (h, SaveFailed store_not_found))
  /\ loadFromIndexedDB h = (h, Loaded JNull).
Proof.
  intros Hg Ho (db & Ed & Ev & Hst).
  assert (Eo : forall handler,
             idb_open h IDB_NAME IDB_VERSION handler = (h, OK db)).
  { intros handler. unfold idb_open. rewrite Ho, Ed, Ev.
    now rewrite N.ltb_irrefl. }
  split.
  - intros files. rewrite (saveToIndexedDB_present _ _ Hg).
    unfold saveViaIndexedDB. now rewrite Eo, Hst.
  - rewrite (loadFromIndexedDB_present _ Hg). unfold loadViaIndexedDB.
    rewrite Eo. unfold has_store in Hst.
    now destruct (db_stores db !! IDB_STORE).
Qed.

(** X4.  A load before the first save spoils the database.  On a host with
    IndexedDB where the database does not exist yet, a load creates it at
    the expected version without the object store (it has no upgrade
    handler) and ends with [null]; from then on every save ends with the
    error that the object store was not found and every load with [null],
    the host staying as it is. *)
Theorem load_first_leaves_no_store (h : Host) :
  getIndexedDB h = true -> open_fault h = None ->
  databases h !! IDB_NAME = None ->
  exists h1,
    loadFromIndexedDB h = (h1, Loaded JNull)
    /\ storeless_database h1
    /\ (forall files, saveToIndexedDB files h1 = (h1, SaveFailed store_not_found))
    /\ loadFromIndexedDB h1 = (h1, Loaded JNull).
Proof.
  intros Hg Ho Hd.
  set (db := {| db_version := IDB_VERSION; db_stores := ∅ |}).
  set (h1 := set_databases h (<[IDB_NAME := db]> (databases h))).
  assert (E : loadFromIndexedDB h = (h1, Loaded JNull)).
  { rewrite (loadFromIndexedDB_present _ Hg). unfold loadViaIndexedDB, idb_open.
    rewrite Ho, Hd. reflexivity. }
  assert (Hs : storeless_database h1).
  { exists db. unfold h1. cbn [databases set_databases].
    rewrite lookup_insert_eq. repeat split. }
  exists h1. split; [exact E|]. split; [exact Hs|].
  apply storeless_database_stuck; [exact Hg | exact Ho | exact Hs].
Qed.

Lemma load_first_leaves_no_store_witness :
  exists h1,
    loadFromIndexedDB fresh_host = (h1, Loaded JNull)
    /\ storeless_database h1
    /\ (forall files, saveToIndexedDB files h1 = (h1, SaveFailed store_not_found))
    /\ loadFromIndexedDB h1 = (h1, Loaded JNull).
Proof.
  apply (load_first_leaves_no_store fresh_host); reflexivity.
Defined.

End StoreProperties.

Section SaveThenLoad.

(** A database that opened is in the host at the expected version, and the
    faults of the host are as before. *)
Lemma idb_open_ok h handler h' db :
  handler = None \/ handler = Some save_upgrade ->
  idb_open h IDB_NAME IDB_VERSION handler = (h', OK db) ->
  databases h' !! IDB_NAME = Some db
  /\ db_version db = IDB_VERSION
  /\ getIndexedDB h' = getIndexedDB h
  /\ open_fault h' = open_fault h
  /\ transaction_fault h' = transaction_fault h
  /\ get_fault h' = get_fault h
  /\ localStorage h' = localStorage h.
Proof.
  intros Hh. unfold idb_open.
  destruct (open_fault h) eqn:Eo; [discriminate|].
  destruct (databases h !! IDB_NAME) as [db0|] eqn:Ed.
  - destruct (IDB_VERSION <? db_version db0) eqn:E1; [discriminate|].
    destruct (db_version db0 <? IDB_VERSION) eqn:E2.
    + intros [= <- <-]. cbn [databases set_databases]. rewrite lookup_insert_eq.
      split; [reflexivity|]. split; [|now repeat split].
      destruct Hh as [-> | ->]; [reflexivity | apply save_upgrade_version].
    + intros [= <- <-]. to_prop. split; [exact Ed|]. split; [lia|now repeat split].
  - change (IDB_VERSION <? db_version empty_database) with false.
    change (db_version empty_database <? IDB_VERSION) with true. cbv iota.
    intros [= <- <-]. cbn [databases set_databases]. rewrite lookup_insert_eq.
    split; [reflexivity|]. split; [|now repeat split].
    destruct Hh as [-> | ->]; [reflexivity | apply save_upgrade_version].
Qed.

(** What a save that succeeded stored is what the next load returns, on the
    backend the host offers, provided the read itself does not fail. *)
Lemma saved_then_loaded S h h1 :
  Snapshot_wf S ->
  saveToIndexedDB (snapshot_value S) h = (h1, Saved) ->
  reads_back h ->
  loadFromIndexedDB h1 = (h1, Loaded (snapshot_value S)).
Proof.
  intros Hwf Hsave Hget. unfold saveToIndexedDB in Hsave. unfold reads_back in Hget.
  destruct (getIndexedDB h) eqn:Hg; cbn [negb] in Hsave.
  - unfold saveViaIndexedDB in Hsave.
    destruct (idb_open h IDB_NAME IDB_VERSION (Some save_upgrade)) as [h' r] eqn:Eo.
    destruct r as [db|e]; [|discriminate].
    destruct (idb_open_ok h _ h' db (or_intror eq_refl) Eo)
      as (Ed & Ev & Hg' & Ho' & Ht' & Hget' & _).
    destruct (has_store db IDB_STORE) eqn:Hst; [|discriminate]. cbn [negb] in Hsave.
    destruct (transaction_fault h') eqn:Et; [discriminate|].
    destruct (serialize (snapshot_value S)) as [str|] eqn:Hs; [|discriminate].
    destruct (commit_fault h'); [discriminate|].
    injection Hsave as <-.
    unfold put. rewrite Ed. unfold has_store in Hst.
    destruct (db_stores db !! IDB_STORE) as [content|] eqn:Ec; [|discriminate].
    unfold idb_open in Eo. destruct (open_fault h) eqn:Eof; [discriminate|].
    rewrite loadFromIndexedDB_present by (cbn; rewrite <- Hg; exact Hg').
    unfold loadViaIndexedDB, idb_open.
    cbn [open_fault transaction_fault get_fault databases set_databases].
    rewrite Ho', lookup_insert_eq. cbn [db_version db_stores].
    rewrite Ev, N.ltb_irrefl.
    cbn [db_stores transaction_fault get_fault set_databases].
    rewrite lookup_insert_eq, Et, Hget', Hget, lookup_insert_eq.
    now rewrite (decode_stored_serialize S str Hwf Hs).
  - unfold saveToLocalStorage in Hsave.
    destruct (serialize (snapshot_value S)) as [str|] eqn:Hs; [|discriminate].
    destruct (4 * 1024 * 1024 <? js_length str); [discriminate|].
    destruct (setItem_fault h STORAGE_KEY str); [discriminate|].
    injection Hsave as <-.
    rewrite loadFromIndexedDB_absent by exact Hg.
    rewrite (loadFromLocalStorage_stored _ str);
      [|exact Hget | cbn [localStorage set_localStorage]; apply lookup_insert_eq].
    now rewrite (decode_stored_serialize S str Hwf Hs).
Qed.

End SaveThenLoad.

(** ** The flows *)

Section FlowProperties.
Context {St1 : Type} `{FSReader St1} {St2 : Type} `{FSWriter St2}.

(** X5.  Autosave, then restart.  When [doSave] collected a snapshot and its
    save succeeded, the preload of the next start restores that snapshot
    into the tree it is given (the read of the record not failing). *)
Theorem autosave_then_preload (fs : St1) (S : Snapshot) (h h1 : Host) (fs0 : St2) :
  collectSaveFiles fs = Some (snapshot_members S) -> Snapshot_wf S ->
  reads_back h ->
  doSave fs h = Some (h1, Some Saved) ->
  preload fs0 h1 = (restoreSaveFiles (snapshot_value S) fs0, h1).
Proof.
  intros Hc Hwf Hget Hd. unfold doSave in Hd. rewrite Hc in Hd.
  destruct (0 <? keys_length (JObject (snapshot_members S))) eqn:Hk; [|discriminate].
  destruct (saveToIndexedDB (JObject (snapshot_members S)) h) as [h' o] eqn:Es.
  injection Hd as -> ->.
  change (JObject (snapshot_members S)) with (snapshot_value S) in *.
  unfold preload. rewrite (saved_then_loaded S h h1 Hwf Es Hget).
  cbn [truthy snapshot_value andb]. now rewrite Hk.
Qed.

(** X7.  Import, then restart.  When the content decodes to a snapshot and
    [importSave] reports success, the tree holds the restored snapshot and
    the preload of the next start restores the same snapshot (the read of
    the record not failing). *)
Theorem import_then_preload (S : Snapshot) (text : jsstring)
    (fs fs' fs0 : St2) (h h' : Host) :
  Snapshot_wf S -> S <> [] -> deserialize text = snapshot_value S ->
  reads_back h ->
  importSave fs h (OK text) true true = (fs', h', [CallOnSuccess]) ->
  fs' = restoreSaveFiles (snapshot_value S) fs
  /\ preload fs0 h' = (restoreSaveFiles (snapshot_value S) fs0, h').
Proof.
  intros Hwf Hne Hd Hget Hi. unfold importSave in Hi. rewrite Hd in Hi.
  cbn [truthy typeof_object snapshot_value negb orb] in Hi.
  change (JObject (List.map _ S)) with (snapshot_value S) in Hi.
  destruct (saveToIndexedDB (snapshot_value S) h) as [h1 o] eqn:Es.
  destruct o as [|e]; [|discriminate].
  injection Hi as <- <-. split; [reflexivity|].
  unfold preload. rewrite (saved_then_loaded S h h1 Hwf Es Hget).
  cbn [truthy snapshot_value andb].
  destruct S as [|e S]; [congruence|]. reflexivity.
Qed.

(** X8.  An import is not undone when its save fails.  For content that
    passes the check, a failing save leaves the imported files in the tree
    and reports the error, while both records stay as they were: what was
    imported is not there at the next start. *)
Theorem failed_import_is_not_undone (text : jsstring) (fs : St2) (h h' : Host)
    (e : Error) (has_onSuccess : bool) :
  truthy (deserialize text) = true -> typeof_object (deserialize text) = true ->
  saveToIndexedDB (deserialize text) h = (h', SaveFailed e) ->
  importSave fs h (OK text) has_onSuccess true
  = (restoreSaveFiles (deserialize text) fs, h', [CallOnError e])
  /\ idb_record h' = idb_record h /\ ls_record h' = ls_record h.
Proof.
  intros Ht Ho Es. split.
  - unfold importSave. rewrite Ht, Ho, Es. reflexivity.
  - exact (save_failure_records _ _ _ _ Es).
Qed.

(** X9.  Through the published object an import shows a message only when
    the save succeeded.  A file that cannot be read or content that fails
    the check changes nothing and shows nothing; a save that fails shows
    nothing either, although the tree has been changed. *)
Theorem published_import_is_silent_on_failure (fs : St2) (h : Host) :
  (forall e, SonicSaveManager_importSave fs h (Err e) = (fs, h, []))
  /\ (forall text,
        truthy (deserialize text) = false \/ typeof_object (deserialize text) = false ->
        SonicSaveManager_importSave fs h (OK text) = (fs, h, []))
  /\ (forall text h' e,
        truthy (deserialize text) = true -> typeof_object (deserialize text) = true ->
        saveToIndexedDB (deserialize text) h = (h', SaveFailed e) ->
        SonicSaveManager_importSave fs h (OK text)
        = (restoreSaveFiles (deserialize text) fs, h', []))
  /\ (forall text h',
        truthy (deserialize text) = true -> typeof_object (deserialize text) = true ->
        saveToIndexedDB (deserialize text) h = (h', Saved) ->
        SonicSaveManager_importSave fs h (OK text)
        = (restoreSaveFiles (deserialize text) fs, h', [Alert import_done])).
Proof.
  unfold SonicSaveManager_importSave, importSave. repeat split.
  - intros text [-> | ->]; cbn [negb orb]; rewrite ?orb_true_r; reflexivity.
  - intros text h' e -> -> ->. reflexivity.
  - intros text h' -> -> ->. reflexivity.
Qed.

End FlowProperties.

Lemma slot1_snapshot_wf : Snapshot_wf slot1_snapshot.
Proof.
  split.
  - repeat constructor. simpl. tauto.
  - repeat constructor; simpl; lia.
Qed.

Lemma autosave_then_preload_witness :
  exists h1,
    doSave demo_fs bare_host = Some (h1, Some Saved)
    /\ preload (∅ : MemFS) h1
       = (restoreSaveFiles (snapshot_value slot1_snapshot) (∅ : MemFS), h1).
Proof.
  eexists. split; [vm_compute; reflexivity|].
  apply (autosave_then_preload demo_fs slot1_snapshot bare_host).
  - reflexivity.
  - exact slot1_snapshot_wf.
  - reflexivity.
  - vm_compute. reflexivity.
Defined.

Lemma import_then_preload_witness :
  exists text fs' h',
    importSave (∅ : MemFS) bare_host (OK text) true true = (fs', h', [CallOnSuccess])
    /\ fs' = restoreSaveFiles (snapshot_value slot1_snapshot) (∅ : MemFS)
    /\ preload (∅ : MemFS) h'
       = (restoreSaveFiles (snapshot_value slot1_snapshot) (∅ : MemFS), h').
Proof.
  exists (Base64.encode (JSON.stringify (snapshot_value slot1_snapshot))).
  eexists _, _.
  assert (Hd : deserialize (Base64.encode (JSON.stringify (snapshot_value slot1_snapshot)))
               = snapshot_value slot1_snapshot) by (vm_compute; reflexivity).
  assert (Hi : importSave (∅ : MemFS) bare_host
                 (OK (Base64.encode (JSON.stringify (snapshot_value slot1_snapshot))))
                 true true
               = (restoreSaveFiles (snapshot_value slot1_snapshot) (∅ : MemFS),
                  fst (saveToIndexedDB (snapshot_value slot1_snapshot) bare_host),
                  [CallOnSuccess])).
  { unfold importSave. rewrite Hd. reflexivity. }
  split; [exact Hi|].
  exact (import_then_preload slot1_snapshot _ ∅ _ ∅ bare_host _
           slot1_snapshot_wf ltac:(discriminate) Hd eq_refl Hi).
Defined.

Lemma failed_import_is_not_undone_witness :
  deserialize euro_file = snapshot_value euro_snapshot
  /\ importSave (∅ : MemFS) bare_host (OK euro_file) true true
     = (restoreSaveFiles (snapshot_value euro_snapshot) (∅ : MemFS), bare_host,
        [CallOnError InvalidCharacterError])
  /\ idb_record bare_host = None /\ ls_record bare_host = None.
Proof.
  assert (Hd : deserialize euro_file = snapshot_value euro_snapshot)
    by (vm_compute; reflexivity).
  split; [exact Hd|].
  destruct (failed_import_is_not_undone euro_file (∅ : MemFS) bare_host bare_host
              InvalidCharacterError true) as (Hi & Hr & Hl).
  - rewrite Hd. reflexivity.
  - rewrite Hd. reflexivity.
  - rewrite Hd. vm_compute. reflexivity.
  - rewrite Hd in Hi. split; [exact Hi|]. split; reflexivity.
Defined.

Lemma published_import_is_silent_on_failure_witness :
  SonicSaveManager_importSave (∅ : MemFS) bare_host (Err (HostError (js "NotReadableError")))
  = (∅, bare_host, [])
  /\ SonicSaveManager_importSave (∅ : MemFS) bare_host (OK (js "not json"))
     = (∅, bare_host, [])
  /\ SonicSaveManager_importSave (∅ : MemFS) bare_host (OK euro_file)
     = (restoreSaveFiles (deserialize euro_file) (∅ : MemFS), bare_host, []).
Proof.
  destruct (published_import_is_silent_on_failure (∅ : MemFS) bare_host)
    as (H1 & H2 & H3 & _).
  split; [apply H1|]. split.
  - apply H2. left. vm_compute. reflexivity.
  - apply (H3 euro_file bare_host InvalidCharacterError); vm_compute; reflexivity.
Defined.

Section MoreFlowProperties.
Context {St1 : Type} `{FSReader St1} {St2 : Type} `{FSWriter St2}.

(** X6.  Export, then import.  When the collected files are a snapshot that
    is not empty and whose paths are in Latin-1, [exportSave] starts one
    download, named after the first ten characters of the date, and that
    content given to [importSave] passes its check, is restored as the
    collected snapshot and is saved as such. *)
Theorem export_then_import (fs : St1) (S : Snapshot) (now : jsstring) :
  collectSaveFiles fs = Some (snapshot_members S) ->
  Snapshot_wf S -> latin1_paths S -> S <> [] ->
  exists content,
    exportSave fs now
    = Some (OK [Download (js "sonic1-save-" ++ firstn 10 now ++ js ".bin") content])
    /\ forall (fs2 : St2) (h : Host) (has_onSuccess has_onError : bool),
         fst (importSave fs2 h (OK content) has_onSuccess has_onError)
         = (restoreSaveFiles (snapshot_value S) fs2,
            fst (saveToIndexedDB (snapshot_value S) h)).
Proof.
  intros Hc Hwf Hl Hne.
  assert (Hs : serialize (snapshot_value S)
               = OK (Base64.encode (JSON.stringify (snapshot_value S)))).
  { unfold serialize. apply btoa_latin1. now apply snapshot_json_latin1. }
  exists (Base64.encode (JSON.stringify (snapshot_value S))). split.
  - unfold exportSave. rewrite Hc.
    change (JObject (snapshot_members S)) with (snapshot_value S).
    rewrite Hs. destruct S as [|e S]; [congruence|]. reflexivity.
  - intros fs2 h s e. unfold importSave.
    rewrite (deserialize_serialize S _ Hwf Hs).
    cbn [truthy typeof_object snapshot_value negb orb].
    change (JObject (List.map _ S)) with (snapshot_value S).
    destruct (saveToIndexedDB (snapshot_value S) h) as [h' [|err]]; reflexivity.
Qed.

(** X10.  The preload has no check of the type of what it loaded.  Whatever
    the record of the fallback store decodes to, an array or a string as
    well as an object, is restored if it is truthy and has a key (the read
    of the record not failing). *)
Theorem preload_restores_any_value (fs : St2) (h : Host) (str : jsstring) :
  getIndexedDB h = false -> getItem_fault h = None ->
  ls_record h = Some str -> str <> [] ->
  truthy (deserialize str) = true -> 0 < keys_length (deserialize str) ->
  preload fs h = (restoreSaveFiles (deserialize str) fs, h).
Proof.
  intros Hg Hf Hr Hne Ht Hk. unfold preload.
  rewrite (loadFromIndexedDB_absent _ Hg), (loadFromLocalStorage_stored _ str Hf Hr).
  destruct str as [|c s]; [congruence|]. cbn [decode_stored].
  apply N.ltb_lt in Hk. now rewrite Ht, Hk.
Qed.

(** X11.  Where the backend in use holds no record, the preload leaves the
    tree as it is, whichever fault the host has. *)
Theorem preload_without_record (fs : St2) (h : Host) :
  (getIndexedDB h = true -> idb_record h = None) ->
  (getIndexedDB h = false -> ls_record h = None) ->
  fst (preload fs h) = fs.
Proof.
  intros Hi Hl. unfold preload, loadFromIndexedDB.
  destruct (getIndexedDB h) eqn:Hg; cbn [negb].
  - specialize (Hi eq_refl). unfold loadViaIndexedDB.
    destruct (idb_open h IDB_NAME IDB_VERSION None) as [h1 r] eqn:Eo.
    destruct r as [db|e]; [|reflexivity].
    destruct (idb_open_record h _ h1 _ (or_introl eq_refl) Eo) as [Hr _].
    destruct (idb_open_ok h _ h1 db (or_introl eq_refl) Eo) as (Ed & _).
    destruct (db_stores db !! IDB_STORE) as [content|] eqn:Ec; [|reflexivity].
    destruct (transaction_fault h1); [reflexivity|].
    destruct (get_fault h1); [reflexivity|].
    rewrite <- (idb_record_lookup h1 db content Ed Ec), Hr, Hi. reflexivity.
  - specialize (Hl eq_refl). unfold loadFromLocalStorage.
    destruct (getItem_fault h); [reflexivity|].
    unfold ls_record in Hl. rewrite Hl. reflexivity.
Qed.

(** X12.  On a first start with IndexedDB nothing is ever stored.  Where the
    database does not exist yet and opening it does not fail, the preload
    restores nothing and leaves a host on which every [doSave] that returns
    either makes no save or ends with the object-store error, the host and
    the records staying as they are. *)
Theorem first_start_never_stores (fs0 : St2) (h : Host) :
  getIndexedDB h = true -> open_fault h = None ->
  databases h !! IDB_NAME = None ->
  exists h1,
    preload fs0 h = (fs0, h1)
    /\ idb_record h1 = None
    /\ forall (fs : St1) r,
         doSave fs h1 = Some r ->
         r = (h1, None) \/ r = (h1, Some (SaveFailed store_not_found)).
Proof.
  intros Hg Ho Hd.
  set (db := {| db_version := IDB_VERSION; db_stores := ∅ |}).
  set (h1 := set_databases h (<[IDB_NAME := db]> (databases h))).
  assert (E : loadFromIndexedDB h = (h1, Loaded JNull)).
  { rewrite (loadFromIndexedDB_present _ Hg). unfold loadViaIndexedDB, idb_open.
    rewrite Ho, Hd. reflexivity. }
  assert (Hs : storeless_database h1).
  { exists db. unfold h1. cbn [databases set_databases].
    rewrite lookup_insert_eq. repeat split. }
  destruct (storeless_database_stuck h1 Hg Ho Hs) as [Hsave _].
  exists h1. split; [unfold preload; now rewrite E|]. split.
  - unfold idb_record, h1. cbn [databases set_databases].
    rewrite lookup_insert_eq. reflexivity.
  - intros fs r. unfold doSave.
    destruct (collectSaveFiles fs) as [files|]; [|discriminate].
    destruct (0 <? keys_length (JObject files)).
    + rewrite Hsave. intros [= <-]. now right.
    + intros [= <-]. now left.
Qed.

End MoreFlowProperties.

Lemma slot1_snapshot_latin1 : latin1_paths slot1_snapshot.
Proof. repeat constructor; simpl; lia. Qed.

Lemma demo_collects_slot1 :
  collectSaveFiles demo_fs = Some (snapshot_members slot1_snapshot).
Proof. reflexivity. Qed.

Lemma export_then_import_witness :
  exists content,
    exportSave demo_fs (js "2026-01-31T10:00:00.000Z")
    = Some (OK [Download (js "sonic1-save-2026-01-31.bin") content])
    /\ fst (importSave (∅ : MemFS) bare_host (OK content) true true)
       = (restoreSaveFiles (snapshot_value slot1_snapshot) (∅ : MemFS),
          fst (saveToIndexedDB (snapshot_value slot1_snapshot) bare_host)).
Proof.
  destruct (export_then_import (St2 := MemFS) demo_fs slot1_snapshot
              (js "2026-01-31T10:00:00.000Z") demo_collects_slot1
              slot1_snapshot_wf slot1_snapshot_latin1 ltac:(discriminate))
    as (content & He & Hi).
  exists content. split; [exact He|]. apply Hi.
Defined.

Lemma preload_restores_any_value_witness :
  deserialize (js "W1sxXV0=") = JArray [JArray [JNumber (Finite 1 0)]]
  /\ preload (∅ : MemFS) array_record_host
     = (<[ [js "0"] := File restored_mode [1] ]> ∅, array_record_host).
Proof.
  assert (Hd : deserialize (js "W1sxXV0=") = JArray [JArray [JNumber (Finite 1 0)]])
    by (vm_compute; reflexivity).
  split; [exact Hd|].
  assert (Hr : restoreSaveFiles (deserialize (js "W1sxXV0=")) (∅ : MemFS)
               = <[ [js "0"] := File restored_mode [1] ]> ∅)
    by (vm_compute; reflexivity).
  rewrite <- Hr.
  apply (preload_restores_any_value (∅ : MemFS) array_record_host (js "W1sxXV0=")).
  - reflexivity.
  - reflexivity.
  - reflexivity.
  - discriminate.
  - rewrite Hd. reflexivity.
  - rewrite Hd. reflexivity.
Defined.

Lemma preload_without_record_witness :
  idb_record fresh_host = None
  /\ fst (preload (<[ [js "kept"] := File restored_mode [9] ]> ∅ : MemFS) fresh_host)
     = <[ [js "kept"] := File restored_mode [9] ]> ∅.
Proof.
  split; [reflexivity|].
  apply (preload_without_record _ fresh_host).
  - intros _. reflexivity.
  - intros Hg. discriminate Hg.
Defined.

Lemma first_start_never_stores_witness :
  exists h1,
    preload (∅ : MemFS) fresh_host = (∅, h1)
    /\ idb_record h1 = None
    /\ doSave demo_fs h1 = Some (h1, Some (SaveFailed store_not_found)).
Proof.
  destruct (first_start_never_stores (St1 := DemoFS) (∅ : MemFS) fresh_host
              eq_refl eq_refl eq_refl) as (h1 & Hp & Hr & Hd).
  exists h1. split; [exact Hp|]. split; [exact Hr|].
  assert (E : exists r, doSave demo_fs h1 = Some r /\ snd r <> None).
  { unfold doSave. rewrite demo_collects_slot1.
    change (0 <? keys_length (JObject (snapshot_members slot1_snapshot))) with true.
    cbv iota.
    destruct (saveToIndexedDB (JObject (snapshot_members slot1_snapshot)) h1) as [h' o].
    eexists. split; [reflexivity|]. discriminate. }
  destruct E as (r & E & Hn). rewrite E.
  destruct (Hd demo_fs r E) as [-> | ->]; [|reflexivity].
  now contradiction Hn.
Defined.

(** ** The collector *)

Section ObjectSetFacts.

Lemma obj_get_Some_key k v o : obj_get k o = Some v -> In k (List.map fst o).
Proof.
  induction o as [|[k' v'] o IH]; simpl; [discriminate|].
  destruct (string_eqb k k') eqn:E.
  - apply string_eqb_eq in E. now left.
  - intros Hg. right. now apply IH.
Qed.

Lemma obj_get_not_None k o : In k (List.map fst o) -> obj_get k o <> None.
Proof.
  induction o as [|[k' v'] o IH]; simpl; [tauto|].
  destruct (string_eqb k k') eqn:E; [discriminate|].
  apply string_eqb_neq in E. intros [Hk | Hin]; [congruence | now apply IH].
Qed.

Lemma obj_get_replace k v o k' :
  obj_get k' (obj_replace k v o)
  = if string_eqb k' k then option_map (fun _ => v) (obj_get k o) else obj_get k' o.
Proof.
  induction o as [|[k0 v0] o IH]; simpl.
  - now destruct (string_eqb k' k).
  - destruct (string_eqb k k0) eqn:E0; simpl.
    + apply string_eqb_eq in E0. subst k0.
      destruct (string_eqb k' k); reflexivity.
    + rewrite IH. destruct (string_eqb k' k0) eqn:E1; [|reflexivity].
      apply string_eqb_eq in E1. subst k0.
      destruct (string_eqb k' k) eqn:E2; [|reflexivity].
      apply string_eqb_eq in E2. subst. rewrite string_eqb_refl in E0. discriminate.
Qed.

Lemma obj_get_insert_index n k v o k' :
  obj_get k o = None ->
  obj_get k' (obj_insert_index n k v o)
  = if string_eqb k' k then Some v else obj_get k' o.
Proof.
  induction o as [|[k0 v0] o IH]; simpl; intros Hn.
  - now destruct (string_eqb k' k).
  - destruct (string_eqb k k0) eqn:E0; [discriminate|].
    assert (Hk : string_eqb k' k = true -> string_eqb k' k0 = false).
    { intros E. apply string_eqb_eq in E. now subst. }
    destruct (array_index k0) as [n'|]; [destruct (n' <? n)|]; simpl;
      try (destruct (string_eqb k' k) eqn:E1; [reflexivity|reflexivity]).
    rewrite (IH Hn). destruct (string_eqb k' k) eqn:E1; [|reflexivity].
    now rewrite (Hk eq_refl).
Qed.

Lemma obj_get_app k o1 o2 :
  obj_get k (o1 ++ o2)
  = match obj_get k o1 with Some v => Some v | None => obj_get k o2 end.
Proof.
  induction o1 as [|[k0 v0] o1 IH]; simpl; [reflexivity|].
  now destruct (string_eqb k k0).
Qed.

(** Reading a property after setting one. *)
Lemma obj_get_obj_set k v o k' :
  obj_get k' (obj_set k v o) = if string_eqb k' k then Some v else obj_get k' o.
Proof.
  unfold obj_set. destruct (obj_get k o) as [v0|] eqn:Eg.
  - rewrite obj_get_replace, Eg. reflexivity.
  - destruct (array_index k) as [n|].
    + now apply obj_get_insert_index.
    + rewrite obj_get_app. simpl.
      destruct (string_eqb k' k) eqn:E.
      * apply string_eqb_eq in E. subst. now rewrite Eg.
      * now destruct (obj_get k' o).
Qed.

Lemma obj_insert_index_keys_perm n k v o :
  forall k', In k' (List.map fst (obj_insert_index n k v o))
             <-> k' = k \/ In k' (List.map fst o).
Proof.
  induction o as [|[k0 v0] o IH]; intros k'; simpl.
  - intuition.
  - destruct (array_index k0) as [n'|]; [destruct (n' <? n)|]; simpl;
      rewrite ?IH; intuition.
Qed.

Lemma obj_insert_index_NoDup n k v o :
  ~ In k (List.map fst o) -> List.NoDup (List.map fst o) ->
  List.NoDup (List.map fst (obj_insert_index n k v o)).
Proof.
  induction o as [|[k0 v0] o IH]; simpl; intros Hn Hd.
  - constructor; [tauto | constructor].
  - assert (Hc : List.NoDup (k :: k0 :: List.map fst o)).
    { constructor; [simpl; tauto | exact Hd]. }
    destruct (array_index k0) as [n'|]; [destruct (n' <? n)|]; simpl; try exact Hc.
    inversion Hd as [|? ? Hk0 Hd']; subst. constructor.
    + rewrite obj_insert_index_keys_perm. intros [-> | Hin]; tauto.
    + apply IH; tauto.
Qed.

(** Setting a property keeps the keys distinct. *)
Lemma obj_set_NoDup k v o :
  List.NoDup (List.map fst o) -> List.NoDup (List.map fst (obj_set k v o)).
Proof.
  intros Hd. unfold obj_set. destruct (obj_get k o) as [v0|] eqn:Eg.
  - now rewrite obj_replace_keys.
  - assert (Hn : ~ In k (List.map fst o)).
    { intros Hin. now apply obj_get_not_None in Hin. }
    destruct (array_index k) as [n|].
    + now apply obj_insert_index_NoDup.
    + rewrite List.map_app. simpl.
      apply List.NoDup_app; [exact Hd | repeat constructor; simpl; tauto |].
      intros x Hx [<- | []]. tauto.
Qed.

End ObjectSetFacts.

Section CollectorProperties.
Context {St : Type} `{FSReader St}.

(** What the walk comes to is a regular file that can be read. *)
Lemma reaches_readable fs dir target data :
  reaches fs dir target data ->
  exists st, stat fs target = OK st /\ read_file fs target st = OK data.
Proof. induction 1; eauto. Qed.

Lemma walk_entries_keeps_target fs target st data walk_dir path entries :
  stat fs target = OK st -> read_file fs target st = OK data ->
  forall files files',
  (forall p f f', has_target target data f -> walk_dir p f = Some f' -> has_target target data f') ->
  has_target target data files ->
  walk_entries walk_dir fs path entries files = Some files' ->
  has_target target data files'.
Proof.
  intros target_stat target_read.
  induction entries as [|name rest IH]; intros files files' Hrec Hk; simpl.
  - now intros [= <-].
  - destruct (string_eqb name (js ".") || string_eqb name (js "..")); [now apply IH|].
    destruct (skipped (child_path path name)); [now apply IH|].
    destruct (stat fs (child_path path name)) as [st'|e] eqn:Es; [|now apply IH].
    destruct (isDir (st_mode st')).
    + destruct (walk_dir (child_path path name) files) as [f1|] eqn:Ew; [|discriminate].
      apply IH; [exact Hrec|]. exact (Hrec _ _ _ Hk Ew).
    + destruct (read_file fs (child_path path name) st') as [d|e] eqn:Er.
      * apply IH; [exact Hrec|]. unfold has_target. rewrite obj_get_obj_set.
        destruct (string_eqb target (child_path path name)) eqn:E; [|exact Hk].
        apply string_eqb_eq in E. subst target.
        rewrite target_stat in Es. injection Es as <-.
        rewrite target_read in Er. now injection Er as <-.
      * now apply IH.
Qed.

Lemma walk_keeps_target fs target st data fuel :
  stat fs target = OK st -> read_file fs target st = OK data ->
  forall path files files',
  has_target target data files -> walk fuel fs path files = Some files' -> has_target target data files'.
Proof.
  intros target_stat target_read.
  induction fuel as [|fuel IH]; intros path files files' Hk; simpl; [discriminate|].
  destruct (readdir fs (or_root path)) as [entries|e].
  - apply (walk_entries_keeps_target fs target st data _ _ _ target_stat target_read);
      [|exact Hk].
    intros p f f'. apply IH.
  - now intros [= <-].
Qed.

(** The loop over a listing that names the file collects it. *)
Lemma walk_entries_finds_file fs target st data walk_dir path entries name :
  stat fs target = OK st -> read_file fs target st = OK data ->
  forall files files',
  (forall p f f', has_target target data f -> walk_dir p f = Some f' -> has_target target data f') ->
  In name entries ->
  string_eqb name (js ".") || string_eqb name (js "..") = false ->
  skipped (child_path path name) = false ->
  child_path path name = target ->
  isDir (st_mode st) = false ->
  walk_entries walk_dir fs path entries files = Some files' ->
  has_target target data files'.
Proof.
  intros target_stat target_read files files' Hrec Hin Hdot Hskip Hchild Hdir.
  revert files files'.
  induction entries as [|x rest IH]; intros files files'; [destruct Hin|].
  destruct Hin as [-> | Hin].
  - simpl. rewrite Hdot, Hskip, Hchild, target_stat, Hdir, target_read.
    apply (walk_entries_keeps_target fs target st data _ _ _ target_stat target_read);
      [exact Hrec|].
    unfold has_target. now rewrite obj_get_obj_set, string_eqb_refl.
  - simpl.
    destruct (string_eqb x (js ".") || string_eqb x (js "..")); [now apply IH|].
    destruct (skipped (child_path path x)); [now apply IH|].
    destruct (stat fs (child_path path x)) as [st'|e]; [|now apply IH].
    destruct (isDir (st_mode st')).
    + destruct (walk_dir (child_path path x) files) as [f1|]; [|discriminate].
      now apply IH.
    + destruct (read_file fs (child_path path x) st'); now apply IH.
Qed.

(** The loop over a listing that names a directory whose walk collects the
    file collects it. *)
Lemma walk_entries_finds_dir fs target st data walk_dir path entries name st' :
  stat fs target = OK st -> read_file fs target st = OK data ->
  forall files files',
  (forall p f f', has_target target data f -> walk_dir p f = Some f' -> has_target target data f') ->
  (forall f f', walk_dir (child_path path name) f = Some f' -> has_target target data f') ->
  In name entries ->
  string_eqb name (js ".") || string_eqb name (js "..") = false ->
  skipped (child_path path name) = false ->
  stat fs (child_path path name) = OK st' ->
  isDir (st_mode st') = true ->
  walk_entries walk_dir fs path entries files = Some files' ->
  has_target target data files'.
Proof.
  intros target_stat target_read files files' Hrec Hsub Hin Hdot Hskip Hstat Hdir.
  revert files files'.
  induction entries as [|x rest IH]; intros files files'; [destruct Hin|].
  destruct Hin as [-> | Hin].
  - simpl. rewrite Hdot, Hskip, Hstat, Hdir.
    destruct (walk_dir (child_path path name) files) as [f1|] eqn:Ew; [|discriminate].
    apply (walk_entries_keeps_target fs target st data _ _ _ target_stat target_read);
      [exact Hrec|].
    exact (Hsub _ _ Ew).
  - simpl.
    destruct (string_eqb x (js ".") || string_eqb x (js "..")); [now apply IH|].
    destruct (skipped (child_path path x)); [now apply IH|].
    destruct (stat fs (child_path path x)) as [st''|e]; [|now apply IH].
    destruct (isDir (st_mode st'')).
    + destruct (walk_dir (child_path path x) files) as [f1|]; [|discriminate].
      now apply IH.
    + destruct (read_file fs (child_path path x) st''); now apply IH.
Qed.



(** The walk collects every file it reaches. *)
Lemma walk_collects fs dir target data :
  reaches fs dir target data ->
  forall fuel files files',
    walk fuel fs dir files = Some files' ->
    obj_get target files' = Some (JArray data).
Proof.
  intros Hr. destruct (reaches_readable _ _ _ _ Hr) as (stt & Hst & Hrd).
  induction Hr as [dir entries name st data Hl Hin Hdot Hskip Hstat Hdir Hread
                  |dir entries name st target data Hl Hin Hdot Hskip Hstat Hdir Hsub IH];
    intros fuel files files'; (destruct fuel as [|fuel]; [discriminate|]);
    simpl; rewrite Hl.
  - apply (walk_entries_finds_file fs _ st data _ _ _ name Hstat Hread);
      auto.
    intros p f f'. now apply (walk_keeps_target fs _ st data).
  - apply (walk_entries_finds_dir fs target stt data _ _ _ name st Hst Hrd);
      auto.
    + intros p f f'. now apply (walk_keeps_target fs _ stt data).
    + intros f f'. now apply IH.
Qed.

(** X13.  The traversal collects every readable file.  On a tree whose
    directories nest to a finite depth, a regular file that
    the walk from the root reaches (every directory on the way is listed and
    entered, nothing on the way is filtered out, the file opens, reads and
    closes) is a key of the result, with what it read as its value, whatever
    happens with the other entries. *)
Theorem collects_every_readable_file (fs : St) (target : jsstring)
    (data : list JSValue) :
  reader_wf fs -> reaches fs (js "/") target data ->
  exists files,
    collectSaveFiles fs = Some files
    /\ obj_get target files = Some (JArray data).
Proof.
  intros Hwf Hr. destruct (collectSaveFiles_returns fs Hwf) as (files & E & _).
  exists files. split; [exact E|].
  exact (walk_collects fs _ _ _ Hr _ _ _ E).
Qed.

End CollectorProperties.

Section TidyFacts.

Lemma obj_replace_entries k v o e :
  In e (obj_replace k v o) -> e = (k, v) \/ In e o.
Proof.
  induction o as [|[k0 v0] o IH]; simpl; [tauto|].
  destruct (string_eqb k k0) eqn:E; simpl.
  - apply string_eqb_eq in E. subst. intros [<- | Hin]; auto.
  - intros [<- | Hin]; [auto|]. destruct (IH Hin); auto.
Qed.

Lemma obj_insert_index_entries n k v o e :
  In e (obj_insert_index n k v o) -> e = (k, v) \/ In e o.
Proof.
  induction o as [|[k0 v0] o IH]; simpl.
  - intros [<- | []]. now left.
  - destruct (array_index k0) as [n'|]; [destruct (n' <? n)|]; simpl;
      try (intros [<- | [<- | Hin]]; auto).
    intros [<- | Hin]; [auto|]. destruct (IH Hin); auto.
Qed.

Lemma obj_set_entries k v o e : In e (obj_set k v o) -> e = (k, v) \/ In e o.
Proof.
  unfold obj_set. destruct (obj_get k o).
  - apply obj_replace_entries.
  - destruct (array_index k).
    + apply obj_insert_index_entries.
    + rewrite in_app_iff. simpl. intros [Hin | [<- | []]]; auto.
Qed.

Lemma tidy_obj_set q data files :
  tidy_files files -> tidy_files (obj_set (slash :: q) (JArray data) files).
Proof.
  intros [Hd Hf]. split; [now apply obj_set_NoDup|].
  rewrite List.Forall_forall in *. intros e He.
  destruct (obj_set_entries _ _ _ _ He) as [-> | Hin]; [|now apply Hf].
  cbn [fst snd]. eauto.
Qed.

Lemma child_path_absolute path name :
  (exists q, path = slash :: q) -> exists q, child_path path name = slash :: q.
Proof.
  intros (q & ->). unfold child_path.
  destruct (string_eqb (slash :: q) (js "/")); eexists; reflexivity.
Qed.

End TidyFacts.

Section TidyCollector.
Context {St : Type} `{FSReader St}.

Lemma walk_entries_tidy walk_dir fs path entries : forall files files',
  (exists q, path = slash :: q) ->
  (forall p f f', (exists q, p = slash :: q) -> tidy_files f ->
                  walk_dir p f = Some f' -> tidy_files f') ->
  tidy_files files ->
  walk_entries walk_dir fs path entries files = Some files' ->
  tidy_files files'.
Proof.
  induction entries as [|name rest IH]; intros files files' Hp Hrec Hk; simpl.
  - now intros [= <-].
  - destruct (string_eqb name (js ".") || string_eqb name (js "..")); [now apply IH|].
    destruct (skipped (child_path path name)); [now apply IH|].
    destruct (stat fs (child_path path name)) as [st|e]; [|now apply IH].
    destruct (child_path_absolute path name Hp) as (q & Eq).
    destruct (isDir (st_mode st)).
    + destruct (walk_dir (child_path path name) files) as [f1|] eqn:Ew; [|discriminate].
      apply IH; [exact Hp | exact Hrec|]. apply (Hrec _ _ _ (ex_intro _ q Eq) Hk Ew).
    + destruct (read_file fs (child_path path name) st) as [data|e].
      * apply IH; [exact Hp | exact Hrec|]. rewrite Eq. now apply tidy_obj_set.
      * now apply IH.
Qed.

Lemma walk_tidy fuel fs : forall path files files',
  (exists q, path = slash :: q) -> tidy_files files ->
  walk fuel fs path files = Some files' -> tidy_files files'.
Proof.
  induction fuel as [|fuel IH]; intros path files files' Hp Hk; simpl; [discriminate|].
  assert (Hr : or_root path = path) by (destruct Hp as (q & ->); reflexivity).
  rewrite Hr.
  destruct (readdir fs path) as [entries|e].
  - apply walk_entries_tidy; [exact Hp| |exact Hk]. intros p f f'. apply IH.
  - now intros [= <-].
Qed.

(** X14.  What the traversal returns is tidy: no key occurs twice, every
    key is an absolute path (it starts with [/]) and every value is an
    array. *)
Theorem collected_files_are_tidy (fs : St) (files : list (jsstring * JSValue)) :
  collectSaveFiles fs = Some files ->
  List.NoDup (List.map fst files)
  /\ forall k v, In (k, v) files ->
       (exists q, k = slash :: q) /\ exists data, v = JArray data.
Proof.
  intros E. unfold collectSaveFiles in E.
  assert (Ht : tidy_files files).
  { assert (Hn : tidy_files []) by (split; constructor).
    exact (walk_tidy _ fs (js "/") [] files (ex_intro _ [] eq_refl) Hn E). }
  destruct Ht as [Hd Hf]. split; [exact Hd|].
  intros k v Hin. rewrite List.Forall_forall in Hf. exact (Hf _ Hin).
Qed.

End TidyCollector.

Lemma collected_files_are_tidy_witness :
  collectSaveFiles demo_fs = Some (snapshot_members slot1_snapshot)
  /\ List.NoDup (List.map fst (snapshot_members slot1_snapshot))
  /\ forall k v, In (k, v) (snapshot_members slot1_snapshot) ->
       (exists q, k = slash :: q) /\ exists data, v = JArray data.
Proof.
  split; [exact demo_collects_slot1|].
  exact (collected_files_are_tidy demo_fs _ demo_collects_slot1).
Defined.

(** ** Paths and segments *)

Section PathFacts.

Lemma render_cons seg segs : render (seg :: segs) = slash :: seg ++ render segs.
Proof. reflexivity. Qed.

Lemma render_app a b : render (a ++ b) = render a ++ render b.
Proof. unfold render. now rewrite List.map_app, concat_app. Qed.

Lemma render_snoc segs name : render (segs ++ [name]) = render segs ++ slash :: name.
Proof. rewrite render_app. unfold render. simpl. now rewrite app_nil_r. Qed.

Lemma valid_segment_facts seg :
  valid_segment seg = true ->
  seg <> [] /\ Forall (fun c => c <> slash) seg
  /\ seg <> js "." /\ seg <> js "..".
Proof.
  unfold valid_segment. destruct seg as [|c s]; [discriminate|].
  intros Hv. apply andb_true_iff in Hv as [Hv H2].
  apply andb_true_iff in Hv as [H0 H1].
  split; [discriminate|]. split; [|split].
  - rewrite forallb_forall in H0. apply List.Forall_forall. intros x Hx.
    specialize (H0 x Hx). apply negb_true_iff, N.eqb_neq in H0. exact H0.
  - apply negb_true_iff in H1. now apply string_eqb_neq.
  - apply negb_true_iff in H2. now apply string_eqb_neq.
Qed.

(** Splitting a text that has no separator, followed by more. *)
Lemma split_no_slash seg rest :
  Forall (fun c => c <> slash) seg ->
  split slash (seg ++ slash :: rest) = seg :: split slash rest.
Proof.
  induction 1 as [|c s Hc _ IH]; simpl.
  - reflexivity.
  - apply N.eqb_neq in Hc. now rewrite Hc, IH.
Qed.

Lemma split_last seg :
  Forall (fun c => c <> slash) seg -> split slash seg = [seg].
Proof.
  induction 1 as [|c s Hc _ IH]; simpl; [reflexivity|].
  apply N.eqb_neq in Hc. now rewrite Hc, IH.
Qed.

Lemma split_seg_render seg segs :
  Forall (fun c => c <> slash) seg ->
  Forall (fun s => Forall (fun c => c <> slash) s) segs ->
  split slash (seg ++ render segs) = seg :: segs.
Proof.
  intros Hs Hsegs. revert seg Hs.
  induction Hsegs as [|s segs Hs' _ IH]; intros seg Hs.
  - unfold render. simpl. rewrite app_nil_r. now apply split_last.
  - rewrite render_cons, split_no_slash by exact Hs. now rewrite IH.
Qed.

(** The path of valid segments splits into an empty piece and the segments. *)
Lemma split_render segs :
  valid_segments segs -> split slash (render segs) = [] :: segs.
Proof.
  intros Hv. apply (split_seg_render [] segs); [constructor|].
  eapply List.Forall_impl; [|exact Hv]. intros s Hs.
  now apply valid_segment_facts in Hs.
Qed.

(** A text is the join of its pieces, and no piece has a separator. *)
Lemma split_join p :
  join_slash (split slash p) = p
  /\ Forall (fun s => Forall (fun c => c <> slash) s) (split slash p)
  /\ split slash p <> [].
Proof.
  induction p as [|c p (IH1 & IH2 & IH3)]; simpl.
  - repeat split; [repeat constructor | discriminate].
  - destruct (c =? slash) eqn:E.
    + apply N.eqb_eq in E. subst c. split; [|split; [|discriminate]].
      * unfold join_slash at 1. cbn [app].
        destruct (split slash p) as [|piece rest] eqn:Es; [congruence|].
        rewrite render_cons. f_equal. exact IH1.
      * constructor; [constructor | exact IH2].
    + apply N.eqb_neq in E.
      destruct (split slash p) as [|piece rest] eqn:Es; [congruence|].
      split; [|split; [|discriminate]].
      * unfold join_slash in *. simpl. now rewrite IH1.
      * apply Forall_cons_1 in IH2 as [Hp Hr]. constructor; [|exact Hr].
        now constructor.
Qed.

(** The normalized paths are the paths of one or more valid segments. *)
Lemma normalized_path_render p :
  normalized_path p = true <->
  exists dirs name, valid_segments (dirs ++ [name]) /\ p = render (dirs ++ [name]).
Proof.
  split.
  - unfold normalized_path. intros Hn.
    destruct (split_join p) as (Hj & _ & _).
    destruct (split slash p) as [|[|? ?] [|seg segs]]; try discriminate.
    assert (Hv : valid_segments (seg :: segs)).
    { unfold valid_segments. apply List.Forall_forall. intros s Hs.
      rewrite forallb_forall in Hn. now apply Hn. }
    destruct (exists_last (l := seg :: segs) ltac:(discriminate)) as (dirs & name & E).
    exists dirs, name. rewrite <- E. split; [exact Hv|].
    unfold join_slash in Hj. cbn [app] in Hj. now symmetry.
  - intros (dirs & name & Hv & ->). unfold normalized_path.
    rewrite (split_render _ Hv).
    destruct (dirs ++ [name]) as [|seg segs] eqn:E.
    + now destruct dirs.
    + apply forallb_forall. intros s Hs. unfold valid_segments in Hv.
      rewrite List.Forall_forall in Hv. now apply Hv.
Qed.

End PathFacts.

Section StringOps.

Lemma lastIndexOf_from_none c b : forall i found,
  Forall (fun x => x <> c) b -> lastIndexOf_from c b i found = found.
Proof.
  induction b as [|x b IH]; intros i found Hb; simpl; [reflexivity|].
  apply Forall_cons_1 in Hb as [Hx Hb]. apply N.eqb_neq in Hx.
  rewrite Hx. now apply IH.
Qed.

Lemma lastIndexOf_from_last c a b : forall i found,
  Forall (fun x => x <> c) b ->
  lastIndexOf_from c (a ++ c :: b) i found = (i + Z.of_nat (length a))%Z.
Proof.
  induction a as [|x a IH]; intros i found Hb; simpl lastIndexOf_from.
  - rewrite N.eqb_refl, lastIndexOf_from_none by exact Hb. simpl. lia.
  - rewrite IH by exact Hb. simpl length. lia.
Qed.

(** The last separator of a path is the one before its last segment. *)
Lemma lastIndexOf_render dirs name :
  Forall (fun x => x <> slash) name ->
  lastIndexOf slash (render (dirs ++ [name])) = Z.of_nat (length (render dirs)).
Proof.
  intros Hn. unfold lastIndexOf.
  now rewrite render_snoc, lastIndexOf_from_last.
Qed.

Lemma lastIndexOf_absent s :
  Forall (fun x => x <> slash) s -> lastIndexOf slash s = (-1)%Z.
Proof. intros Hs. unfold lastIndexOf. now apply lastIndexOf_from_none. Qed.

Lemma substring_prefix a b : substring (a ++ b) 0 (Z.of_nat (length a)) = a.
Proof.
  unfold substring. rewrite length_app.
  replace (Z.min (Z.max 0 0) (Z.of_nat (length a + length b))) with 0%Z by lia.
  replace (Z.min (Z.max (Z.of_nat (length a)) 0) (Z.of_nat (length a + length b)))
    with (Z.of_nat (length a)) by lia.
  replace (Z.min 0 (Z.of_nat (length a))) with 0%Z by lia.
  replace (Z.max 0 (Z.of_nat (length a))) with (Z.of_nat (length a)) by lia.
  rewrite Z.sub_0_r, Nat2Z.id. change (Z.to_nat 0) with 0%nat.
  rewrite drop_0. apply take_app_length.
Qed.

Lemma substring_from_suffix a b :
  substring_from (a ++ b) (Z.of_nat (length a)) = b.
Proof.
  unfold substring_from, substring. rewrite length_app.
  replace (Z.min (Z.max (Z.of_nat (length a)) 0) (Z.of_nat (length a + length b)))
    with (Z.of_nat (length a)) by lia.
  replace (Z.min (Z.max (Z.of_nat (length a + length b)) 0)
             (Z.of_nat (length a + length b)))
    with (Z.of_nat (length a + length b)) by lia.
  replace (Z.min (Z.of_nat (length a)) (Z.of_nat (length a + length b)))
    with (Z.of_nat (length a)) by lia.
  replace (Z.max (Z.of_nat (length a)) (Z.of_nat (length a + length b)))
    with (Z.of_nat (length a + length b)) by lia.
  replace (Z.to_nat (Z.of_nat (length a + length b) - Z.of_nat (length a)))
    with (length b) by lia.
  rewrite Nat2Z.id, drop_app_length. apply firstn_all.
Qed.

Lemma substring_empty s : substring s 0 (-1) = [].
Proof.
  unfold substring.
  replace (Z.min (Z.max 0 0) (Z.of_nat (length s))) with 0%Z by lia.
  replace (Z.min (Z.max (-1) 0) (Z.of_nat (length s))) with 0%Z by lia.
  reflexivity.
Qed.

Lemma substring_from_0 s : substring_from s 0 = s.
Proof. apply (substring_from_suffix [] s). Qed.

(** The directory part and the name part of a normalized path. *)
Lemma path_parts dirs name :
  valid_segments (dirs ++ [name]) ->
  let path := render (dirs ++ [name]) in
  substring path 0 (lastIndexOf slash path) = render dirs
  /\ substring_from path (lastIndexOf slash path + 1) = name.
Proof.
  intros Hv path.
  assert (Hn : Forall (fun x => x <> slash) name).
  { unfold valid_segments in Hv. apply List.Forall_app in Hv as [_ Hv].
    apply Forall_cons_1 in Hv as [Hv _]. now apply valid_segment_facts in Hv. }
  unfold path. rewrite (lastIndexOf_render dirs name Hn), render_snoc.
  split; [apply substring_prefix|].
  replace (Z.of_nat (length (render dirs)) + 1)%Z
    with (Z.of_nat (length (render dirs ++ [slash])))
    by (rewrite length_app; simpl; lia).
  change (render dirs ++ slash :: name) with (render dirs ++ [slash] ++ name).
  rewrite app_assoc. apply substring_from_suffix.
Qed.

Lemma split_nonempty_render segs :
  valid_segments segs -> split_nonempty (render segs) = segs.
Proof.
  intros Hv. unfold split_nonempty. rewrite (split_render segs Hv). simpl.
  induction Hv as [|s segs Hs _ IH]; [reflexivity|]. simpl.
  apply valid_segment_facts in Hs as (Hne & _).
  destruct s; [congruence|]. now rewrite IH.
Qed.

Lemma resolve_fold segs : forall stack,
  valid_segments segs ->
  fold_left
    (fun stack seg =>
       if string_eqb seg (js ".") then stack
       else if string_eqb seg (js "..") then removelast stack
       else stack ++ [seg]) segs stack
  = stack ++ segs.
Proof.
  induction segs as [|s segs IH]; intros stack Hv; simpl.
  - now rewrite app_nil_r.
  - apply Forall_cons_1 in Hv as [Hs Hv].
    apply valid_segment_facts in Hs as (_ & _ & H1 & H2).
    apply string_eqb_neq in H1, H2. rewrite H1, H2, IH by exact Hv.
    now rewrite <- app_assoc.
Qed.

(** The path of valid segments resolves to the segments. *)
Lemma resolve_render segs : valid_segments segs -> resolve (render segs) = segs.
Proof.
  intros Hv. unfold resolve. rewrite (split_nonempty_render segs Hv).
  apply (resolve_fold segs [] Hv).
Qed.

Lemma resolve_root_child name :
  valid_segment name = true -> resolve (js "/" ++ js "/" ++ name) = [name].
Proof.
  intros Hv. pose proof (valid_segment_facts name Hv) as (Hne & Hs & H1 & H2).
  unfold resolve, split_nonempty.
  change (js "/" ++ js "/" ++ name) with ([] ++ slash :: [] ++ slash :: name).
  rewrite split_no_slash by constructor.
  rewrite split_no_slash by constructor.
  rewrite (split_last name Hs). simpl.
  destruct name as [|c s]; [congruence|]. simpl.
  apply string_eqb_neq in H1, H2. now rewrite H1, H2.
Qed.

Lemma render_not_root d dirs :
  valid_segments (d :: dirs) -> string_eqb (render (d :: dirs)) (js "/") = false.
Proof.
  intros Hv. apply Forall_cons_1 in Hv as [Hd _].
  apply valid_segment_facts in Hd as (Hne & _).
  apply string_eqb_neq. rewrite render_cons. destruct d; [congruence|].
  discriminate.
Qed.

End StringOps.

(** ** The tree in memory, read *)

Section TreeReader.
Implicit Types (fs : MemFS) (dir k : list jsstring) (name : jsstring).

Lemma split_app a b :
  split slash (a ++ slash :: b)
  = removelast (split slash a) ++ [List.last (split slash a) []] ++ split slash b.
Proof.
  rewrite app_assoc, <- app_removelast_last; [|apply split_join].
  induction a as [|c a IH]; [reflexivity|]. cbn [app split].
  destruct (c =? slash); [now rewrite IH|].
  rewrite IH. destruct (split_join a) as (_ & _ & Hne).
  destruct (split slash a) as [|seg segs]; [congruence | reflexivity].
Qed.

Lemma split_nonempty_child path name :
  valid_segment name = true ->
  split_nonempty (path ++ slash :: name) = split_nonempty path ++ [name].
Proof.
  intros Hv. pose proof (valid_segment_facts name Hv) as (Hne & Hs & _).
  unfold split_nonempty. rewrite split_app, app_assoc.
  rewrite <- app_removelast_last by apply split_join.
  rewrite List.filter_app, (split_last name Hs). cbn [List.filter].
  destruct name; [congruence | reflexivity].
Qed.

Lemma resolve_child path name :
  valid_segment name = true ->
  resolve (child_path path name) = resolve path ++ [name].
Proof.
  intros Hv. pose proof (valid_segment_facts name Hv) as (_ & _ & H1 & H2).
  apply string_eqb_neq in H1, H2.
  assert (E : forall p, resolve (p ++ slash :: name) = resolve p ++ [name]).
  { intros p. unfold resolve. rewrite (split_nonempty_child p name Hv).
    rewrite fold_left_app. cbn [fold_left]. now rewrite H1, H2. }
  unfold child_path. destruct (string_eqb path (js "/")) eqn:Ep.
  - apply string_eqb_eq in Ep. subst path. exact (E []).
  - exact (E path).
Qed.

Lemma in_list_max x l : In x l -> (x <= list_max l)%nat.
Proof.
  intros Hin. pose proof (proj1 (list_max_le l (list_max l)) (Nat.le_refl _)) as Hf.
  rewrite List.Forall_forall in Hf. now apply Hf.
Qed.

(** A node is lower than the directory it is in. *)
Lemma tree_height_child fs dir name node :
  fs !! (dir ++ [name]) = Some node ->
  (tree_height fs (dir ++ [name]) < tree_height fs dir)%nat.
Proof.
  intros Hl. unfold tree_height.
  set (value := fun d (kv : list jsstring * Node) =>
                  if decide (d `prefix_of` fst kv)
                  then (length (fst kv) - length d)%nat else 0%nat).
  change (list_max (List.map (value (dir ++ [name])) (map_to_list fs))
          < list_max (List.map (value dir) (map_to_list fs)))%nat.
  set (h := list_max (List.map (value dir) (map_to_list fs))).
  assert (Hin : forall kv, In kv (map_to_list fs) -> (value dir kv <= h)%nat).
  { intros kv Hkv. apply in_list_max, in_map_iff. now exists kv. }
  assert (H1 : (1 <= h)%nat).
  { assert (Hk : In (dir ++ [name], node) (map_to_list fs)).
    { apply list_elem_of_In, elem_of_map_to_list. exact Hl. }
    specialize (Hin _ Hk). unfold value in Hin. cbn [fst] in Hin.
    destruct (decide (dir `prefix_of` dir ++ [name])) as [_|Hn].
    - rewrite length_app in Hin. simpl in Hin. lia.
    - exfalso. apply Hn. now exists [name]. }
  assert (H2 : (list_max (List.map (value (dir ++ [name])) (map_to_list fs)) <= h - 1)%nat).
  { apply list_max_le, List.Forall_forall. intros x Hx.
    apply in_map_iff in Hx as ([k nd] & <- & Hkv). specialize (Hin _ Hkv).
    unfold value in Hin |- *. cbn [fst] in Hin |- *.
    destruct (decide (dir ++ [name] `prefix_of` k)) as [[rest Hp]|_]; [|lia].
    subst k.
    destruct (decide (dir `prefix_of` (dir ++ [name]) ++ rest)) as [_|Hn].
    - rewrite !length_app in Hin |- *. cbn [length] in Hin |- *. lia.
    - exfalso. apply Hn. exists ([name] ++ rest). now rewrite <- app_assoc. }
  lia.
Qed.

Lemma in_children fs dir name :
  In name (children fs dir) ->
  exists node, fs !! (dir ++ [name]) = Some node.
Proof.
  intros Hin. apply list_elem_of_In, list_elem_of_omap in Hin as ([k node] & Hk & Hm).
  apply elem_of_map_to_list in Hk. cbn [fst] in Hm.
  assert (Hne : k <> []) by (intros ->; discriminate).
  assert (Hm' : (if decide (removelast k = dir) then Some (List.last k []) else None)
                = Some name) by (destruct k; [congruence | exact Hm]).
  destruct (decide (removelast k = dir)) as [<-|]; [|discriminate].
  injection Hm' as <-. exists node.
  now rewrite <- (app_removelast_last [] Hne).
Qed.

(** A tree of valid names, read with whatever [read], nests to a finite
    depth. *)
Lemma tree_reader_wf rd fs : MemFS_named fs -> reader_wf (H := mem_reader rd) fs.
Proof.
  intros Hn path entries name st Hr Hin Hdot _ Hs _.
  cbn [readdir stat fs_height mem_reader] in *. unfold mem_readdir in Hr.
  destruct (lookup_node fs (resolve path)) as [[m|m c]|]; try discriminate.
  injection Hr as <-. apply orb_false_iff in Hdot as [Hd1 Hd2].
  destruct Hin as [<- | [<- | Hin]];
    [rewrite string_eqb_refl in Hd1; discriminate
    |rewrite string_eqb_refl in Hd2; discriminate|].
  destruct (in_children fs _ _ Hin) as [node Hl].
  assert (Hv : valid_segment name = true).
  { pose proof (Hn _ _ Hl) as Hv. unfold valid_segments in Hv.
    apply List.Forall_app in Hv as [_ Hv]. now apply Forall_cons_1 in Hv as [Hv _]. }
  rewrite (resolve_child path name Hv).
  exact (tree_height_child fs _ name node Hl).
Qed.

Lemma game_tree_named : MemFS_named game_tree.
Proof.
  intros segs node Hl. unfold game_tree in Hl.
  repeat (apply lookup_insert_Some in Hl as [[<- _] | [_ Hl]];
          [repeat constructor|]).
  now rewrite lookup_empty in Hl.
Qed.

End TreeReader.

Lemma collects_every_readable_file_witness :
  @reaches MemFS (mem_reader read_bytes) game_tree (js "/") (js "/SaveData/slot1")
           (List.map (fun b => JNumber (number_of_N b)) [1; 2; 3])
  /\ exists files,
       @collectSaveFiles MemFS (mem_reader read_bytes) game_tree = Some files
       /\ obj_get (js "/SaveData/slot1") files = Some (bytes_value [1; 2; 3]).
Proof.
  assert (Hr : @reaches MemFS (mem_reader read_bytes) game_tree (js "/")
                 (js "/SaveData/slot1")
                 (List.map (fun b => JNumber (number_of_N b)) [1; 2; 3])).
  { apply (@reaches_dir MemFS (mem_reader read_bytes) game_tree (js "/")
             (js "." :: js ".." :: children game_tree [])
             (js "SaveData") {| st_mode := dir_mode; st_size := 4096 |});
      try reflexivity; [vm_compute; tauto|].
    apply (@reaches_file MemFS (mem_reader read_bytes) game_tree (js "/SaveData")
             (js "." :: js ".." :: children game_tree [js "SaveData"])
             (js "slot1") {| st_mode := 33206; st_size := 3 |});
      try reflexivity. vm_compute. tauto. }
  split; [exact Hr|].
  exact (@collects_every_readable_file MemFS (mem_reader read_bytes) game_tree _ _
           (tree_reader_wf read_bytes game_tree game_tree_named) Hr).
Defined.

(** ** The restorer on the tree in memory *)

Section EntryAtSegments.

Lemma mkdir_chain_at rest : forall done (fs : MemFS),
  valid_segments (done ++ rest) ->
  mkdir_chain rest (render done) fs = mkdir_at done rest fs.
Proof.
  induction rest as [|d rest IH]; intros done fs Hv; [reflexivity|].
  cbn [mkdir_chain mkdir_at].
  assert (Hv' : valid_segments ((done ++ [d]) ++ rest))
    by (now rewrite <- app_assoc).
  assert (Hd : valid_segments (done ++ [d])).
  { unfold valid_segments in *. apply List.Forall_app in Hv' as [Hv' _]. exact Hv'. }
  change (render done ++ js "/" ++ d) with (render done ++ slash :: d).
  rewrite <- render_snoc. cbn [mkdir mem_writer]. unfold mem_mkdir.
  rewrite (resolve_render _ Hd).
  destruct (mknod (done ++ [d]) (Dir dir_mode) fs) as [fs' [[]|e]].
  - now apply IH.
  - destruct e; try reflexivity. destruct (errno =? 20); [now apply IH | reflexivity].
Qed.

Lemma get_snapshot (S : Snapshot) (p : jsstring) (bs : list N) :
  List.NoDup (List.map fst S) -> In (p, bs) S ->
  get (snapshot_value S) p = Some (bytes_value bs).
Proof.
  unfold snapshot_value, get. induction S as [|[k b] S IH]; intros Hd Hin; [destruct Hin|].
  cbn [List.map fst snd obj_get]. inversion Hd as [|? ? Hk Hd']; subst.
  destruct Hin as [[= -> ->] | Hin].
  - now rewrite string_eqb_refl.
  - destruct (string_eqb p k) eqn:E; [|now apply IH].
    apply string_eqb_eq in E. subst. exfalso. apply Hk.
    apply in_map_iff. now exists (k, bs).
Qed.

(** On the tree in memory, the entry of a normalized path is restored as
    [restore_at] says. *)
Lemma restore_entry_at (S : Snapshot) (dirs : list jsstring) (name : jsstring)
    (bs : list N) (fs : MemFS) :
  Snapshot_wf S -> In (render (dirs ++ [name]), bs) S ->
  valid_segments (dirs ++ [name]) ->
  restore_entry (snapshot_value S) (render (dirs ++ [name])) fs
  = restore_at dirs name bs fs.
Proof.
  intros [Hnd Hwf] Hin Hv. unfold restore_entry, restore_at.
  destruct (path_parts dirs name Hv) as [Hdir Hname]. cbv zeta in Hdir, Hname.
  rewrite Hdir, Hname.
  assert (Hb : Forall (fun b => b < 256) bs).
  { rewrite List.Forall_forall in Hwf. now apply (Hwf _ Hin). }
  rewrite (get_snapshot S _ bs Hnd Hin), (Uint8Array_new_bytes bs Hb).
  assert (Hvn : valid_segment name = true).
  { unfold valid_segments in Hv. apply List.Forall_app in Hv as [_ Hv].
    now apply Forall_cons_1 in Hv as [Hv _]. }
  assert (Hvd : valid_segments dirs).
  { unfold valid_segments in *. now apply List.Forall_app in Hv as [Hv _]. }
  assert (Hne : name <> []) by (now apply valid_segment_facts in Hvn).
  cbn [analyzePath_exists unlink createDataFile mem_writer].
  unfold mem_exists, mem_unlink, mem_createDataFile.
  rewrite (resolve_render _ Hv).
  change (N.lor (N.land (FS_getMode true true) 4095) 32768) with restored_mode.
  assert (Edir : match render dirs with [] => js "/" | x :: r => x :: r end
                 = match dirs with [] => js "/" | _ => render dirs end).
  { destruct dirs as [|d dirs]; [reflexivity|]. rewrite render_cons. reflexivity. }
  rewrite Edir. clear Edir.
  destruct dirs as [|d dirs].
  - cbn [render List.map concat]. rewrite string_eqb_refl. cbn [mkdir_at].
    destruct name as [|c name]; [congruence|].
    rewrite (resolve_root_child _ Hvn). cbn [app].
    destruct (lookup_node fs [c :: name]) as [[m|m dat]|]; reflexivity.
  - rewrite (render_not_root d dirs Hvd).
    rewrite (split_nonempty_render _ Hvd).
    change (@nil N) with (render []) at 1.
    rewrite (mkdir_chain_at (d :: dirs) [] fs Hvd).
    destruct (mkdir_at [] (d :: dirs) fs) as [fs1 [[]|e]]; [|reflexivity].
    destruct name as [|c' name]; [congruence|].
    change (render (d :: dirs) ++ js "/" ++ c' :: name)
      with (render (d :: dirs) ++ slash :: c' :: name).
    rewrite <- render_snoc, (resolve_render _ Hv).
    destruct (lookup_node fs1 ((d :: dirs) ++ [c' :: name])) as [[m|m dat]|];
      reflexivity.
Qed.

End EntryAtSegments.

Section TreeFacts.
Implicit Types (fs : MemFS) (segs q r done rest dirs : list jsstring).
Implicit Types (name : jsstring) (data : list N).

Lemma lookup_node_nonempty fs segs : segs <> [] -> lookup_node fs segs = fs !! segs.
Proof. now destruct segs. Qed.

Lemma snoc_nonempty {A} (l : list A) (x : A) : l ++ [x] <> [].
Proof. now destruct l. Qed.

Lemma snoc_longer {A} (l : list A) (x : A) : l <> l ++ [x].
Proof.
  intros E. apply (f_equal (@length A)) in E. rewrite length_app in E. simpl in E. lia.
Qed.

Lemma lookup_node_insert_ne fs segs k node :
  segs <> k -> lookup_node (<[k := node]> fs) segs = lookup_node fs segs.
Proof. intros Hne. destruct segs; [reflexivity|]. now apply lookup_insert_ne. Qed.

Lemma lookup_node_delete_ne fs segs k :
  segs <> k -> lookup_node (delete k fs) segs = lookup_node fs segs.
Proof. intros Hne. destruct segs; [reflexivity|]. now apply lookup_delete_ne. Qed.

Lemma file_at_nonempty fs q : MemFS_wf fs -> file_at fs q -> q <> [].
Proof. intros Hwf (m & c & Hf). now destruct (Hwf _ _ Hf). Qed.

(** In a well formed tree every proper prefix of a stored path is a
    directory. *)
Lemma wf_prefix fs q r node :
  MemFS_wf fs -> fs !! (q ++ r) = Some node -> r <> [] -> dir_at fs q.
Proof.
  intros Hwf. revert node.
  induction r as [|x r IH] using rev_ind; intros node Hl Hr; [congruence|].
  destruct (Hwf _ _ Hl) as [_ [m Hp]].
  rewrite app_assoc, removelast_last in Hp.
  destruct r as [|y r].
  - rewrite app_nil_r in Hp. now exists m.
  - apply (IH (Dir m)); [|discriminate].
    rewrite <- Hp. symmetry. apply lookup_node_nonempty. now destruct q.
Qed.

Lemma wf_below_file fs q r :
  MemFS_wf fs -> file_at fs q -> r <> [] -> fs !! (q ++ r) = None.
Proof.
  intros Hwf Hf Hr. destruct (fs !! (q ++ r)) as [node|] eqn:E; [|reflexivity].
  destruct (wf_prefix fs q r node Hwf E Hr) as [m Hm].
  pose proof (file_at_nonempty fs q Hwf Hf) as Hq.
  destruct Hf as (m' & c & Hf).
  rewrite (lookup_node_nonempty fs q Hq) in Hm. congruence.
Qed.

Lemma mknod_frame segs node fs fs' res x n :
  mknod segs node fs = (fs', res) -> fs !! x = Some n -> fs' !! x = Some n.
Proof.
  unfold mknod. destruct (lookup_node fs segs) eqn:E; [now intros [= <- _]|].
  destruct (lookup_node fs (removelast segs)) as [[m|m c]|];
    intros [= <- _] Hx; try assumption.
  rewrite lookup_insert_ne; [assumption|].
  intros ->. destruct x; [discriminate|]. simpl in E. congruence.
Qed.

Lemma insert_wf segs node fs :
  MemFS_wf fs -> lookup_node fs segs = None -> dir_at fs (removelast segs) ->
  MemFS_wf (<[segs := node]> fs).
Proof.
  intros Hwf E [m P] y ny Hy.
  assert (Hs : segs <> []) by (intros ->; discriminate).
  destruct (decide (y = segs)) as [->|Hne].
  - split; [assumption|]. exists m. rewrite lookup_node_insert_ne; [assumption|].
    rewrite (app_removelast_last [] Hs) at 2. apply snoc_longer.
  - rewrite lookup_insert_ne in Hy by congruence.
    destruct (Hwf _ _ Hy) as [Hy0 [m' P']]. split; [assumption|]. exists m'.
    rewrite lookup_node_insert_ne; [assumption|]. intros Eq. congruence.
Qed.

Lemma mknod_wf segs node fs fs' res :
  MemFS_wf fs -> mknod segs node fs = (fs', res) -> MemFS_wf fs'.
Proof.
  intros Hwf. unfold mknod. destruct (lookup_node fs segs) eqn:E; [now intros [= <- _]|].
  destruct (lookup_node fs (removelast segs)) as [[m|m c]|] eqn:P;
    intros [= <- _]; try assumption.
  apply insert_wf; [assumption..|]. now exists m.
Qed.

Lemma delete_wf segs fs :
  MemFS_wf fs -> file_at fs segs -> MemFS_wf (delete segs fs).
Proof.
  intros Hwf (m & c & Hf) y ny Hy.
  apply lookup_delete_Some in Hy as [Hne Hy].
  destruct (Hwf _ _ Hy) as [Hy0 [m' P']]. split; [assumption|]. exists m'.
  rewrite lookup_node_delete_ne; [assumption|]. intros Eq.
  destruct (Hwf _ _ Hf) as [Hs _].
  rewrite Eq, (lookup_node_nonempty fs segs Hs) in P'. congruence.
Qed.

Lemma mkdir_at_frame x n rest : forall done fs fs' res,
  mkdir_at done rest fs = (fs', res) -> fs !! x = Some n -> fs' !! x = Some n.
Proof.
  induction rest as [|d rest IH]; intros done fs fs' res; cbn [mkdir_at].
  - now intros [= <- _].
  - destruct (mknod (done ++ [d]) (Dir dir_mode) fs) as [fs1 r1] eqn:E.
    intros Hm Hx. pose proof (mknod_frame _ _ _ _ _ x n E Hx) as Hx1.
    destruct r1 as [[]|e]; [now apply (IH _ _ _ _ Hm)|].
    destruct e; try (now injection Hm as <- _).
    destruct (errno =? 20); [now apply (IH _ _ _ _ Hm) | now injection Hm as <- _].
Qed.

(** When every directory of the chain is there, the chain changes
    nothing. *)
Lemma mkdir_at_noop fs rest : forall done,
  (forall q r, rest = q ++ r -> q <> [] -> is_Some (fs !! (done ++ q))) ->
  mkdir_at done rest fs = (fs, OK tt).
Proof.
  induction rest as [|d rest IH]; intros done Hall; [reflexivity|].
  cbn [mkdir_at]. unfold mknod.
  destruct (Hall [d] rest eq_refl ltac:(discriminate)) as [n Hn].
  rewrite (lookup_node_nonempty fs _ (snoc_nonempty done d)), Hn.
  change (20 =? 20) with true. cbv iota. apply IH.
  intros q r -> Hq. rewrite <- app_assoc. apply (Hall (d :: q) r eq_refl). discriminate.
Qed.

(** A regular file on the way stops the chain, and the tree is as it was. *)
Lemma mkdir_at_blocked fs rest : forall done q r,
  MemFS_wf fs -> rest = q ++ r -> r <> [] -> file_at fs (done ++ q) ->
  mkdir_at done rest fs = (fs, Err (ErrnoError 54)).
Proof.
  induction rest as [|d rest IH]; intros done q r Hwf Hrest Hr Hf.
  - destruct q; [simpl in Hrest; congruence | discriminate].
  - cbn [mkdir_at]. unfold mknod. destruct q as [|d' q].
    + simpl in Hrest. subst r. rewrite app_nil_r in Hf.
      rewrite (lookup_node_nonempty fs _ (snoc_nonempty done d)).
      rewrite (wf_below_file fs done [d] Hwf Hf) by discriminate.
      rewrite removelast_last.
      pose proof (file_at_nonempty fs done Hwf Hf) as Hd.
      destruct Hf as (m & c & Hf).
      rewrite (lookup_node_nonempty fs done Hd), Hf. reflexivity.
    + injection Hrest as <- ->.
      assert (Hex : is_Some (fs !! (done ++ [d]))).
      { destruct q as [|d2 q].
        - destruct Hf as (m & c & Hf). now exists (File m c).
        - destruct Hf as (m & c & Hf).
          replace (done ++ d :: d2 :: q) with ((done ++ [d]) ++ d2 :: q) in Hf
            by (now rewrite <- app_assoc).
          destruct (wf_prefix fs _ _ _ Hwf Hf ltac:(discriminate)) as [m' Hm'].
          rewrite (lookup_node_nonempty fs _ (snoc_nonempty done d)) in Hm'.
          now exists (Dir m'). }
      destruct Hex as [n Hn].
      rewrite (lookup_node_nonempty fs _ (snoc_nonempty done d)), Hn.
      change (20 =? 20) with true. cbv iota.
      apply (IH (done ++ [d]) q r Hwf eq_refl Hr). now rewrite <- app_assoc.
Qed.

(** What the chain leaves on a well formed tree: the last directory is
    there, or a regular file stood in the way. *)
Lemma mkdir_at_after rest : forall done fs fs' res,
  MemFS_wf fs -> is_Some (lookup_node fs done) ->
  mkdir_at done rest fs = (fs', res) ->
  MemFS_wf fs'
  /\ ((res = OK tt /\ is_Some (lookup_node fs' (done ++ rest)))
      \/ (exists q r, res = Err (ErrnoError 54) /\ rest = q ++ r /\ r <> []
                      /\ file_at fs' (done ++ q))).
Proof.
  induction rest as [|d rest IH]; intros done fs fs' res Hwf Hd; cbn [mkdir_at].
  - intros [= <- <-]. split; [assumption|]. left. now rewrite app_nil_r.
  - unfold mknod. rewrite removelast_last.
    destruct (lookup_node fs (done ++ [d])) as [n|] eqn:E.
    + change (20 =? 20) with true. cbv iota. intros Hm.
      destruct (IH (done ++ [d]) fs fs' res Hwf ltac:(now exists n) Hm) as [Hwf' Hres].
      split; [assumption|]. destruct Hres as [[-> Hs] | (q & r & -> & -> & Hr & Hf)].
      * left. now rewrite <- app_assoc in Hs.
      * right. exists (d :: q), r. rewrite <- app_assoc in Hf. now repeat split.
    + destruct Hd as [nd Hnd]. rewrite Hnd. destruct nd as [m|m c].
      * intros Hm.
        assert (Hwf1 : MemFS_wf (<[done ++ [d] := Dir dir_mode]> fs)).
        { apply insert_wf; [assumption..|]. rewrite removelast_last. now exists m. }
        assert (Hs1 : is_Some (lookup_node (<[done ++ [d] := Dir dir_mode]> fs)
                                           (done ++ [d]))).
        { rewrite (lookup_node_nonempty _ _ (snoc_nonempty done d)), lookup_insert_eq.
          now eexists. }
        destruct (IH (done ++ [d]) _ fs' res Hwf1 Hs1 Hm) as [Hwf' Hres].
        split; [assumption|]. destruct Hres as [[-> Hs] | (q & r & -> & -> & Hr & Hf)].
        -- left. now rewrite <- app_assoc in Hs.
        -- right. exists (d :: q), r. rewrite <- app_assoc in Hf. now repeat split.
      * intros [= <- <-]. split; [assumption|]. right.
        exists [], (d :: rest). repeat split; [discriminate|].
        rewrite app_nil_r. exists m, c. destruct done; [discriminate | assumption].
Qed.

End TreeFacts.

Section EntryOnTree.
Implicit Types (fs : MemFS) (segs q r dirs : list jsstring).
Implicit Types (name : jsstring) (data : list N).

Lemma prefixes_exist fs dirs name node :
  MemFS_wf fs -> fs !! (dirs ++ [name]) = Some node ->
  forall q r, dirs = q ++ r -> q <> [] -> is_Some (fs !! ([] ++ q)).
Proof.
  intros Hwf Hl q r -> Hq. rewrite <- app_assoc in Hl.
  destruct (wf_prefix fs q (r ++ [name]) node Hwf Hl (snoc_nonempty r name)) as [m Hm].
  rewrite (lookup_node_nonempty fs q Hq) in Hm. now exists (Dir m).
Qed.

(** Other paths keep their node, whatever becomes of the entry. *)
Lemma restore_at_frame dirs name data fs fs' res x n :
  restore_at dirs name data fs = (fs', res) ->
  fs !! x = Some n -> x <> dirs ++ [name] -> fs' !! x = Some n.
Proof.
  unfold restore_at. destruct (mkdir_at [] dirs fs) as [fs1 r1] eqn:E1.
  intros Hr Hx Hne. pose proof (mkdir_at_frame x n _ _ _ _ _ E1 Hx) as Hx1.
  destruct r1 as [[]|e]; [|now injection Hr as <- _].
  destruct (lookup_node fs1 (dirs ++ [name])) as [[m|m c]|] eqn:E2.
  - now injection Hr as <- _.
  - apply (mknod_frame _ _ _ _ _ x n Hr). now rewrite lookup_delete_ne.
  - now apply (mknod_frame _ _ _ _ _ x n Hr).
Qed.

(** Over a regular file of a well formed tree the entry is written. *)
Lemma restore_at_file dirs name data fs :
  MemFS_wf fs -> file_at fs (dirs ++ [name]) ->
  restore_at dirs name data fs
  = (<[dirs ++ [name] := File restored_mode data]> fs, OK tt).
Proof.
  intros Hwf (m & c & Hf). unfold restore_at.
  rewrite (mkdir_at_noop fs dirs [] (prefixes_exist fs dirs name _ Hwf Hf)).
  rewrite (lookup_node_nonempty fs _ (snoc_nonempty dirs name)), Hf.
  unfold mknod.
  rewrite (lookup_node_nonempty _ _ (snoc_nonempty dirs name)), lookup_delete_eq.
  rewrite removelast_last, lookup_node_delete_ne by apply snoc_longer.
  destruct (wf_prefix fs dirs [name] _ Hwf Hf ltac:(discriminate)) as [m' ->].
  now rewrite insert_delete_eq.
Qed.

(** Where a directory has the path of the entry, nothing is changed. *)
Lemma restore_at_dir dirs name data fs mode :
  MemFS_wf fs -> fs !! (dirs ++ [name]) = Some (Dir mode) ->
  restore_at dirs name data fs = (fs, Err (ErrnoError 31)).
Proof.
  intros Hwf Hf. unfold restore_at.
  rewrite (mkdir_at_noop fs dirs [] (prefixes_exist fs dirs name _ Hwf Hf)).
  now rewrite (lookup_node_nonempty fs _ (snoc_nonempty dirs name)), Hf.
Qed.

(** Where a regular file is on the way to the entry, nothing is changed. *)
Lemma restore_at_blocked dirs name data fs q r :
  MemFS_wf fs -> dirs ++ [name] = q ++ r -> r <> [] -> file_at fs q ->
  restore_at dirs name data fs = (fs, Err (ErrnoError 54)).
Proof.
  intros Hwf Hs Hr Hf. unfold restore_at.
  destruct r as [|x r _] using rev_ind; [congruence|].
  rewrite app_assoc in Hs. apply app_inj_tail in Hs as [-> ->].
  destruct r as [|y r].
  - rewrite app_nil_r in *.
    assert (Hall : forall q0 r0, q = q0 ++ r0 -> q0 <> [] -> is_Some (fs !! ([] ++ q0))).
    { intros q0 r0 -> Hq0. destruct Hf as (m & c & Hf). destruct r0 as [|z r0].
      - rewrite app_nil_r in Hf. now exists (File m c).
      - destruct (wf_prefix fs q0 (z :: r0) _ Hwf Hf ltac:(discriminate)) as [m' Hm'].
        rewrite (lookup_node_nonempty fs q0 Hq0) in Hm'. now exists (Dir m'). }
    rewrite (mkdir_at_noop fs q [] Hall).
    rewrite (lookup_node_nonempty fs _ (snoc_nonempty q x)).
    rewrite (wf_below_file fs q [x] Hwf Hf) by discriminate.
    unfold mknod.
    rewrite (lookup_node_nonempty fs _ (snoc_nonempty q x)).
    rewrite (wf_below_file fs q [x] Hwf Hf) by discriminate.
    rewrite removelast_last.
    pose proof (file_at_nonempty fs q Hwf Hf) as Hq.
    destruct Hf as (m & c & Hf).
    now rewrite (lookup_node_nonempty fs q Hq), Hf.
  - now rewrite (mkdir_at_blocked fs (q ++ y :: r) [] q (y :: r) Hwf eq_refl
                   ltac:(discriminate) Hf).
Qed.

(** What an entry leaves on a well formed tree, with its result. *)
Lemma restore_at_outcome dirs name data fs fs' res :
  MemFS_wf fs -> restore_at dirs name data fs = (fs', res) ->
  MemFS_wf fs'
  /\ ((res = Err (ErrnoError 54)
       /\ exists q r, dirs ++ [name] = q ++ r /\ r <> [] /\ file_at fs' q)
      \/ (res = Err (ErrnoError 31)
          /\ exists mode, fs' !! (dirs ++ [name]) = Some (Dir mode))
      \/ (res = OK tt
          /\ fs' !! (dirs ++ [name]) = Some (File restored_mode data))).
Proof.
  intros Hwf. unfold restore_at.
  destruct (mkdir_at [] dirs fs) as [fs1 r1] eqn:E1.
  destruct (mkdir_at_after dirs [] fs fs1 r1 Hwf ltac:(now eexists) E1)
    as [Hwf1 [[-> Hs] | (q & r & -> & -> & Hr & Hf)]].
  - simpl in Hs. destruct Hs as [nd Hnd].
    set (segs := dirs ++ [name]).
    assert (Hsegs : segs <> []) by apply snoc_nonempty.
    assert (Hstep : forall fs2, MemFS_wf fs2 -> fs2 !! segs = None ->
              lookup_node fs2 dirs = Some nd ->
              mknod segs (File restored_mode data) fs2 = (fs', res) ->
              MemFS_wf fs'
              /\ ((res = Err (ErrnoError 54)
                   /\ exists q r, segs = q ++ r /\ r <> [] /\ file_at fs' q)
                  \/ (res = Err (ErrnoError 31)
                      /\ exists mode, fs' !! segs = Some (Dir mode))
                  \/ (res = OK tt
                      /\ fs' !! segs = Some (File restored_mode data)))).
    { intros fs2 Hwf2 Hn Hd. unfold mknod.
      rewrite (lookup_node_nonempty fs2 segs Hsegs), Hn.
      unfold segs at 1. rewrite removelast_last, Hd. destruct nd as [m|m c].
      - intros [= <- <-]. split.
        + apply insert_wf; [assumption| |].
          * now rewrite (lookup_node_nonempty fs2 segs Hsegs).
          * unfold segs. rewrite removelast_last. now exists m.
        + right. right. split; [reflexivity|]. apply lookup_insert_eq.
      - intros [= <- <-]. split; [assumption|]. left. split; [reflexivity|].
        exists dirs, [name]. repeat split; [discriminate|]. exists m, c.
        destruct dirs; [discriminate | assumption]. }
    rewrite (lookup_node_nonempty fs1 segs Hsegs).
    destruct (fs1 !! segs) as [[m|m c]|] eqn:E2.
    + intros [= <- <-]. split; [assumption|]. right. left. split; [reflexivity|].
      now exists m.
    + apply Hstep.
      * apply delete_wf; [assumption|]. now exists m, c.
      * apply lookup_delete_eq.
      * rewrite lookup_node_delete_ne; [assumption|]. apply snoc_longer.
    + now apply Hstep.
  - intros [= <- <-]. split; [assumption|]. left. split; [reflexivity|].
    exists q, (r ++ [name]). simpl in Hf. repeat split.
    + now rewrite app_assoc.
    + apply snoc_nonempty.
    + assumption.
Qed.

(** After an entry the tree is well formed and the entry is settled. *)
Lemma restore_at_after dirs name data fs fs' res :
  MemFS_wf fs -> restore_at dirs name data fs = (fs', res) ->
  MemFS_wf fs' /\ settled (dirs ++ [name]) data fs'.
Proof.
  intros Hwf Hr.
  destruct (restore_at_outcome dirs name data fs fs' res Hwf Hr)
    as [Hwf' [[_ H] | [[_ H] | [_ H]]]]; (split; [assumption|]).
  - now left.
  - right. now left.
  - right. now right.
Qed.

(** Restoring a settled entry changes nothing. *)
Lemma restore_at_settled dirs name data fs :
  MemFS_wf fs -> settled (dirs ++ [name]) data fs ->
  fst (restore_at dirs name data fs) = fs.
Proof.
  intros Hwf [(q & r & Hs & Hr & Hf) | [[m Hd] | Hp]].
  - now rewrite (restore_at_blocked dirs name data fs q r Hwf Hs Hr Hf).
  - now rewrite (restore_at_dir dirs name data fs m Hwf Hd).
  - rewrite (restore_at_file dirs name data fs Hwf).
    + cbn [fst]. now apply insert_id.
    + exists restored_mode, data. exact Hp.
Qed.

(** A settled entry stays settled when another entry is restored. *)
Lemma settled_kept segs data dirs name data' fs fs' res :
  MemFS_wf fs -> settled segs data fs -> dirs ++ [name] <> segs ->
  restore_at dirs name data' fs = (fs', res) -> settled segs data fs'.
Proof.
  intros Hwf Hset Hne Hr.
  destruct Hset as [(q & r & Hs & Hr' & Hf) | [[m Hd] | Hp]].
  - left. exists q, r. repeat split; [assumption..|].
    destruct (decide (q = dirs ++ [name])) as [->|Hq].
    + rewrite (restore_at_file dirs name data' fs Hwf Hf) in Hr.
      injection Hr as <- _. exists restored_mode, data'. apply lookup_insert_eq.
    + destruct Hf as (m & c & Hf). exists m, c.
      now apply (restore_at_frame _ _ _ _ _ _ _ _ Hr Hf).
  - right. left. exists m. apply (restore_at_frame _ _ _ _ _ _ _ _ Hr Hd). congruence.
  - right. right. apply (restore_at_frame _ _ _ _ _ _ _ _ Hr Hp). congruence.
Qed.


(** What is in the tree after an entry was there before, or is a directory
    on the way to the entry, or is the file of the entry. *)
Lemma mknod_back segs node fs fs' res x n :
  mknod segs node fs = (fs', res) -> fs' !! x = Some n ->
  fs !! x = Some n \/ (x = segs /\ n = node).
Proof.
  unfold mknod. destruct (lookup_node fs segs); [intros [= <- _]; now left|].
  destruct (lookup_node fs (removelast segs)) as [[m|m c]|];
    intros [= <- _] Hx; try (now left).
  destruct (decide (x = segs)) as [->|Hne].
  - rewrite lookup_insert_eq in Hx. right. split; congruence.
  - rewrite lookup_insert_ne in Hx by congruence. now left.
Qed.

Lemma mkdir_at_back x n rest : forall done fs fs' res,
  mkdir_at done rest fs = (fs', res) -> fs' !! x = Some n ->
  fs !! x = Some n
  \/ (n = Dir dir_mode /\ exists q r, rest = q ++ r /\ q <> [] /\ x = done ++ q).
Proof.
  induction rest as [|d rest IH]; intros done fs fs' res; cbn [mkdir_at].
  - intros [= <- _] Hx. now left.
  - destruct (mknod (done ++ [d]) (Dir dir_mode) fs) as [fs1 r1] eqn:E.
    intros Hm Hx.
    assert (Hgo : mkdir_at (done ++ [d]) rest fs1 = (fs', res) ->
              fs !! x = Some n
              \/ (n = Dir dir_mode
                  /\ exists q r, d :: rest = q ++ r /\ q <> [] /\ x = done ++ q)).
    { intros Hm'. destruct (IH _ _ _ _ Hm' Hx) as [H1 | (-> & q & r & -> & Hq & ->)].
      - destruct (mknod_back _ _ _ _ _ _ _ E H1) as [H0 | [-> ->]]; [now left|].
        right. split; [reflexivity|]. exists [d], rest. now repeat split.
      - right. split; [reflexivity|]. exists (d :: q), r. rewrite <- app_assoc.
        now repeat split. }
    assert (Hstop : fs1 = fs' ->
              fs !! x = Some n
              \/ (n = Dir dir_mode
                  /\ exists q r, d :: rest = q ++ r /\ q <> [] /\ x = done ++ q)).
    { intros <-. destruct (mknod_back _ _ _ _ _ _ _ E Hx) as [H0 | [-> ->]]; [now left|].
      right. split; [reflexivity|]. exists [d], rest. now repeat split. }
    destruct r1 as [[]|e]; [now apply Hgo|].
    destruct e; try (injection Hm as Hm _; now apply Hstop).
    destruct (errno =? 20); [now apply Hgo | injection Hm as Hm _; now apply Hstop].
Qed.

Lemma restore_at_back dirs name data fs fs' res x n :
  restore_at dirs name data fs = (fs', res) -> fs' !! x = Some n ->
  fs !! x = Some n
  \/ (n = Dir dir_mode /\ proper_prefix x (dirs ++ [name]))
  \/ (x = dirs ++ [name] /\ n = File restored_mode data).
Proof.
  unfold restore_at. destruct (mkdir_at [] dirs fs) as [fs1 r1] eqn:E1.
  intros Hr Hx.
  assert (H1 : fs1 !! x = Some n ->
            fs !! x = Some n \/ (n = Dir dir_mode /\ proper_prefix x (dirs ++ [name]))).
  { intros Hx1. destruct (mkdir_at_back x n _ _ _ _ _ E1 Hx1)
      as [H0 | (-> & q & r & -> & Hq & ->)]; [now left|].
    right. split; [reflexivity|]. split; [assumption|].
    exists (r ++ [name]). split; [apply snoc_nonempty | now rewrite <- app_assoc]. }
  destruct r1 as [[]|e]; [|injection Hr as <- _; destruct (H1 Hx); tauto].
  destruct (lookup_node fs1 (dirs ++ [name])) as [[m|m c]|].
  - injection Hr as <- _. destruct (H1 Hx); tauto.
  - destruct (mknod_back _ _ _ _ _ _ _ Hr Hx) as [H2 | H2]; [|tauto].
    apply lookup_delete_Some in H2 as [_ H2]. destruct (H1 H2); tauto.
  - destruct (mknod_back _ _ _ _ _ _ _ Hr Hx) as [H2 | H2]; [|tauto].
    destruct (H1 H2); tauto.
Qed.

Lemma proper_prefix_differs q r : r <> [] -> q <> q ++ r.
Proof.
  intros Hr E. apply (f_equal (@length jsstring)) in E. rewrite length_app in E.
  destruct r; [congruence | simpl in E; lia].
Qed.

(** An entry that is not written leaves a well formed tree as it was. *)
Lemma restore_at_failed dirs name data fs fs' e :
  MemFS_wf fs -> restore_at dirs name data fs = (fs', Err e) ->
  fs' = fs /\ (e = ErrnoError 54 \/ e = ErrnoError 31).
Proof.
  intros Hwf Hr.
  destruct (restore_at_outcome dirs name data fs fs' _ Hwf Hr)
    as [Hwf' [[[= ->] (q & r & Hs & Hr' & Hf)] | [[[= ->] [m Hd]] | [[=] _]]]].
  - assert (Hf0 : file_at fs q).
    { destruct Hf as (m & c & Hf). exists m, c.
      destruct (restore_at_back _ _ _ _ _ _ _ _ Hr Hf) as [H | [[[=] _] | [Hq _]]];
        [assumption|]. rewrite Hs in Hq. now apply proper_prefix_differs in Hq. }
    rewrite (restore_at_blocked dirs name data fs q r Hwf Hs Hr' Hf0) in Hr.
    injection Hr as <-. split; [reflexivity | now left].
  - assert (Hd0 : fs !! (dirs ++ [name]) = Some (Dir m)).
    { destruct (restore_at_back _ _ _ _ _ _ _ _ Hr Hd)
        as [H | [[_ (_ & r & Hr' & Hq)] | [_ [=]]]]; [assumption|].
      now apply proper_prefix_differs in Hq. }
    rewrite (restore_at_dir dirs name data fs m Hwf Hd0) in Hr.
    injection Hr as <-. split; [reflexivity | now right].
Qed.

End EntryOnTree.

Section WholeSnapshot.
Implicit Types (fs : MemFS) (segs : list jsstring) (data : list N).
Implicit Types (entries : list (list jsstring * list N)).

Lemma segs_parts segs : segs <> [] -> removelast segs ++ [List.last segs []] = segs.
Proof. intros Hs. symmetry. now apply app_removelast_last. Qed.

Lemma restore_segs_after segs data fs :
  MemFS_wf fs -> segs <> [] ->
  MemFS_wf (fst (restore_segs segs data fs))
  /\ settled segs data (fst (restore_segs segs data fs)).
Proof.
  intros Hwf Hs. unfold restore_segs.
  destruct (restore_at (removelast segs) (List.last segs []) data fs) as [fs' res] eqn:E.
  pose proof (restore_at_after _ _ _ _ _ _ Hwf E) as H.
  now rewrite (segs_parts segs Hs) in H.
Qed.

Lemma restore_segs_settled segs data fs :
  MemFS_wf fs -> segs <> [] -> settled segs data fs ->
  fst (restore_segs segs data fs) = fs.
Proof.
  intros Hwf Hs Hset. unfold restore_segs. apply restore_at_settled; [assumption|].
  now rewrite (segs_parts segs Hs).
Qed.

Lemma restore_segs_kept segs data segs' data' fs :
  MemFS_wf fs -> settled segs data fs -> segs' <> [] -> segs' <> segs ->
  settled segs data (fst (restore_segs segs' data' fs)).
Proof.
  intros Hwf Hset Hs Hne. unfold restore_segs.
  destruct (restore_at (removelast segs') (List.last segs' []) data' fs)
    as [fs' res] eqn:E.
  apply (settled_kept segs data (removelast segs') (List.last segs' []) data'
           fs fs' res Hwf Hset); [|exact E].
  now rewrite (segs_parts segs' Hs).
Qed.

Lemma restore_all_wf entries : forall fs,
  Forall (fun e => fst e <> []) entries -> MemFS_wf fs ->
  MemFS_wf (restore_all entries fs).
Proof.
  induction entries as [|[segs data] entries IH]; intros fs Hne Hwf; [assumption|].
  apply Forall_cons_1 in Hne as [Hs Hne]. cbn [restore_all fold_left fst snd].
  apply IH; [assumption|]. now apply restore_segs_after.
Qed.

Lemma restore_all_kept segs data entries : forall fs,
  Forall (fun e => fst e <> []) entries -> ~ In segs (List.map fst entries) ->
  MemFS_wf fs -> settled segs data fs ->
  settled segs data (restore_all entries fs).
Proof.
  induction entries as [|[segs' data'] entries IH]; intros fs Hne Hni Hwf Hset;
    [assumption|].
  apply Forall_cons_1 in Hne as [Hs Hne]. cbn [restore_all fold_left fst snd].
  cbn [List.map fst In] in Hni. apply IH.
  - assumption.
  - tauto.
  - now apply restore_segs_after.
  - apply restore_segs_kept; [assumption..|]. intros ->. tauto.
Qed.

(** After the whole snapshot every entry of it is settled. *)
Lemma restore_all_settles entries : forall fs,
  List.NoDup (List.map fst entries) -> Forall (fun e => fst e <> []) entries ->
  MemFS_wf fs ->
  forall e, In e entries -> settled (fst e) (snd e) (restore_all entries fs).
Proof.
  induction entries as [|[segs data] entries IH]; intros fs Hnd Hne Hwf e Hin;
    [destruct Hin|].
  apply Forall_cons_1 in Hne as [Hs Hne]. cbn [List.map fst] in Hnd.
  apply List.NoDup_cons_iff in Hnd as [Hni Hnd].
  cbn [restore_all fold_left fst snd].
  destruct (restore_segs_after segs data fs Hwf Hs) as [Hwf1 Hset1].
  destruct Hin as [<- | Hin].
  - now apply restore_all_kept.
  - now apply IH.
Qed.

Lemma restore_all_fixed entries : forall fs,
  Forall (fun e => fst e <> []) entries -> MemFS_wf fs ->
  (forall e, In e entries -> settled (fst e) (snd e) fs) ->
  restore_all entries fs = fs.
Proof.
  induction entries as [|[segs data] entries IH]; intros fs Hne Hwf Hall; [reflexivity|].
  apply Forall_cons_1 in Hne as [Hs Hne]. cbn [restore_all fold_left fst snd].
  rewrite (restore_segs_settled segs data fs Hwf Hs (Hall (segs, data) (or_introl eq_refl))).
  apply IH; [assumption..|]. intros e He. apply Hall. now right.
Qed.

Lemma restore_all_twice entries fs :
  List.NoDup (List.map fst entries) -> Forall (fun e => fst e <> []) entries ->
  MemFS_wf fs ->
  restore_all entries (restore_all entries fs) = restore_all entries fs.
Proof.
  intros Hnd Hne Hwf. apply restore_all_fixed.
  - assumption.
  - now apply restore_all_wf.
  - now apply restore_all_settles.
Qed.

Lemma restore_all_frame x n entries : forall fs,
  Forall (fun e => fst e <> []) entries -> ~ In x (List.map fst entries) ->
  fs !! x = Some n -> restore_all entries fs !! x = Some n.
Proof.
  induction entries as [|[segs data] entries IH]; intros fs Hne Hni Hx; [assumption|].
  apply Forall_cons_1 in Hne as [Hs Hne]. cbn [restore_all fold_left fst snd].
  cbn [List.map fst In] in Hni. apply IH; [assumption | tauto |].
  unfold restore_segs.
  destruct (restore_at (removelast segs) (List.last segs []) data fs) as [fs' res] eqn:E.
  apply (restore_at_frame _ _ _ _ _ _ _ _ E Hx).
  rewrite (segs_parts segs Hs). intros ->. tauto.
Qed.

Lemma restore_all_back x n entries : forall fs,
  Forall (fun e => fst e <> []) entries ->
  restore_all entries fs !! x = Some n ->
  fs !! x = Some n
  \/ exists e, In e entries
       /\ ((n = Dir dir_mode /\ proper_prefix x (fst e))
           \/ (x = fst e /\ n = File restored_mode (snd e))).
Proof.
  induction entries as [|[segs data] entries IH]; intros fs Hne Hx; [now left|].
  apply Forall_cons_1 in Hne as [Hs Hne]. cbn [restore_all fold_left fst snd] in Hx.
  destruct (IH _ Hne Hx) as [H1 | (e & He & H)].
  - unfold restore_segs in H1.
    destruct (restore_at (removelast segs) (List.last segs []) data fs)
      as [fs' res] eqn:E.
    apply (restore_at_back _ _ _ _ _ _ _ _ E) in H1.
    rewrite (segs_parts segs Hs) in H1. destruct H1 as [H1 | H1]; [now left|].
    right. exists (segs, data). split; [now left | exact H1].
  - right. exists e. split; [now right | exact H].
Qed.

(** An entry nothing stands in the way of is written. *)
Lemma restore_all_written entries fs segs data :
  List.NoDup (List.map fst entries) -> Forall (fun e => fst e <> []) entries ->
  MemFS_wf fs -> In (segs, data) entries ->
  (forall q, proper_prefix q segs -> ~ file_at fs q) ->
  (forall mode, fs !! segs <> Some (Dir mode)) ->
  (forall e, In e entries ->
     ~ proper_prefix (fst e) segs /\ ~ proper_prefix segs (fst e)) ->
  restore_all entries fs !! segs = Some (File restored_mode data).
Proof.
  intros Hnd Hne Hwf Hin Hfile Hdir Hfree.
  pose proof (restore_all_wf entries fs Hne Hwf) as Hwf'.
  destruct (restore_all_settles entries fs Hnd Hne Hwf _ Hin)
    as [(q & r & Hs & Hr & Hf) | [[m Hd] | Hp]]; cbn [fst snd] in *.
  - exfalso. pose proof (file_at_nonempty _ q Hwf' Hf) as Hq.
    assert (Hpp : proper_prefix q segs) by (split; [assumption | now exists r]).
    destruct Hf as (m & c & Hf).
    destruct (restore_all_back q _ entries fs Hne Hf) as [H | (e & He & [[[=] _] | [-> _]])].
    + apply (Hfile q Hpp). now exists m, c.
    + destruct (Hfree e He) as [H1 _]. now apply H1.
  - exfalso.
    destruct (restore_all_back segs _ entries fs Hne Hd) as [H | (e & He & [[_ H] | [_ [=]]])].
    + now apply (Hdir m).
    + destruct (Hfree e He) as [_ H2]. now apply H2.
  - assumption.
Qed.

(** The paths of a snapshot and their segments. *)
Lemma entry_segments (S : Snapshot) (e : jsstring * list N) :
  Snapshot_wf S -> In e S ->
  exists dirs name, valid_segments (dirs ++ [name])
    /\ fst e = render (dirs ++ [name]) /\ resolve (fst e) = dirs ++ [name].
Proof.
  intros [_ Hwf] Hin. rewrite List.Forall_forall in Hwf.
  destruct (Hwf e Hin) as [Hn _].
  apply normalized_path_render in Hn as (dirs & name & Hv & Hp).
  exists dirs, name. repeat split; [assumption..|].
  rewrite Hp. now apply resolve_render.
Qed.

Lemma segments_distinct_in (S l : Snapshot) :
  Snapshot_wf S -> (forall e, In e l -> In e S) -> List.NoDup (List.map fst l) ->
  List.NoDup (List.map fst (snapshot_segments l))
  /\ Forall (fun e => fst e <> []) (snapshot_segments l).
Proof.
  intros HS. induction l as [|e l IH]; intros Hsub Hnd.
  - split; constructor.
  - cbn [List.map fst] in Hnd. apply List.NoDup_cons_iff in Hnd as [Hni Hnd].
    destruct (IH (fun x Hx => Hsub x (or_intror Hx)) Hnd) as [IH1 IH2].
    destruct (entry_segments S e HS (Hsub e (or_introl eq_refl)))
      as (dirs & name & Hv & Hp & Hr).
    unfold snapshot_segments in *. cbn [List.map fst]. split.
    + constructor; [|assumption]. intros Hin.
      apply in_map_iff in Hin as ([segs' d'] & Heq & Hin).
      apply in_map_iff in Hin as (e' & [= <- <-] & Hin'). cbn [fst] in Heq.
      destruct (entry_segments S e' HS (Hsub e' (or_intror Hin')))
        as (dirs' & name' & Hv' & Hp' & Hr').
      apply Hni. apply in_map_iff. exists e'. split; [|assumption].
      rewrite Hp, Hp', <- Hr, <- Hr'. now rewrite Heq.
    + constructor; [|assumption]. cbn [fst]. rewrite Hr. apply snoc_nonempty.
Qed.

Lemma snapshot_segments_distinct (S : Snapshot) :
  Snapshot_wf S ->
  List.NoDup (List.map fst (snapshot_segments S))
  /\ Forall (fun e => fst e <> []) (snapshot_segments S).
Proof.
  intros HS. apply (segments_distinct_in S S HS); [auto|]. now destruct HS.
Qed.

Lemma own_keys_snapshot (S : Snapshot) : own_keys (snapshot_value S) = List.map fst S.
Proof.
  unfold snapshot_value, own_keys. rewrite List.map_map. reflexivity.
Qed.

Lemma restore_segments_in (S l : Snapshot) : forall fs,
  Snapshot_wf S -> (forall e, In e l -> In e S) ->
  fold_left (fun fs path => fst (restore_entry (snapshot_value S) path fs))
            (List.map fst l) fs
  = restore_all (snapshot_segments l) fs.
Proof.
  induction l as [|[p bs] l IH]; intros fs HS Hsub; [reflexivity|].
  unfold snapshot_segments, restore_all in *. cbn [List.map fold_left fst snd].
  destruct (entry_segments S (p, bs) HS (Hsub _ (or_introl eq_refl)))
    as (dirs & name & Hv & Hp & Hr).
  cbn [fst] in Hp, Hr. rewrite Hr. unfold restore_segs.
  rewrite removelast_last, last_last.
  assert (Hin : In (render (dirs ++ [name]), bs) S).
  { rewrite <- Hp. apply Hsub. now left. }
  rewrite Hp, (restore_entry_at S dirs name bs fs HS Hin Hv).
  apply IH; [assumption|]. intros e He. apply Hsub. now right.
Qed.

(** On the tree in memory, restoring a snapshot is restoring its entries by
    their segments. *)
Lemma restoreSaveFiles_segments (S : Snapshot) fs :
  Snapshot_wf S ->
  restoreSaveFiles (snapshot_value S) fs = restore_all (snapshot_segments S) fs.
Proof.
  intros HS. unfold restoreSaveFiles. rewrite own_keys_snapshot.
  now apply restore_segments_in.
Qed.

End WholeSnapshot.

(** ** Restoring a snapshot into the tree in memory *)

Section RestoreOnTree.
Implicit Types (S : Snapshot) (fs : MemFS) (p : jsstring) (bs : list N).

Lemma empty_wf : MemFS_wf ∅.
Proof. intros segs node Hl. now rewrite lookup_empty in Hl. Qed.

Lemma old_save_tree_wf : MemFS_wf old_save_tree.
Proof.
  unfold old_save_tree. apply insert_wf.
  - apply insert_wf; [apply empty_wf | reflexivity | now exists dir_mode].
  - reflexivity.
  - now exists dir_mode.
Qed.

Lemma blocked_tree_wf : MemFS_wf blocked_tree.
Proof.
  unfold blocked_tree.
  apply insert_wf; [apply empty_wf | reflexivity | now exists dir_mode].
Qed.

Lemma two_slots_wf : Snapshot_wf two_slots.
Proof.
  split.
  - repeat constructor; simpl; intuition discriminate.
  - repeat constructor; simpl; lia.
Qed.

Lemma in_snapshot_segments S p bs :
  In (p, bs) S -> In (resolve p, bs) (snapshot_segments S).
Proof.
  intros Hin. unfold snapshot_segments. apply in_map_iff. now exists (p, bs).
Qed.

Lemma snapshot_segments_in S (e : list jsstring * list N) :
  In e (snapshot_segments S) ->
  exists e0, In e0 S /\ fst e = resolve (fst e0) /\ snd e = snd e0.
Proof.
  unfold snapshot_segments. intros Hin.
  apply in_map_iff in Hin as (e0 & <- & Hin). now exists e0.
Qed.

End RestoreOnTree.

(** X15.  Restoring a snapshot of normalized paths and bytes a second time
    changes nothing: on a well formed tree in memory the second restore
    leaves the tree of the first. *)
Theorem restore_twice_is_restore_once (S : Snapshot) (fs : MemFS) :
  Snapshot_wf S -> MemFS_wf fs ->
  restoreSaveFiles (snapshot_value S) (restoreSaveFiles (snapshot_value S) fs)
  = restoreSaveFiles (snapshot_value S) fs.
Proof.
  intros HS Hwf. rewrite !(restoreSaveFiles_segments S _ HS).
  destruct (snapshot_segments_distinct S HS) as [Hnd Hne].
  now apply restore_all_twice.
Qed.

Lemma restore_twice_is_restore_once_witness :
  restoreSaveFiles (snapshot_value two_slots)
    (restoreSaveFiles (snapshot_value two_slots) old_save_tree)
  = restoreSaveFiles (snapshot_value two_slots) old_save_tree.
Proof.
  exact (restore_twice_is_restore_once two_slots old_save_tree
           two_slots_wf old_save_tree_wf).
Defined.

(** X16.  Restoring keeps the tree well formed: after it the root is still
    not stored and every node has a directory for its parent. *)
Theorem restore_keeps_tree_well_formed (S : Snapshot) (fs : MemFS) :
  Snapshot_wf S -> MemFS_wf fs ->
  MemFS_wf (restoreSaveFiles (snapshot_value S) fs).
Proof.
  intros HS Hwf. rewrite (restoreSaveFiles_segments S _ HS).
  destruct (snapshot_segments_distinct S HS) as [_ Hne].
  now apply restore_all_wf.
Qed.

Lemma restore_keeps_tree_well_formed_witness :
  MemFS_wf (restoreSaveFiles (snapshot_value two_slots) blocked_tree).
Proof.
  exact (restore_keeps_tree_well_formed two_slots blocked_tree
           two_slots_wf blocked_tree_wf).
Defined.

(** X17.  Restoring removes nothing but the files it writes again: a node
    whose path is not the path of an entry is after the restore what it was
    before, so no directory and no other file is lost or changed. *)
Theorem restore_leaves_other_paths (S : Snapshot) (fs : MemFS)
    (x : list jsstring) (node : Node) :
  Snapshot_wf S -> fs !! x = Some node ->
  (forall e, In e S -> resolve (fst e) <> x) ->
  restoreSaveFiles (snapshot_value S) fs !! x = Some node.
Proof.
  intros HS Hx Hother. rewrite (restoreSaveFiles_segments S _ HS).
  destruct (snapshot_segments_distinct S HS) as [_ Hne].
  apply restore_all_frame; [assumption| |assumption].
  intros Hin. apply in_map_iff in Hin as (e & <- & Hin).
  apply snapshot_segments_in in Hin as (e0 & He0 & Hf & _).
  now apply (Hother e0 He0).
Qed.

Lemma restore_leaves_other_paths_witness :
  restoreSaveFiles (snapshot_value [(js "/SaveData/slot2", [4])]) old_save_tree
    !! [js "SaveData"; js "slot1"]
  = Some (File 33206 [9]).
Proof.
  apply (restore_leaves_other_paths [(js "/SaveData/slot2", [4])] old_save_tree).
  - split; [repeat constructor; simpl; tauto | repeat constructor; simpl; lia].
  - reflexivity.
  - intros e [<- | []]. vm_compute. discriminate.
Defined.

(** X18.  After a restore every entry of the snapshot is settled: a regular
    file stands where one of its directories should be, or a directory has
    its path, or its file is there with mode [rwxrwxrwx] and its bytes. *)
Theorem every_entry_is_settled (S : Snapshot) (fs : MemFS)
    (p : jsstring) (bs : list N) :
  Snapshot_wf S -> MemFS_wf fs -> In (p, bs) S ->
  settled (resolve p) bs (restoreSaveFiles (snapshot_value S) fs).
Proof.
  intros HS Hwf Hin. rewrite (restoreSaveFiles_segments S _ HS).
  destruct (snapshot_segments_distinct S HS) as [Hnd Hne].
  exact (restore_all_settles _ fs Hnd Hne Hwf _ (in_snapshot_segments S p bs Hin)).
Qed.

Lemma every_entry_is_settled_witness :
  settled (resolve (js "/SaveData/slot2")) [4]
          (restoreSaveFiles (snapshot_value two_slots) blocked_tree).
Proof.
  apply (every_entry_is_settled two_slots blocked_tree (js "/SaveData/slot2") [4]
           two_slots_wf blocked_tree_wf).
  right. now left.
Defined.

(** X19.  A restore adds nothing of its own: a node of the tree after it
    was there before, or is a directory with mode [drwxrwxrwx] on the way to
    an entry, or is the file of an entry with its bytes. *)
Theorem restore_adds_only_entries (S : Snapshot) (fs : MemFS)
    (x : list jsstring) (node : Node) :
  Snapshot_wf S ->
  restoreSaveFiles (snapshot_value S) fs !! x = Some node ->
  fs !! x = Some node
  \/ exists p bs, In (p, bs) S
       /\ ((node = Dir dir_mode /\ proper_prefix x (resolve p))
           \/ (x = resolve p /\ node = File restored_mode bs)).
Proof.
  intros HS. rewrite (restoreSaveFiles_segments S _ HS).
  destruct (snapshot_segments_distinct S HS) as [_ Hne]. intros Hx.
  destruct (restore_all_back x node _ fs Hne Hx) as [H | (e & He & H)]; [now left|].
  right. apply snapshot_segments_in in He as ([p bs] & He0 & Hf & Hs).
  cbn [fst snd] in Hf, Hs. exists p, bs. rewrite Hf, Hs in H.
  split; [exact He0 | exact H].
Qed.

Lemma restore_adds_only_entries_witness :
  (∅ : MemFS) !! [js "SaveData"] = Some (Dir dir_mode)
  \/ exists p bs, In (p, bs) two_slots
       /\ ((Dir dir_mode = Dir dir_mode
            /\ proper_prefix [js "SaveData"] (resolve p))
           \/ ([js "SaveData"] = resolve p /\ Dir dir_mode = File restored_mode bs)).
Proof.
  apply (restore_adds_only_entries two_slots ∅ [js "SaveData"] (Dir dir_mode)
           two_slots_wf).
  reflexivity.
Defined.

(** X20.  An entry nothing stands in the way of is written: when no regular
    file of the tree is on the way to it, no directory has its path, and no
    other entry of the snapshot lies on its way or below it, then after the
    restore its file is there with mode [rwxrwxrwx] and its bytes. *)
Theorem restorable_entry_is_written (S : Snapshot) (fs : MemFS)
    (p : jsstring) (bs : list N) :
  Snapshot_wf S -> MemFS_wf fs -> In (p, bs) S ->
  (forall q, proper_prefix q (resolve p) -> ~ file_at fs q) ->
  (forall mode, fs !! resolve p <> Some (Dir mode)) ->
  (forall e, In e S ->
     ~ proper_prefix (resolve (fst e)) (resolve p)
     /\ ~ proper_prefix (resolve p) (resolve (fst e))) ->
  restoreSaveFiles (snapshot_value S) fs !! resolve p
  = Some (File restored_mode bs).
Proof.
  intros HS Hwf Hin Hfile Hdir Hfree. rewrite (restoreSaveFiles_segments S _ HS).
  destruct (snapshot_segments_distinct S HS) as [Hnd Hne].
  apply restore_all_written; try assumption.
  - now apply in_snapshot_segments.
  - intros e He. apply snapshot_segments_in in He as (e0 & He0 & -> & _).
    now apply Hfree.
Qed.

Lemma restorable_entry_is_written_witness :
  restoreSaveFiles (snapshot_value two_slots) old_save_tree
    !! resolve (js "/SaveData/slot1")
  = Some (File restored_mode [1; 2; 3]).
Proof.
  assert (Hpp : forall q a b, proper_prefix q [a; b] -> q = [a]).
  { intros q a b (Hq & r & Hr & E). destruct q as [|x [|y q]]; [congruence| |].
    - now injection E as <- _.
    - destruct r; [congruence|]. destruct q; discriminate. }
  apply (restorable_entry_is_written two_slots old_save_tree
           (js "/SaveData/slot1") [1; 2; 3] two_slots_wf old_save_tree_wf).
  - now left.
  - intros q Hq. apply Hpp in Hq as ->. intros (m & c & Hf). discriminate.
  - intros m. discriminate.
  - intros e [<- | [<- | []]]; split; intros Hq; apply Hpp in Hq; discriminate.
Defined.

(** X21.  On a well formed tree an entry that is not written changes
    nothing: when the body of the [try] for a path throws, the tree is the
    one it started with, no directory of the chain is left behind. *)
Theorem failed_entry_changes_nothing (S : Snapshot) (fs fs' : MemFS)
    (p : jsstring) (bs : list N) (e : Error) :
  Snapshot_wf S -> MemFS_wf fs -> In (p, bs) S ->
  restore_entry (snapshot_value S) p fs = (fs', Err e) -> fs' = fs.
Proof.
  intros HS Hwf Hin Hr.
  destruct (entry_segments S (p, bs) HS Hin) as (dirs & name & Hv & Hp & _).
  cbn [fst] in Hp. subst p.
  rewrite (restore_entry_at S dirs name bs fs HS Hin Hv) in Hr.
  now destruct (restore_at_failed dirs name bs fs fs' e Hwf Hr).
Qed.

Lemma failed_entry_changes_nothing_witness :
  restore_entry (snapshot_value slot1_snapshot) (js "/SaveData/slot1") blocked_tree
  = (blocked_tree, Err (ErrnoError 54))
  /\ blocked_tree = blocked_tree.
Proof.
  assert (E : restore_entry (snapshot_value slot1_snapshot) (js "/SaveData/slot1")
                            blocked_tree
              = (blocked_tree, Err (ErrnoError 54))) by (vm_compute; reflexivity).
  split; [exact E|].
  exact (failed_entry_changes_nothing slot1_snapshot blocked_tree blocked_tree
           (js "/SaveData/slot1") [1; 2; 3] (ErrnoError 54)
           slot1_snapshot_wf blocked_tree_wf (or_introl eq_refl) E).
Defined.

(** ** Names outside Latin-1 cannot be saved *)

Section WideNames.

Lemma escape_of_wide c : 255 < c -> JSON.escape_of c = None.
Proof.
  intros Hc. unfold JSON.escape_of.
  repeat match goal with
         | |- context [?a =? ?b] => destruct (N.eqb_spec a b); [lia|]
         end.
  destruct (N.ltb_spec c 32); [lia | reflexivity].
Qed.

Lemma quote_units_wide c : wide_unit c ->
  forall n k, (length k <= n)%nat -> In c k -> In c (JSON.quote_units k).
Proof.
  intros (Hc & Hl & Ht). induction n as [|n IH]; intros k Hn Hin.
  - destruct k; [destruct Hin | simpl in Hn; lia].
  - destruct k as [|x rest]; [destruct Hin|]. simpl in Hn.
    cbn [JSON.quote_units]. destruct Hin as [-> | Hin].
    + rewrite (escape_of_wide c Hc), Hl, Ht. now left.
    + assert (IHr : In c (JSON.quote_units rest)) by (apply IH; [lia | assumption]).
      destruct (JSON.escape_of x) as [esc|]; [apply in_or_app; now right|].
      destruct (JSON.is_lead x).
      * destruct rest as [|d rest']; [destruct Hin|].
        destruct (JSON.is_trail d) eqn:Ed; [|apply in_or_app; now right].
        right. destruct Hin as [-> | Hin]; [congruence|].
        right. apply IH; [simpl in Hn; lia | assumption].
      * destruct (JSON.is_trail x); [apply in_or_app; now right | now right].
Qed.

Lemma join_comma_in c part parts :
  In part parts -> In c part -> In c (JSON.join_comma parts).
Proof.
  induction parts as [|p parts IH]; intros Hin Hc; [destruct Hin|].
  destruct parts as [|p' parts].
  - destruct Hin as [-> | []]. exact Hc.
  - rewrite join_comma_cons. apply in_or_app. destruct Hin as [-> | Hin]; [now left|].
    right. right. now apply IH.
Qed.

Lemma stringify_wide c k v props :
  wide_unit c -> In (k, v) props -> In c k -> In c (JSON.stringify (JObject props)).
Proof.
  intros Hw Hin Hc. cbn [JSON.stringify]. right. apply in_or_app. left.
  apply (join_comma_in c (JSON.quote k ++ 58 :: JSON.stringify v)).
  - apply in_map_iff. now exists (k, v).
  - apply in_or_app. left. unfold JSON.quote. right. apply in_or_app. left.
    now apply (quote_units_wide c Hw (length k) k).
Qed.

Lemma btoa_wide c s : 255 < c -> In c s -> Base64.btoa s = Err InvalidCharacterError.
Proof.
  intros Hc Hin. unfold Base64.btoa.
  destruct (forallb (fun c => c <=? 255) s) eqn:E; [|reflexivity].
  rewrite forallb_forall in E. specialize (E c Hin).
  apply N.leb_le in E. lia.
Qed.

Lemma serialize_wide c k v props :
  wide_unit c -> In (k, v) props -> In c k ->
  serialize (JObject props) = Err InvalidCharacterError.
Proof.
  intros Hw Hin Hc. unfold serialize. apply (btoa_wide c); [apply Hw|].
  now apply (stringify_wide c k v props).
Qed.

Lemma euro_is_wide : wide_unit 8364.
Proof. repeat split. Qed.

End WideNames.

(** X22.  A file whose path has a code unit above U+00FF, no half of a
    surrogate pair, cannot be saved: [serialize] throws on the files, and
    on every host [saveToIndexedDB] ends with a failure, whichever store it
    goes to. *)
Theorem wide_path_is_never_saved (props : list (jsstring * JSValue))
    (k : jsstring) (v : JSValue) (c : N) (h : Host) :
  In (k, v) props -> In c k -> wide_unit c ->
  serialize (JObject props) = Err InvalidCharacterError
  /\ exists h' e, saveToIndexedDB (JObject props) h = (h', SaveFailed e).
Proof.
  intros Hin Hc Hw.
  pose proof (serialize_wide c k v props Hw Hin Hc) as Es. split; [exact Es|].
  unfold saveToIndexedDB. destruct (negb (getIndexedDB h)).
  - unfold saveToLocalStorage. rewrite Es. now eexists; eexists.
  - unfold saveViaIndexedDB.
    destruct (idb_open h IDB_NAME IDB_VERSION (Some save_upgrade)) as [h' [db|e]];
      [|now eexists; eexists].
    destruct (negb (has_store db IDB_STORE)); [now eexists; eexists|].
    destruct (transaction_fault h'); [now eexists; eexists|].
    rewrite Es. now eexists; eexists.
Qed.

Lemma wide_path_is_never_saved_witness :
  serialize (snapshot_value euro_snapshot) = Err InvalidCharacterError
  /\ exists h' e,
       saveToIndexedDB (snapshot_value euro_snapshot) fresh_host = (h', SaveFailed e).
Proof.
  apply (wide_path_is_never_saved (snapshot_members euro_snapshot)
           [47; 8364] (bytes_value [1; 2; 3]) 8364 fresh_host).
  - now left.
  - right. now left.
  - exact euro_is_wide.
Defined.

(** X23.  With such a file among the collected ones [exportSave] throws:
    the exception of [serialize] is not caught, and neither an alert nor a
    download is made. *)
Theorem export_throws_on_wide_path {St : Type} `{FSReader St} (fs : St)
    (now : jsstring) (files : list (jsstring * JSValue))
    (k : jsstring) (v : JSValue) (c : N) :
  collectSaveFiles fs = Some files ->
  In (k, v) files -> In c k -> wide_unit c ->
  exportSave fs now = Some (Err InvalidCharacterError).
Proof.
  intros Ec Hin Hc Hw. unfold exportSave. rewrite Ec.
  assert (Hk : (keys_length (JObject files) =? 0) = false).
  { unfold keys_length. cbn [own_keys]. rewrite length_map.
    destruct files; [destruct Hin|]. apply N.eqb_neq. simpl length. lia. }
  rewrite Hk, (serialize_wide c k v files Hw Hin Hc). reflexivity.
Qed.

Lemma export_throws_on_wide_path_witness :
  exportSave euro_fs (js "2024-01-01T00:00:00.000Z") = Some (Err InvalidCharacterError).
Proof.
  apply (export_throws_on_wide_path euro_fs (js "2024-01-01T00:00:00.000Z")
           (snapshot_members euro_snapshot)
           [47; 8364] (bytes_value [1; 2; 3]) 8364).
  - vm_compute. reflexivity.
  - now left.
  - right. now left.
  - exact euro_is_wide.
Defined.

(** * The claims *)

(** ** The codec *)

(** C1, as amended.  For every snapshot (unique normalized paths, byte
    contents) whose paths hold no code unit above U+00FF, [serialize] returns
    a string and [deserialize] of that string is the snapshot again: the same
    keys in the same order, each with the same bytes.  Whether a path is under
    an excluded prefix plays no part. *)
Theorem C1_roundtrip_latin1 (S : Snapshot) :
  Snapshot_wf S -> latin1_paths S ->
  exists str, serialize (snapshot_value S) = OK str
              /\ deserialize str = snapshot_value S.
Proof.
  intros Hwf Hl.
  exists (Base64.encode (JSON.stringify (snapshot_value S))).
  assert (Hs : serialize (snapshot_value S)
               = OK (Base64.encode (JSON.stringify (snapshot_value S)))).
  { unfold serialize. apply btoa_latin1. now apply snapshot_json_latin1. }
  split; [exact Hs|]. now apply deserialize_serialize.
Qed.

Lemma C1_roundtrip_latin1_witness :
  Snapshot_wf slot1_snapshot /\ latin1_paths slot1_snapshot
  /\ exists str, serialize (snapshot_value slot1_snapshot) = OK str
                 /\ deserialize str = snapshot_value slot1_snapshot.
Proof.
  assert (Hwf : Snapshot_wf slot1_snapshot).
  { split.
    - repeat constructor. simpl. tauto.
    - repeat constructor; simpl; lia. }
  assert (Hl : latin1_paths slot1_snapshot).
  { repeat constructor; simpl; lia. }
  split; [exact Hwf|]. split; [exact Hl|].
  exact (C1_roundtrip_latin1 slot1_snapshot Hwf Hl).
Defined.

(** C1 as stated fails: the snapshot with the single path [/€] is well formed
    and not excluded, and [btoa] throws on its JSON text, so [serialize]
    returns nothing that [deserialize] could read. *)
Lemma C1_counterexample :
  Snapshot_wf euro_snapshot /\ no_skipped_path euro_snapshot
  /\ ~ (exists str, serialize (snapshot_value euro_snapshot) = OK str
                    /\ deserialize str = snapshot_value euro_snapshot).
Proof.
  split; [|split].
  - split.
    + repeat constructor. simpl. tauto.
    + repeat constructor; simpl; lia.
  - repeat constructor.
  - intros (str & Hs & _).
    assert (E : serialize (snapshot_value euro_snapshot) = Err InvalidCharacterError)
      by (vm_compute; reflexivity).
    congruence.
Qed.




(** ** The stores *)

(** C3, as amended.  For a payload whose encoding is [str]: when [str] is
    longer than 4,194,304 characters the save to the fallback store reports
    the capacity error and leaves the host, so the stored value, as it was;
    when it is not longer and [setItem] throws, the save reports what was
    thrown and leaves the host as it was; when it is not longer and
    [setItem] takes it, the save succeeds, [str] is what is stored, and a
    load that follows returns the snapshot the payload was, unless [getItem]
    throws. *)
Theorem C3_capacity_law (files : JSValue) (str : jsstring) (h : Host) :
  serialize files = OK str ->
  (4194304 < js_length str ->
     saveToLocalStorage files h = (h, SaveFailed too_large))
  /\ (js_length str <= 4194304 ->
       (forall e, setItem_fault h STORAGE_KEY str = Some e ->
          saveToLocalStorage files h = (h, SaveFailed e))
       /\ (setItem_fault h STORAGE_KEY str = None ->
           exists h',
             saveToLocalStorage files h = (h', Saved)
             /\ localStorage h' !! STORAGE_KEY = Some str
             /\ forall S, Snapshot_wf S -> files = snapshot_value S ->
                  getItem_fault h = None ->
                  loadFromLocalStorage h' = (h', Loaded files))).
Proof.
  intros Hs. split.
  - intros Hl. exact (saveToLocalStorage_too_large _ str _ Hs Hl).
  - intros Hl. split.
    + intros e He. exact (saveToLocalStorage_refused _ str _ e Hs Hl He).
    + intros Hf. eexists.
      split; [exact (saveToLocalStorage_fits _ str _ Hs Hl Hf)|].
      cbn [localStorage set_localStorage].
      split; [apply lookup_insert_eq|].
      intros S Hwf -> Hg.
      rewrite (loadFromLocalStorage_stored _ str);
        [|exact Hg | cbn [localStorage set_localStorage]; apply lookup_insert_eq].
      now rewrite (decode_stored_serialize S str Hwf Hs).
Qed.

Lemma C3_capacity_law_witness :
  (exists str,
     serialize (snapshot_value (zero_snapshot (N.to_nat 4194304))) = OK str
     /\ 4194304 < js_length str
     /\ saveToLocalStorage (snapshot_value (zero_snapshot (N.to_nat 4194304))) bare_host
        = (bare_host, SaveFailed too_large))
  /\ exists str,
       serialize (snapshot_value slot1_snapshot) = OK str
       /\ js_length str <= 4194304
       /\ saveToLocalStorage (snapshot_value slot1_snapshot) full_host
          = (full_host, SaveFailed quota_exceeded)
       /\ exists h',
            saveToLocalStorage (snapshot_value slot1_snapshot) bare_host = (h', Saved)
            /\ localStorage h' !! STORAGE_KEY = Some str
            /\ loadFromLocalStorage h' = (h', Loaded (snapshot_value slot1_snapshot)).
Proof.
  split.
  - destruct (zero_snapshot_serialize (N.to_nat 4194304)) as (str & Hs & Hl).
    rewrite N2Nat.id in Hl. exists str. split; [exact Hs|]. split; [exact Hl|].
    exact (proj1 (C3_capacity_law _ str bare_host Hs) Hl).
  - exists (Base64.encode (JSON.stringify (snapshot_value slot1_snapshot))).
    assert (Hs : serialize (snapshot_value slot1_snapshot)
                 = OK (Base64.encode (JSON.stringify (snapshot_value slot1_snapshot))))
      by (vm_compute; reflexivity).
    assert (Hl : js_length (Base64.encode (JSON.stringify (snapshot_value slot1_snapshot)))
                 <= 4194304)
      by (vm_compute; discriminate).
    split; [exact Hs|]. split; [exact Hl|]. split.
    + exact (proj1 (proj2 (C3_capacity_law _ _ full_host Hs) Hl) quota_exceeded eq_refl).
    + destruct (proj2 (proj2 (C3_capacity_law _ _ bare_host Hs) Hl) eq_refl)
        as (h' & H1 & H2 & H3).
      exists h'. split; [exact H1|]. split; [exact H2|].
      exact (H3 slot1_snapshot slot1_snapshot_wf eq_refl eq_refl).
Defined.

(** C3 as stated fails: the encoding of the snapshot of the first slot is
    within the ceiling, but on a host whose [localStorage] is full the save
    does not succeed, and the load that follows returns [null]. *)
Lemma C3_counterexample :
  exists str,
    serialize (snapshot_value slot1_snapshot) = OK str
    /\ js_length str <= 4194304
    /\ saveToLocalStorage (snapshot_value slot1_snapshot) full_host
       = (full_host, SaveFailed quota_exceeded)
    /\ loadFromLocalStorage full_host = (full_host, Loaded JNull).
Proof.
  exists (Base64.encode (JSON.stringify (snapshot_value slot1_snapshot))).
  split; [vm_compute; reflexivity|].
  split; [vm_compute; discriminate|].
  split; vm_compute; reflexivity.
Qed.




(** C8.  When the database opens and has no object store [savedata], a load
    ends with [onSuccess(null)], not with an error, and a save ends with the
    error that the object store was not found. *)
Theorem C8_missing_store (files : JSValue) (h h' : Host) (db : Database) :
  getIndexedDB h = true ->
  has_store db IDB_STORE = false ->
  (idb_open h IDB_NAME IDB_VERSION None = (h', OK db) ->
     loadFromIndexedDB h = (h', Loaded JNull))
  /\ (idb_open h IDB_NAME IDB_VERSION (Some save_upgrade) = (h', OK db) ->
       saveToIndexedDB files h = (h', SaveFailed store_not_found)).
Proof.
  intros Hg Hst. split; intros Ho.
  - rewrite (loadFromIndexedDB_present _ Hg). unfold loadViaIndexedDB.
    rewrite Ho. unfold has_store in Hst.
    now destruct (db_stores db !! IDB_STORE).
  - rewrite (saveToIndexedDB_present _ _ Hg). unfold saveViaIndexedDB.
    now rewrite Ho, Hst.
Qed.

Lemma C8_missing_store_witness :
  let h1 := fst (loadFromIndexedDB fresh_host) in
  loadFromIndexedDB fresh_host = (h1, Loaded JNull)
  /\ saveToIndexedDB (snapshot_value slot1_snapshot) h1
     = (h1, SaveFailed store_not_found).
Proof.
  set (db := {| db_version := IDB_VERSION; db_stores := ∅ |}).
  set (h1 := set_databases fresh_host (<[IDB_NAME := db]> ∅)).
  assert (E1 : idb_open fresh_host IDB_NAME IDB_VERSION None = (h1, OK db))
    by reflexivity.
  assert (E2 : idb_open h1 IDB_NAME IDB_VERSION (Some save_upgrade) = (h1, OK db)).
  { unfold idb_open. cbn [open_fault h1 set_databases fresh_host databases].
    rewrite lookup_insert_eq. reflexivity. }
  assert (L : loadFromIndexedDB fresh_host = (h1, Loaded JNull))
    by exact (proj1 (C8_missing_store JNull fresh_host h1 db eq_refl eq_refl) E1).
  cbv zeta. rewrite L. cbn [fst]. split; [reflexivity|].
  exact (proj2 (C8_missing_store (snapshot_value slot1_snapshot) h1 h1 db
                  eq_refl eq_refl) E2).
Defined.

(** ** The restorer *)

(** C5.  Restoring a snapshot (distinct normalized paths, byte contents)
    into a well formed tree a second time leaves the tree of the first
    restore, because after the first every entry is a fixed point of its
    own step: its file is deleted and made again with the same bytes, or
    the step fails as it did before and changes nothing. *)
Theorem C5_restore_idempotent (S : Snapshot) (fs : MemFS) :
  Snapshot_wf S -> MemFS_wf fs ->
  restoreSaveFiles (snapshot_value S) (restoreSaveFiles (snapshot_value S) fs)
  = restoreSaveFiles (snapshot_value S) fs
  /\ forall p bs, In (p, bs) S ->
       fst (restore_entry (snapshot_value S) p
              (restoreSaveFiles (snapshot_value S) fs))
       = restoreSaveFiles (snapshot_value S) fs.
Proof.
  intros HS Hwf. rewrite !(restoreSaveFiles_segments S _ HS).
  destruct (snapshot_segments_distinct S HS) as [Hnd Hne].
  split; [now apply restore_all_twice|].
  intros p bs Hin.
  destruct (entry_segments S (p, bs) HS Hin) as (dirs & name & Hv & Hp & Hr).
  cbn [fst] in Hp, Hr.
  pose proof (restore_all_settles _ fs Hnd Hne Hwf _ (in_snapshot_segments S p bs Hin))
    as Hset.
  cbn [fst snd] in Hset. rewrite Hr in Hset. subst p.
  rewrite (restore_entry_at S dirs name bs _ HS Hin Hv).
  apply restore_at_settled; [now apply restore_all_wf | exact Hset].
Qed.

Lemma C5_restore_idempotent_witness :
  restoreSaveFiles (snapshot_value two_slots)
    (restoreSaveFiles (snapshot_value two_slots) old_save_tree)
  = restoreSaveFiles (snapshot_value two_slots) old_save_tree
  /\ restoreSaveFiles (snapshot_value two_slots) old_save_tree
       !! [js "SaveData"; js "slot1"]
     = Some (File restored_mode [1; 2; 3]).
Proof.
  split.
  - exact (proj1 (C5_restore_idempotent two_slots old_save_tree
                    two_slots_wf old_save_tree_wf)).
  - vm_compute. reflexivity.
Defined.



(** ** The collector and the flows *)

(** C7.  Whatever the filesystem, no path the traversal collected is an
    excluded prefix or starts with an excluded prefix followed by [/]; and
    on a tree whose directories nest to a finite depth the traversal
    returns. *)
Theorem C7_filter_invariant {St : Type} `{FSReader St} (fs : St) :
  (forall files,
     collectSaveFiles fs = Some files ->
     forall k, In k (List.map fst files) ->
       forall p, In p SKIP_PATHS ->
         k <> p /\ startsWith k (p ++ js "/") = false)
  /\ (reader_wf fs -> exists files, collectSaveFiles fs = Some files).
Proof.
  split.
  - intros files E k Hin. apply skipped_false.
    assert (Hk : all_kept files).
    { unfold collectSaveFiles in E.
      exact (walk_kept _ _ _ _ _ (List.Forall_nil _) E). }
    apply in_map_iff in Hin as ([k' v] & <- & Hin).
    unfold all_kept in Hk. rewrite List.Forall_forall in Hk. exact (Hk _ Hin).
  - intros Hwf. destruct (collectSaveFiles_returns fs Hwf) as (files & E & _).
    now exists files.
Qed.

Lemma C7_filter_invariant_witness :
  @collectSaveFiles MemFS (mem_reader read_bytes) game_tree
  = Some [(js "/SaveData/slot1", bytes_value [1; 2; 3])]
  /\ forall k, In k [js "/SaveData/slot1"] ->
       forall p, In p SKIP_PATHS ->
         k <> p /\ startsWith k (p ++ js "/") = false.
Proof.
  destruct (@C7_filter_invariant MemFS (mem_reader read_bytes) game_tree)
    as [Hinv Hret].
  destruct (Hret (tree_reader_wf read_bytes game_tree game_tree_named))
    as [files E].
  assert (Ef : @collectSaveFiles MemFS (mem_reader read_bytes) game_tree
               = Some [(js "/SaveData/slot1", bytes_value [1; 2; 3])])
    by (vm_compute; reflexivity).
  split; [exact Ef|].
  exact (Hinv _ Ef).
Defined.

(** C10.  When the traversal collects nothing, [doSave] makes no save, so
    the host and what it stores are as before, and [exportSave] shows the
    alert that there is nothing to export and starts no download. *)
Theorem C10_empty_snapshot {St : Type} `{FSReader St}
    (fs : St) (h : Host) (now : jsstring) :
  collectSaveFiles fs = Some [] ->
  doSave fs h = Some (h, None)
  /\ exportSave fs now = Some (OK [Alert (js "No save data to export.")]).
Proof.
  intros E. unfold doSave, exportSave. rewrite E. split; reflexivity.
Qed.

Lemma C10_empty_snapshot_witness :
  collectSaveFiles empty_save_fs = Some []
  /\ doSave empty_save_fs fresh_host = Some (fresh_host, None)
  /\ exportSave empty_save_fs (js "2026-01-31T10:00:00.000Z")
     = Some (OK [Alert (js "No save data to export.")]).
Proof.
  split; [reflexivity|].
  exact (C10_empty_snapshot empty_save_fs fresh_host (js "2026-01-31T10:00:00.000Z")
           eq_refl).
Defined.

(** C9: the defect.  Content that decodes to an array is of type [object]
    and passes the check of [importSave]: the Base64 text of [[[1]]] is
    restored as a file [/0] holding the byte 1, stored as the save, and
    reported as a success. *)
Theorem C9_import_array_is_restored :
  deserialize (js "W1sxXV0=") = JArray [JArray [JNumber (Finite 1 0)]]
  /\ importSave (∅ : MemFS) bare_host (OK (js "W1sxXV0=")) true true
     = (<[ [js "0"] := File restored_mode [1] ]> ∅,
        set_localStorage bare_host (<[STORAGE_KEY := js "W1sxXV0="]> ∅),
        [CallOnSuccess]).
Proof. split; vm_compute; reflexivity. Qed.
